(** * Shallow embedding of the Kanban board parser and serializer

    This development embeds the core of the board converter (the module
    exporting [parseKanbanBoard] and [serializeKanbanBoard]): the scalar
    extractors of a card line, the natural-language date resolver, the
    recurrence parser and next-occurrence calculator, the card-line parser,
    the document segmenter and the serializer.

    Modelling choices:
    - JavaScript strings are modelled as lists of ASCII characters ([str]).
    - The regular expressions of the source are transcribed literally into a
      small backtracking regular-expression language [re] whose matcher [mt]
      follows the ECMAScript matching semantics for the constructs used here
      (greedy and lazy stars, alternation tried left to right, capture groups,
      [^], [$], their multiline variants and [\b]).  In the comments that
      quote a source pattern, a star right before a closing parenthesis is
      written [{0,}].
    - A [Date] is a day number (days since 1970-01-01, local time); all the
      date code zeroes the time of day first, so only the calendar day counts.
    - [generateId] (random) is an id supply [gen : nat -> str] threaded with
      a counter; [new Date()] is the parameter [now]; [JSON.parse] and
      [JSON.stringify] are the parameters [json_parse] and [json_stringify]. *)

From Stdlib Require Import Ascii String.
From Stdlib Require Import Bool ZArith Arith Lia List.
From Stdlib Require Import Numbers.DecimalString Sorting.Mergesort Sorting.Sorted Permutation.
From Stdlib Require Import RelationClasses.
Import ListNotations.

Open Scope list_scope.

(** ** Strings and characters *)

Definition str : Type := list ascii.

(** A string literal as a character list. *)
Definition L (s : string) : str := list_ascii_of_string s.

Definition code (a : ascii) : nat := nat_of_ascii a.

(** [\s] of ECMAScript restricted to ASCII: tab, line feed, vertical tab,
    form feed, carriage return and space; also what [trim] removes. *)
Definition is_ws (a : ascii) : bool :=
  let n := code a in ((9 <=? n) && (n <=? 13)) || (n =? 32).

Definition is_digit (a : ascii) : bool :=
  let n := code a in (48 <=? n) && (n <=? 57).

Definition is_upper (a : ascii) : bool :=
  let n := code a in (65 <=? n) && (n <=? 90).

Definition is_lower (a : ascii) : bool :=
  let n := code a in (97 <=? n) && (n <=? 122).

(** [\w] *)
Definition is_word (a : ascii) : bool :=
  is_digit a || is_upper a || is_lower a || (code a =? 95).

(** ECMAScript line terminators (ASCII ones): [\n] and [\r]. *)
Definition is_line_term (a : ascii) : bool :=
  (code a =? 10) || (code a =? 13).

Definition to_lower (a : ascii) : ascii :=
  if is_upper a then ascii_of_nat (code a + 32) else a.

Definition nl : ascii := ascii_of_nat 10.

(** ** ECMAScript string operations *)

Fixpoint starts_with (s p : str) : bool :=
  match p, s with
  | [], _ => true
  | c :: p', a :: s' => Ascii.eqb a c && starts_with s' p'
  | _ :: _, [] => false
  end.

(** [s.indexOf(p, from)]; [None] stands for [-1]. *)
Fixpoint index_of_from (s p : str) (i : nat) : option nat :=
  if starts_with s p then Some i
  else match s with
       | [] => None
       | _ :: s' => index_of_from s' p (S i)
       end.

Definition index_of (s p : str) : option nat := index_of_from s p 0.

Definition includes (s p : str) : bool :=
  match index_of s p with Some _ => true | None => false end.

Fixpoint str_eqb (s t : str) : bool :=
  match s, t with
  | [], [] => true
  | a :: s', b :: t' => Ascii.eqb a b && str_eqb s' t'
  | _, _ => false
  end.

Definition slice (s : str) (a b : nat) : str := firstn (b - a) (skipn a s).

(** [s.replace(p, r)] with a string pattern: only the first occurrence. *)
Definition replace_first (s p r : str) : str :=
  match index_of s p with
  | Some i => firstn i s ++ r ++ skipn (i + length p) s
  | None => s
  end.

Fixpoint drop_ws (s : str) : str :=
  match s with
  | a :: s' => if is_ws a then drop_ws s' else s
  | [] => []
  end.

Definition trim (s : str) : str := rev (drop_ws (rev (drop_ws s))).

Definition to_lower_str (s : str) : str := map to_lower s.

(** [s.split(sep)] for a one-character separator. *)
Fixpoint split_on (sep : ascii) (s : str) : list str :=
  match s with
  | [] => [[]]
  | a :: s' =>
      if Ascii.eqb a sep then [] :: split_on sep s'
      else match split_on sep s' with
           | w :: ws => (a :: w) :: ws
           | [] => [[a]]
           end
  end.

Definition split_lines (s : str) : list str := split_on nl s.

(** [xs.join(sep)] *)
Fixpoint join (sep : str) (xs : list str) : str :=
  match xs with
  | [] => []
  | [x] => x
  | x :: xs' => x ++ sep ++ join sep xs'
  end.

(** [String(n)] for an integer. *)
Definition Z_to_str (z : Z) : str := L (NilEmpty.string_of_int (Z.to_int z)).

(** [padStart(2, '0')] *)
Definition pad2 (s : str) : str :=
  match s with
  | [_] => L "0" ++ s
  | [] => L "00"
  | _ => s
  end.

Fixpoint digits_value (acc : Z) (s : str) : Z :=
  match s with
  | a :: s' =>
      if is_digit a then digits_value (acc * 10 + Z.of_nat (code a - 48))%Z s'
      else acc
  | [] => acc
  end.

(** [parseInt(s, 10)]: leading white space, an optional sign, the longest
    run of decimal digits; [None] stands for [NaN]. *)
Definition parse_int (s : str) : option Z :=
  let s1 := drop_ws s in
  let '(sign, s2) :=
    match s1 with
    | a :: s' => if Ascii.eqb a "-"%char then ((-1)%Z, s')
                 else if Ascii.eqb a "+"%char then (1%Z, s') else (1%Z, s1)
    | [] => (1%Z, s1)
    end in
  match s2 with
  | a :: _ => if is_digit a then Some (sign * digits_value 0%Z s2)%Z else None
  | [] => None
  end.

(** ** Regular expressions with ECMAScript backtracking semantics *)

Inductive re : Type :=
| REps                          (* the empty pattern *)
| RChr (f : ascii -> bool)      (* one character of a class *)
| RSeq (r1 r2 : re)
| RAlt (r1 r2 : re)             (* [r1|r2], left alternative first *)
| RStar (greedy : bool) (r : re) (* [r*] (greedy) or [r*?] (lazy) *)
| RGroup (n : nat) (r : re)     (* capture group number [n] *)
| RBol | REol                   (* [^] and [$] without the [m] flag *)
| RBolM | REolM                 (* [^] and [$] with the [m] flag *)
| RWordB.                       (* [\b] *)

(** Captures, most recent first: group number, start and end position. *)
Definition caps : Type := list (nat * (nat * nat)).

Record mres := { m_start : nat; m_end : nat; m_caps : caps }.

Section Matcher.
Variable inp : str.

Definition char_at (p : nat) : option ascii := nth_error inp p.

Definition word_at (p : nat) : bool :=
  match char_at p with Some a => is_word a | None => false end.

Definition term_at (p : nat) : bool :=
  match char_at p with Some a => is_line_term a | None => false end.

(** The continuation-passing backtracking matcher: [mt r p cs k] matches [r]
    at position [p] and hands every way of doing so, in ECMAScript priority
    order, to [k] until [k] succeeds.  An iteration of a star that matches
    the empty string fails, as in the ECMAScript [RepeatMatcher]; the fuel
    of the star loop bounds the number of (non-empty) iterations. *)
Fixpoint mt (r : re) (p : nat) (cs : caps) (k : nat -> caps -> option mres)
  {struct r} : option mres :=
  match r with
  | REps => k p cs
  | RChr f =>
      match char_at p with
      | Some a => if f a then k (S p) cs else None
      | None => None
      end
  | RSeq r1 r2 => mt r1 p cs (fun p1 cs1 => mt r2 p1 cs1 k)
  | RAlt r1 r2 =>
      match mt r1 p cs k with
      | Some m => Some m
      | None => mt r2 p cs k
      end
  | RGroup n r1 => mt r1 p cs (fun p1 cs1 => k p1 ((n, (p, p1)) :: cs1))
  | RStar g r1 =>
      let fix loop (fuel q : nat) (cq : caps) {struct fuel} : option mres :=
        match fuel with
        | O => k q cq
        | S f =>
            if g then
              match mt r1 q cq (fun q1 c1 => if q <? q1 then loop f q1 c1 else None) with
              | Some m => Some m
              | None => k q cq
              end
            else
              match k q cq with
              | Some m => Some m
              | None => mt r1 q cq (fun q1 c1 => if q <? q1 then loop f q1 c1 else None)
              end
        end
      in loop (S (length inp - p)) p cs
  | RBol => if p =? 0 then k p cs else None
  | REol => if p =? length inp then k p cs else None
  | RBolM => if (p =? 0) || term_at (p - 1) then k p cs else None
  | REolM => if (p =? length inp) || term_at p then k p cs else None
  | RWordB =>
      if Bool.eqb ((0 <? p) && word_at (p - 1)) (word_at p) then None else k p cs
  end.

Definition k_final (i : nat) (p : nat) (cs : caps) : option mres :=
  Some {| m_start := i; m_end := p; m_caps := cs |}.

Fixpoint search_from (r : re) (i fuel : nat) : option mres :=
  match fuel with
  | O => None
  | S f =>
      match mt r i [] (k_final i) with
      | Some m => Some m
      | None => search_from r (S i) f
      end
  end.

(** [r.exec(inp)] with [lastIndex = i]: the leftmost match at or after [i]. *)
Definition re_exec (r : re) (i : nat) : option mres :=
  if length inp <? i then None else search_from r i (S (length inp - i)).

(** [inp.match(r)] for a pattern without the [g] flag. *)
Definition re_match (r : re) : option mres := re_exec r 0.

(** The text of capture group [n] ([0] is the whole match). *)
Definition group (m : mres) (n : nat) : option str :=
  if n =? 0 then Some (slice inp (m_start m) (m_end m))
  else match find (fun e => fst e =? n) (m_caps m) with
       | Some (_, (a, b)) => Some (slice inp a b)
       | None => None
       end.

Definition group0 (m : mres) : str := slice inp (m_start m) (m_end m).

(** Successive matches of a global pattern ([exec] loop or [match] with [g]). *)
Fixpoint match_all_from (r : re) (i fuel : nat) : list mres :=
  match fuel with
  | O => []
  | S f =>
      match re_exec r i with
      | None => []
      | Some m =>
          m :: match_all_from r (if m_end m =? m_start m then S (m_end m) else m_end m) f
      end
  end.

Definition match_all (r : re) : list mres := match_all_from r 0 (S (length inp)).

End Matcher.

(** [s.match(r)] (no [g] flag): the capture groups of the first match. *)
Definition re_test (r : re) (s : str) : bool :=
  match re_match s r with Some _ => true | None => false end.

(** Pattern builders. *)
Definition chr (c : ascii) : re := RChr (Ascii.eqb c).
(** A character under the [i] flag (ASCII case folding). *)
Definition chri (c : ascii) : re := RChr (fun a => Ascii.eqb (to_lower a) (to_lower c)).

Fixpoint seqs (rs : list re) : re :=
  match rs with
  | [] => REps
  | [r] => r
  | r :: rs' => RSeq r (seqs rs')
  end.

Fixpoint alts (rs : list re) : re :=
  match rs with
  | [] => RChr (fun _ => false)
  | [r] => r
  | r :: rs' => RAlt r (alts rs')
  end.

Definition lit (s : string) : re := seqs (map chr (L s)).
Definition liti (s : string) : re := seqs (map chri (L s)).
Definition star (r : re) : re := RStar true r.
Definition lazy_star (r : re) : re := RStar false r.
Definition plus (r : re) : re := RSeq r (star r).
Definition opt (r : re) : re := RAlt r REps.
Definition Rws : re := RChr is_ws.            (* \s *)
Definition Rdigit : re := RChr is_digit.      (* \d *)
Definition Rword : re := RChr is_word.        (* \w *)
Definition Rdot : re := RChr (fun a => negb (is_line_term a)).  (* . *)
Definition Rany : re := RChr (fun _ => true). (* [\s\S] *)
Definition Rnot (c : ascii) : re := RChr (fun a => negb (Ascii.eqb a c)).  (* [^c] *)
Definition Rin (cs : string) : re := RChr (fun a => existsb (Ascii.eqb a) (L cs)).

(** [s.replace(r, f)] for a pattern without [g]: the first match is replaced
    by [f] applied to it. *)
Definition re_replace (s : str) (r : re) (f : mres -> str) : str :=
  match re_match s r with
  | Some m => firstn (m_start m) s ++ f m ++ skipn (m_end m) s
  | None => s
  end.

Definition grp (s : str) (m : mres) (n : nat) : str :=
  match group s m n with Some g => g | None => [] end.

(** ** Calendar dates

    A [Date] with its time of day zeroed is a day number: days since
    1970-01-01 in local time.  [days_from_civil] and [civil_from_days] are the
    proleptic Gregorian conversions used by the [Date] methods. *)

Definition date : Type := Z.

Open Scope Z_scope.

Definition days_from_civil (y m d : Z) : Z :=
  let y' := if m <=? 2 then y - 1 else y in
  let era := y' / 400 in
  let yoe := y' - era * 400 in
  let doy := (153 * (m + (if m >? 2 then -3 else 9)) + 2) / 5 + d - 1 in
  let doe := yoe * 365 + yoe / 4 - yoe / 100 + doy in
  era * 146097 + doe - 719468.

(** (year, month 1..12, day 1..31) *)
Definition civil_from_days (z : Z) : Z * Z * Z :=
  let z' := z + 719468 in
  let era := z' / 146097 in
  let doe := z' - era * 146097 in
  let yoe := (doe - doe / 1460 + doe / 36524 - doe / 146096) / 365 in
  let doy := doe - (365 * yoe + yoe / 4 - yoe / 100) in
  let mp := (5 * doy + 2) / 153 in
  let d := doy - (153 * mp + 2) / 5 + 1 in
  let m := if mp <? 10 then mp + 3 else mp - 9 in
  let y := yoe + era * 400 in
  (if m <=? 2 then y + 1 else y, m, d).

(** ECMAScript [MakeDay] with a zero-based month that may overflow. *)
Definition make_day (y m0 d : Z) : date :=
  days_from_civil (y + m0 / 12) (m0 mod 12 + 1) 1 + d - 1.

Definition getFullYear (t : date) : Z := let '(y, _, _) := civil_from_days t in y.
(** zero-based, as in ECMAScript *)
Definition getMonth (t : date) : Z := let '(_, m, _) := civil_from_days t in m - 1.
Definition getDate (t : date) : Z := let '(_, _, d) := civil_from_days t in d.
(** Sunday = 0; 1970-01-01 was a Thursday. *)
Definition getDay (t : date) : Z := (t + 4) mod 7.

(** [new Date(y, m, d)]: years 0..99 are read as 1900..1999. *)
Definition new_date (y m0 d : Z) : date :=
  make_day (if (0 <=? y) && (y <=? 99) then 1900 + y else y) m0 d.

(** [t.setDate(n)], [t.setMonth(n)], [t.setFullYear(n)] *)
Definition setDate (t : date) (n : Z) : date := make_day (getFullYear t) (getMonth t) n.
Definition setMonth (t : date) (n : Z) : date := make_day (getFullYear t) n (getDate t).
Definition setFullYear (t : date) (n : Z) : date := make_day n (getMonth t) (getDate t).

(** [formatISODate] *)
Definition formatISODate (t : date) : str :=
  Z_to_str (getFullYear t) ++ L "-" ++ pad2 (Z_to_str (getMonth t + 1)) ++ L "-"
  ++ pad2 (Z_to_str (getDate t)).

Close Scope Z_scope.

(** ** Natural-language dates *)

Definition day_names : list string :=
  ["sunday"; "monday"; "tuesday"; "wednesday"; "thursday"; "friday"; "saturday"]%string.

(** [(sunday|monday|...|saturday)] under the [i] flag. *)
Definition Rdayname : re := alts (map liti day_names).

(** [DAY_NAMES[name]] *)
Definition day_index (name : str) : option Z :=
  let fix go (ns : list string) (i : Z) :=
    match ns with
    | [] => None
    | n :: ns' => if str_eqb (L n) name then Some i else go ns' (i + 1)%Z
    end in
  go day_names 0%Z.

Module NATURAL_DATE_PATTERNS.
Definition TODAY := seqs [RWordB; liti "today"; RWordB].
Definition TOMORROW := seqs [RWordB; liti "tomorrow"; RWordB].
Definition YESTERDAY := seqs [RWordB; liti "yesterday"; RWordB].
Definition NEXT_DAY := seqs [RWordB; liti "next"; plus Rws; RGroup 1 Rdayname; RWordB].
Definition THIS_DAY := seqs [RWordB; liti "this"; plus Rws; RGroup 1 Rdayname; RWordB].
Definition LAST_DAY := seqs [RWordB; liti "last"; plus Rws; RGroup 1 Rdayname; RWordB].
Definition IN_X_DAYS :=
  seqs [RWordB; liti "in"; plus Rws; RGroup 1 (plus Rdigit); plus Rws; liti "day"; opt (chri "s"); RWordB].
Definition IN_X_WEEKS :=
  seqs [RWordB; liti "in"; plus Rws; RGroup 1 (plus Rdigit); plus Rws; liti "week"; opt (chri "s"); RWordB].
Definition IN_X_MONTHS :=
  seqs [RWordB; liti "in"; plus Rws; RGroup 1 (plus Rdigit); plus Rws; liti "month"; opt (chri "s"); RWordB].
Definition X_DAYS_AGO :=
  seqs [RWordB; RGroup 1 (plus Rdigit); plus Rws; liti "day"; opt (chri "s"); plus Rws; liti "ago"; RWordB].
Definition NEXT_WEEK := seqs [RWordB; liti "next"; plus Rws; liti "week"; RWordB].
Definition NEXT_MONTH := seqs [RWordB; liti "next"; plus Rws; liti "month"; RWordB].
Definition END_OF_WEEK := seqs [RWordB; liti "end"; plus Rws; liti "of"; plus Rws; liti "week"; RWordB].
Definition END_OF_MONTH := seqs [RWordB; liti "end"; plus Rws; liti "of"; plus Rws; liti "month"; RWordB].
End NATURAL_DATE_PATTERNS.

(** [getNextDayOfWeek] *)
Definition getNextDayOfWeek (from : date) (targetDay : Z) (skipThisWeek : bool) : date :=
  let currentDay := getDay from in
  let daysToAdd := (targetDay - currentDay)%Z in
  let daysToAdd :=
    if (daysToAdd <=? 0)%Z || (skipThisWeek && (daysToAdd <? 7)%Z)
    then (daysToAdd + 7)%Z else daysToAdd in
  setDate from (getDate from + daysToAdd)%Z.

(** [getLastDayOfWeek] *)
Definition getLastDayOfWeek (from : date) (targetDay : Z) : date :=
  let currentDay := getDay from in
  let daysToSubtract := (currentDay - targetDay)%Z in
  let daysToSubtract := if (daysToSubtract <=? 0)%Z then (daysToSubtract + 7)%Z else daysToSubtract in
  setDate from (getDate from - daysToSubtract)%Z.

Definition nd_result : Type := option str * option str.

(** The number captured by group 1 ([parseInt(m[1], 10)]; a run of digits). *)
Definition int_group (s : str) (m : mres) : Z :=
  match parse_int (grp s m 1) with Some z => z | None => 0%Z end.

(** [parseNaturalDate(text, referenceDate)]: the first phrase class, in the
    fixed order of the source, that matches decides. *)
Definition parseNaturalDate (text : str) (referenceDate : date) : nd_result :=
  let today := referenceDate in
  let hit (d : date) (m : mres) : nd_result := (Some (formatISODate d), Some (group0 text m)) in
  let weekday_case (r : re) (f : Z -> date) (next : unit -> nd_result) : nd_result :=
    match re_match text r with
    | Some m =>
        match day_index (to_lower_str (grp text m 1)) with
        | Some target => hit (f target) m
        | None => next tt
        end
    | None => next tt
    end in
  match re_match text NATURAL_DATE_PATTERNS.TODAY with
  | Some m => hit today m
  | None =>
  match re_match text NATURAL_DATE_PATTERNS.TOMORROW with
  | Some m => hit (setDate today (getDate today + 1)%Z) m
  | None =>
  match re_match text NATURAL_DATE_PATTERNS.YESTERDAY with
  | Some m => hit (setDate today (getDate today - 1)%Z) m
  | None =>
  weekday_case NATURAL_DATE_PATTERNS.NEXT_DAY (fun t => getNextDayOfWeek today t true) (fun _ =>
  weekday_case NATURAL_DATE_PATTERNS.THIS_DAY (fun t => getNextDayOfWeek today t false) (fun _ =>
  weekday_case NATURAL_DATE_PATTERNS.LAST_DAY (fun t => getLastDayOfWeek today t) (fun _ =>
  match re_match text NATURAL_DATE_PATTERNS.IN_X_DAYS with
  | Some m => hit (setDate today (getDate today + int_group text m)%Z) m
  | None =>
  match re_match text NATURAL_DATE_PATTERNS.IN_X_WEEKS with
  | Some m => hit (setDate today (getDate today + int_group text m * 7)%Z) m
  | None =>
  match re_match text NATURAL_DATE_PATTERNS.IN_X_MONTHS with
  | Some m => hit (setMonth today (getMonth today + int_group text m)%Z) m
  | None =>
  match re_match text NATURAL_DATE_PATTERNS.X_DAYS_AGO with
  | Some m => hit (setDate today (getDate today - int_group text m)%Z) m
  | None =>
  match re_match text NATURAL_DATE_PATTERNS.NEXT_WEEK with
  | Some m => hit (getNextDayOfWeek today 1 true) m
  | None =>
  match re_match text NATURAL_DATE_PATTERNS.NEXT_MONTH with
  | Some m => hit (setDate (setMonth today (getMonth today + 1)%Z) 1) m
  | None =>
  match re_match text NATURAL_DATE_PATTERNS.END_OF_WEEK with
  | Some m =>
      let d := getNextDayOfWeek today 0 false in
      let d := if Z.eqb d today && negb (Z.eqb (getDay today) 0) then setDate d (getDate d + 7)%Z else d in
      hit d m
  | None =>
  match re_match text NATURAL_DATE_PATTERNS.END_OF_MONTH with
  | Some m => hit (new_date (getFullYear today) (getMonth today + 1)%Z 0) m
  | None => (None, None)
  end end end end end end end end)))
  end end end.

(** ** Recurrence rules *)

Inductive RecurrenceFrequency := daily | weekly | monthly | yearly.

Inductive DayOfWeek := sunday | monday | tuesday | wednesday | thursday | friday | saturday.

(** [DAY_NAMES[d]] for a [DayOfWeek] *)
Definition day_num (d : DayOfWeek) : Z :=
  match d with
  | sunday => 0 | monday => 1 | tuesday => 2 | wednesday => 3
  | thursday => 4 | friday => 5 | saturday => 6
  end.

Definition day_name (d : DayOfWeek) : str :=
  L match d with
    | sunday => "sunday" | monday => "monday" | tuesday => "tuesday"
    | wednesday => "wednesday" | thursday => "thursday" | friday => "friday"
    | saturday => "saturday"
    end.

(** [name as DayOfWeek] for a name produced by the day-name pattern. *)
Definition day_of_name (n : str) : DayOfWeek :=
  match day_index n with
  | Some 1%Z => monday | Some 2%Z => tuesday | Some 3%Z => wednesday
  | Some 4%Z => thursday | Some 5%Z => friday | Some 6%Z => saturday
  | _ => sunday
  end.

Record RecurrencePattern := {
  frequency : RecurrenceFrequency;
  interval : option Z;
  daysOfWeek : option (list DayOfWeek);
  dayOfMonth : option Z;
  endDate : option str;
  count : option Z;
  rawPattern : option str  (* [_rawPattern] *)
}.

Definition mk_rule (f : RecurrenceFrequency) (iv : option Z) (ds : option (list DayOfWeek))
  (raw : str) : RecurrencePattern :=
  {| frequency := f; interval := iv; daysOfWeek := ds; dayOfMonth := None;
     endDate := None; count := None; rawPattern := Some raw |}.

Module RECURRENCE_PATTERNS.
Definition DAILY := seqs [RWordB; alts [seqs [liti "every"; plus Rws; liti "day"]; liti "daily"]; RWordB].
Definition WEEKLY := seqs [RWordB; alts [seqs [liti "every"; plus Rws; liti "week"]; liti "weekly"]; RWordB].
Definition MONTHLY := seqs [RWordB; alts [seqs [liti "every"; plus Rws; liti "month"]; liti "monthly"]; RWordB].
Definition YEARLY :=
  seqs [RWordB; alts [seqs [liti "every"; plus Rws; liti "year"]; liti "yearly"; liti "annually"]; RWordB].
Definition EVERY_X_DAYS :=
  seqs [RWordB; liti "every"; plus Rws; RGroup 1 (plus Rdigit); plus Rws; liti "day"; opt (chri "s"); RWordB].
Definition EVERY_X_WEEKS :=
  seqs [RWordB; liti "every"; plus Rws; RGroup 1 (plus Rdigit); plus Rws; liti "week"; opt (chri "s"); RWordB].
Definition EVERY_X_MONTHS :=
  seqs [RWordB; liti "every"; plus Rws; RGroup 1 (plus Rdigit); plus Rws; liti "month"; opt (chri "s"); RWordB].
Definition EVERY_DAY_OF_WEEK :=
  seqs [RWordB; liti "every"; plus Rws; RGroup 1 Rdayname;
        star (seqs [star Rws; chr ","; star Rws; RGroup 2 Rdayname]); RWordB].
Definition WEEKDAYS := seqs [RWordB; alts [seqs [liti "every"; plus Rws; liti "weekday"]; liti "weekdays"]; RWordB].
Definition WEEKENDS := seqs [RWordB; alts [seqs [liti "every"; plus Rws; liti "weekend"]; liti "weekends"]; RWordB].
End RECURRENCE_PATTERNS.

(** Source pattern "/\b(sunday|monday|...|saturday)\b/g" (no [i] flag) *)
Definition day_name_global : re :=
  seqs [RWordB; RGroup 1 (alts (map lit day_names)); RWordB].

Definition rec_result : Type := option RecurrencePattern * option str.

(** [parseRecurrence(text)] *)
Definition parseRecurrence (text : str) : rec_result :=
  let simple (r : re) (f : RecurrenceFrequency) (next : unit -> rec_result) : rec_result :=
    match re_match text r with
    | Some m => (Some (mk_rule f None None (group0 text m)), Some (group0 text m))
    | None => next tt
    end in
  let every_x (r : re) (f : RecurrenceFrequency) (next : unit -> rec_result) : rec_result :=
    match re_match text r with
    | Some m => (Some (mk_rule f (parse_int (grp text m 1)) None (group0 text m)), Some (group0 text m))
    | None => next tt
    end in
  simple RECURRENCE_PATTERNS.DAILY daily (fun _ =>
  simple RECURRENCE_PATTERNS.WEEKLY weekly (fun _ =>
  simple RECURRENCE_PATTERNS.MONTHLY monthly (fun _ =>
  simple RECURRENCE_PATTERNS.YEARLY yearly (fun _ =>
  every_x RECURRENCE_PATTERNS.EVERY_X_DAYS daily (fun _ =>
  every_x RECURRENCE_PATTERNS.EVERY_X_WEEKS weekly (fun _ =>
  every_x RECURRENCE_PATTERNS.EVERY_X_MONTHS monthly (fun _ =>
  match re_match text RECURRENCE_PATTERNS.EVERY_DAY_OF_WEEK with
  | Some m =>
      let low := to_lower_str (group0 text m) in
      let names := map (group0 low) (match_all low day_name_global) in
      (Some (mk_rule weekly None (Some (map day_of_name names)) (group0 text m)), Some (group0 text m))
  | None =>
  match re_match text RECURRENCE_PATTERNS.WEEKDAYS with
  | Some m =>
      (Some (mk_rule weekly None (Some [monday; tuesday; wednesday; thursday; friday]) (group0 text m)),
       Some (group0 text m))
  | None =>
  match re_match text RECURRENCE_PATTERNS.WEEKENDS with
  | Some m => (Some (mk_rule weekly None (Some [saturday; sunday]) (group0 text m)), Some (group0 text m))
  | None => (None, None)
  end end end))))))).

Definition day_eqb (a b : DayOfWeek) : bool := Z.eqb (day_num a) (day_num b).

(** [pattern.interval || 1] *)
Definition interval_or_1 (p : RecurrencePattern) : Z :=
  match interval p with
  | Some z => if Z.eqb z 0 then 1%Z else z
  | None => 1%Z
  end.

(** [serializeRecurrence(pattern)] *)
Definition serializeRecurrence (p : RecurrencePattern) : str :=
  match rawPattern p with
  | Some ((_ :: _) as raw) => raw
  | _ =>
    let from_interval (_ : unit) :=
      let iv := interval_or_1 p in
      let unit_word (one many : string) :=
        if Z.eqb iv 1 then L one else L "every " ++ Z_to_str iv ++ L many in
      match frequency p with
      | daily => unit_word "daily"%string " days"%string
      | weekly => unit_word "weekly"%string " weeks"%string
      | monthly => unit_word "monthly"%string " months"%string
      | yearly => unit_word "yearly"%string " years"%string
      end in
    match daysOfWeek p with
    | Some ((_ :: _) as ds) =>
        let has d := existsb (day_eqb d) ds in
        if (length ds =? 5) && forallb has [monday; tuesday; wednesday; thursday; friday]
        then L "weekdays"
        else if (length ds =? 2) && has saturday && has sunday then L "weekends"
        else L "every " ++ join (L ", ") (map day_name ds)
    | _ => from_interval tt
    end
  end.

Module ZOrder <: Orders.TotalLeBool.
Definition t := Z.
Definition leb := Z.leb.
Definition leb_total : forall a b : Z, is_true (leb a b) \/ is_true (leb b a).
Proof. intros a b; unfold is_true, leb; rewrite !Z.leb_le; lia. Defined.
End ZOrder.

Module ZSort := Sort ZOrder.

(** [getDaysInMonth(date)] *)
Definition getDaysInMonth (t : date) : Z :=
  getDate (new_date (getFullYear t) (getMonth t + 1)%Z 0).

(** [getNextOccurrence(pattern, fromDate)]; [daysOfWeek.map(d => DAY_NAMES[d])
    .sort((a, b) => a - b)] is a numeric sort. *)
Definition getNextOccurrence (p : RecurrencePattern) (fromDate : date) : date :=
  let next := fromDate in
  let iv := interval_or_1 p in
  match frequency p with
  | daily => setDate next (getDate next + iv)%Z
  | weekly =>
      match daysOfWeek p with
      | Some ((_ :: _) as ds) =>
          let currentDay := getDay next in
          let targetDays := ZSort.sort (map day_num ds) in
          match find (fun d => (currentDay <? d)%Z) targetDays with
          | None =>
              let nextDay := hd 0%Z targetDays in
              setDate next (getDate next + (7 - currentDay + nextDay))%Z
          | Some nextDay => setDate next (getDate next + (nextDay - currentDay))%Z
          end
      | _ => setDate next (getDate next + 7 * iv)%Z
      end
  | monthly =>
      let n1 := setMonth next (getMonth next + iv)%Z in
      match dayOfMonth p with
      | Some dom => if Z.eqb dom 0 then n1 else setDate n1 (Z.min dom (getDaysInMonth n1))
      | None => n1
      end
  | yearly => setFullYear next (getFullYear next + iv)%Z
  end.

(** ** Cards *)

(** A metadata value: [string | number]. *)
Inductive mval := MStr (s : str) | MNum (z : Z).

(** [BaseTaskMetadata], an object used as a map, in property creation order. *)
Definition metadata_t : Type := list (str * mval).

Definition md_get (md : metadata_t) (k : str) : option mval :=
  match find (fun e => str_eqb (fst e) k) md with Some (_, v) => Some v | None => None end.

(** [md[k] = v]: an existing property keeps its place. *)
Fixpoint md_set (md : metadata_t) (k : str) (v : mval) : metadata_t :=
  match md with
  | [] => [(k, v)]
  | (k', v') :: md' => if str_eqb k' k then (k', v) :: md' else (k', v') :: md_set md' k v
  end.

(** [delete md[k]] *)
Definition md_delete (md : metadata_t) (k : str) : metadata_t :=
  filter (fun e => negb (str_eqb (fst e) k)) md.

(** JavaScript truthiness of a metadata value. *)
Definition truthy (v : option mval) : bool :=
  match v with
  | Some (MStr (_ :: _)) => true
  | Some (MNum z) => negb (Z.eqb z 0)
  | _ => false
  end.

(** Keys that are array indices ("0", "1", ..., below 2^32 - 1) are listed
    first, in increasing order, by [Object.entries]. *)
Definition is_array_index (k : str) : bool :=
  match k with
  | [] => false
  | a :: k' =>
      forallb is_digit k && (negb (Ascii.eqb a "0"%char) || (length k' =? 0))
      && (digits_value 0 k <? 4294967295)%Z
  end.

Fixpoint insert_by_index (e : str * mval) (es : list (str * mval)) : list (str * mval) :=
  match es with
  | [] => [e]
  | e' :: es' =>
      if (digits_value 0 (fst e) <? digits_value 0 (fst e'))%Z then e :: es
      else e' :: insert_by_index e es'
  end.

(** [Object.entries(md)] *)
Definition md_entries (md : metadata_t) : list (str * mval) :=
  fold_right insert_by_index [] (filter (fun e => is_array_index (fst e)) md)
  ++ filter (fun e => negb (is_array_index (fst e))) md.

(** [String(value)] in a template literal. *)
Definition mval_str (v : mval) : str :=
  match v with MStr s => s | MNum z => Z_to_str z end.

Record Subtask := { st_id : str; st_text : str; st_completed : bool }.

Record KanbanCard := {
  card_id : str;
  title : str;
  completed : bool;
  tags : list str;
  dueDate : option str;
  dueTime : option str;
  recurrence : option RecurrencePattern;
  reminderTime : option str;
  notes : option str;
  notePath : option str;
  content : option str;
  subtasks : option (list Subtask);
  metadata : metadata_t;
  baseTaskPath : option str;
  baseSyncTime : option Z;
  rawLine : option str  (* [_rawLine] *)
}.

(** The card with its title replaced (an edit of the title field). *)
Definition with_title (c : KanbanCard) (t : str) : KanbanCard :=
  {| card_id := card_id c; title := t; completed := completed c; tags := tags c;
     dueDate := dueDate c; dueTime := dueTime c; recurrence := recurrence c;
     reminderTime := reminderTime c; notes := notes c; notePath := notePath c;
     content := content c; subtasks := subtasks c; metadata := metadata c;
     baseTaskPath := baseTaskPath c; baseSyncTime := baseSyncTime c; rawLine := rawLine c |}.

(** [[\w-]] *)
Definition Rid : re := RChr (fun a => is_word a || Ascii.eqb a "-"%char).

(** Source pattern "/\s*\^([\w-]+)\s*$/" *)
Definition ID_MARKER : re := seqs [star Rws; chr "^"; RGroup 1 (plus Rid); star Rws; REol].

(** [extractId(line)]: the content without the marker, and the identifier. *)
Definition extractId (line : str) : str * option str :=
  match re_match line ID_MARKER with
  | Some m => (re_replace line ID_MARKER (fun _ => []), group line m 1)
  | None => (line, None)
  end.

(** Source pattern "/\[(\w+)::([^\]]+)\]/g" *)
Definition METADATA_TAG : re :=
  seqs [chr "["; RGroup 1 (plus Rword); lit "::"; RGroup 2 (plus (Rnot "]")); chr "]"].
(** Source pattern "/progress::(\d+)%?/i" *)
Definition PROGRESS_BARE : re := seqs [liti "progress::"; RGroup 1 (plus Rdigit); opt (chr "%")].
(** Source pattern "/project::([^\s\]]+)/i" *)
Definition PROJECT_BARE : re :=
  seqs [liti "project::"; RGroup 1 (plus (RChr (fun a => negb (is_ws a || Ascii.eqb a "]"%char))))].

(** [parseInlineMetadata(text)]: the clean text and the metadata. *)
Definition parseInlineMetadata (text : str) : str * metadata_t :=
  let step (acc : str * metadata_t) (m : mres) : str * metadata_t :=
    let '(cleanText, md) := acc in
    let key := to_lower_str (grp text m 1) in
    let rawValue := trim (grp text m 2) in
    let md' :=
      if str_eqb key (L "progress") then
        match parse_int (replace_first rawValue (L "%") []) with
        | Some n => md_set md key (MNum n)
        | None => md_set md key (MNum 0)
        end
      else md_set md key (MStr rawValue) in
    (trim (replace_first cleanText (group0 text m) []), md') in
  let '(cleanText, md) := fold_left step (match_all text METADATA_TAG) (text, []) in
  let '(cleanText, md) :=
    match re_match cleanText PROGRESS_BARE with
    | Some m =>
        match md_get md (L "progress") with
        | None =>
            (trim (replace_first cleanText (group0 cleanText m) []),
             md_set md (L "progress") (MNum (int_group cleanText m)))
        | Some _ => (cleanText, md)
        end
    | None => (cleanText, md)
    end in
  match re_match cleanText PROJECT_BARE with
  | Some m =>
      if negb (truthy (md_get md (L "project"))) then
        (trim (replace_first cleanText (group0 cleanText m) []),
         md_set md (L "project") (MStr (grp cleanText m 1)))
      else (cleanText, md)
  | None => (cleanText, md)
  end.

(** Source pattern "/#[\w-/]+/g" *)
Definition TAG : re :=
  seqs [chr "#"; plus (RChr (fun a => is_word a || Ascii.eqb a "-"%char || Ascii.eqb a "/"%char))].

(** [parseTags(text)]: the tags without their [#]; the text is kept. *)
Definition parseTags (text : str) : str * list str :=
  (text, map (fun m => tl (group0 text m)) (match_all text TAG)).

(** Source pattern "/@(\d{4}-\d{2}-\d{2})(?:T(\d{2}:\d{2}))?/" *)
Definition DATE_TIME : re :=
  seqs [chr "@"; RGroup 1 (seqs [Rdigit; Rdigit; Rdigit; Rdigit; chr "-"; Rdigit; Rdigit; chr "-"; Rdigit; Rdigit]);
        opt (seqs [chr "T"; RGroup 2 (seqs [Rdigit; Rdigit; chr ":"; Rdigit; Rdigit])])].
(** Source pattern "/@@(\d{2}:\d{2})/" *)
Definition TIME_ONLY : re := seqs [lit "@@"; RGroup 1 (seqs [Rdigit; Rdigit; chr ":"; Rdigit; Rdigit])].
(** Source pattern "/@(today|tomorrow|yesterday|next\s+\w+|this\s+\w+|last\s+\w+|in\s+\d+\s+\w+|\d+\s+\w+\s+ago|end\s+of\s+\w+)/i" *)
Definition NATURAL_PREFIX : re :=
  seqs [chr "@"; RGroup 1 (alts [
    liti "today"; liti "tomorrow"; liti "yesterday";
    seqs [liti "next"; plus Rws; plus Rword];
    seqs [liti "this"; plus Rws; plus Rword];
    seqs [liti "last"; plus Rws; plus Rword];
    seqs [liti "in"; plus Rws; plus Rdigit; plus Rws; plus Rword];
    seqs [plus Rdigit; plus Rws; plus Rword; plus Rws; liti "ago"];
    seqs [liti "end"; plus Rws; liti "of"; plus Rws; plus Rword]])].
(** Source pattern "/\[recur::([^\]]+)\]/" *)
Definition RECUR_TAG : re := seqs [lit "[recur::"; RGroup 1 (plus (Rnot "]")); chr "]"].
(** Source pattern "/\[remind::([^\]]+)\]/" *)
Definition REMIND_TAG : re := seqs [lit "[remind::"; RGroup 1 (plus (Rnot "]")); chr "]"].

Record date_fields := {
  df_cleanText : str;
  df_dueDate : option str;
  df_dueTime : option str;
  df_recurrence : option RecurrencePattern;
  df_reminderTime : option str
}.

Definition with_raw (p : RecurrencePattern) (raw : str) : RecurrencePattern :=
  {| frequency := frequency p; interval := interval p; daysOfWeek := daysOfWeek p;
     dayOfMonth := dayOfMonth p; endDate := endDate p; count := count p; rawPattern := Some raw |}.

Definition is_some {A} (o : option A) : bool := match o with Some _ => true | None => false end.

Section WithClock.
(** [new Date()], the default reference date of [parseNaturalDate]. *)
Variable now : date.

(** [parseDate(text, parseNatural)] *)
Definition parseDate (text : str) (parseNatural : bool) : date_fields :=
  (* ISO date, optionally with a time *)
  let '(cleanText, dueDate, dueTime) :=
    match re_match text DATE_TIME with
    | Some m => (trim (replace_first text (group0 text m) []), group text m 1, group text m 2)
    | None => (text, None, None)
    end in
  (* time only *)
  let '(cleanText, dueTime) :=
    match re_match text TIME_ONLY with
    | Some m =>
        if negb (is_some dueTime) then (trim (replace_first cleanText (group0 text m) []), group text m 1)
        else (cleanText, dueTime)
    | None => (cleanText, dueTime)
    end in
  (* natural language *)
  let '(cleanText, dueDate) :=
    if parseNatural && negb (is_some dueDate) then
      match re_match text NATURAL_PREFIX with
      | Some m =>
          let phrase := grp text m 1 in
          match parseNaturalDate phrase now with
          | (Some d, Some _) => (trim (replace_first cleanText (L "@" ++ phrase) []), Some d)
          | _ => (cleanText, dueDate)
          end
      | None =>
          match parseNaturalDate text now with
          | (Some d, Some matched) => (trim (replace_first cleanText matched []), Some d)
          | _ => (cleanText, dueDate)
          end
      end
    else (cleanText, dueDate) in
  (* bare recurrence phrase *)
  let '(cleanText, recurrence) :=
    match parseRecurrence cleanText with
    | (Some p, Some recurMatched) => (trim (replace_first cleanText recurMatched []), Some p)
    | _ => (cleanText, None)
    end in
  (* [recur::pattern] *)
  let '(cleanText, recurrence) :=
    match re_match cleanText RECUR_TAG with
    | Some m =>
        if negb (is_some recurrence) then
          let raw := grp cleanText m 1 in
          let r := match fst (parseRecurrence raw) with
                   | Some metaPattern => with_raw metaPattern raw
                   | None => mk_rule daily None None raw
                   end in
          (trim (replace_first cleanText (group0 cleanText m) []), Some r)
        else (cleanText, recurrence)
    | None => (cleanText, recurrence)
    end in
  (* [remind::time] *)
  let '(cleanText, reminderTime) :=
    match re_match cleanText REMIND_TAG with
    | Some m => (trim (replace_first cleanText (group0 cleanText m) []), group cleanText m 1)
    | None => (cleanText, None)
    end in
  {| df_cleanText := cleanText; df_dueDate := dueDate; df_dueTime := dueTime;
     df_recurrence := recurrence; df_reminderTime := reminderTime |}.

End WithClock.

(** Source pattern "/^(\s{0,})-\s*\[([ xX])\]\s*(.{0,})$/" *)
Definition CHECKBOX : re :=
  seqs [RBol; RGroup 1 (star Rws); chr "-"; star Rws; chr "["; RGroup 2 (Rin " xX"); chr "]";
        star Rws; RGroup 3 (star Rdot); REol].
(** Source pattern "/^(\s{0,})/" *)
Definition INDENT : re := seqs [RBol; RGroup 1 (star Rws)].
(** Source pattern "/^\s*>/" *)
Definition NOTE_START : re := seqs [RBol; star Rws; chr ">"].
(** Source pattern "/^\s+-\s*\[/" *)
Definition INDENTED_BRACKET : re := seqs [RBol; plus Rws; chr "-"; star Rws; chr "["].
(** Source pattern "/^\s*>\s?(.{0,})$/" *)
Definition NOTE_LINE : re := seqs [RBol; star Rws; chr ">"; opt Rws; RGroup 1 (star Rdot); REol].
(** Source pattern "/^(\s+)-\s*\[([ xX])\]\s*(.{0,})$/" *)
Definition SUBTASK_LINE : re :=
  seqs [RBol; RGroup 1 (plus Rws); chr "-"; star Rws; chr "["; RGroup 2 (Rin " xX"); chr "]";
        star Rws; RGroup 3 (star Rdot); REol].

(** "line.match(/^(\s{0,})/)[1].length" *)
Definition indent_of (line : str) : nat :=
  match re_match line INDENT with Some m => length (grp line m 1) | None => 0 end.

(** [line.trim() === ''] *)
Definition is_blank (line : str) : bool :=
  match trim line with [] => true | _ => false end.

(** The test the lookahead applies to the next non-empty line. *)
Definition qualifies (cardIndent : nat) (nextLine : str) : bool :=
  (cardIndent <? indent_of nextLine) || re_test NOTE_START nextLine
  || re_test INDENTED_BRACKET nextLine.

(** The lookahead after an empty line: the first non-empty line qualifies. *)
Fixpoint lookahead (cardIndent : nat) (rest : list str) : bool :=
  match rest with
  | [] => false
  | nextLine :: rest' => if is_blank nextLine then lookahead cardIndent rest' else qualifies cardIndent nextLine
  end.

Record scan_st := {
  sc_notes : list str;
  sc_contentLines : list str;
  sc_subtasks : list Subtask;
  sc_endIndex : nat;
  sc_gid : nat   (* next index of the id supply *)
}.

Section Parser.
Variable now : date.
(** [generateId()]: the [n]-th identifier drawn. *)
Variable gen : nat -> str.

(** The content-block loop of [parseCard]: [i] is the index of the first
    line of [rest] in the document's line array. *)
Fixpoint scan_content (cardIndent : nat) (i : nat) (rest : list str) (st : scan_st) : scan_st :=
  match rest with
  | [] => st
  | contentLine :: rest' =>
      if is_blank contentLine then
        if lookahead cardIndent rest' then
          scan_content cardIndent (S i) rest'
            {| sc_notes := sc_notes st; sc_contentLines := sc_contentLines st ++ [[]];
               sc_subtasks := sc_subtasks st; sc_endIndex := i; sc_gid := sc_gid st |}
        else st
      else
      match re_match contentLine NOTE_LINE with
      | Some m =>
          scan_content cardIndent (S i) rest'
            {| sc_notes := sc_notes st ++ [grp contentLine m 1];
               sc_contentLines := sc_contentLines st ++ [contentLine];
               sc_subtasks := sc_subtasks st; sc_endIndex := i; sc_gid := sc_gid st |}
      | None =>
      match re_match contentLine SUBTASK_LINE with
      | Some m =>
          if cardIndent <? length (grp contentLine m 1) then
            let sub := {| st_id := gen (sc_gid st);
                          st_text := trim (grp contentLine m 3);
                          st_completed := str_eqb (to_lower_str (grp contentLine m 2)) (L "x") |} in
            scan_content cardIndent (S i) rest'
              {| sc_notes := sc_notes st; sc_contentLines := sc_contentLines st ++ [contentLine];
                 sc_subtasks := sc_subtasks st ++ [sub]; sc_endIndex := i; sc_gid := S (sc_gid st) |}
          else if cardIndent <? indent_of contentLine then
            scan_content cardIndent (S i) rest'
              {| sc_notes := sc_notes st; sc_contentLines := sc_contentLines st ++ [contentLine];
                 sc_subtasks := sc_subtasks st; sc_endIndex := i; sc_gid := sc_gid st |}
          else st
      | None =>
          if cardIndent <? indent_of contentLine then
            scan_content cardIndent (S i) rest'
              {| sc_notes := sc_notes st; sc_contentLines := sc_contentLines st ++ [contentLine];
                 sc_subtasks := sc_subtasks st; sc_endIndex := i; sc_gid := sc_gid st |}
          else st
      end end
  end.

Definition nonempty_opt {A} (xs : list A) : option (list A) :=
  match xs with [] => None | _ => Some xs end.

(** [parseCard(lines, startIndex, parseNaturalDates)], threading the id
    supply from [g]: the card (or [None]), [endIndex], and the next [g].
    ([parseLane] only calls it at an index of the array.) *)
Definition parseCard (lines : list str) (startIndex : nat) (parseNaturalDates : bool) (g : nat)
  : option KanbanCard * nat * nat :=
  match nth_error lines startIndex with
  | None => (None, startIndex, g)
  | Some line =>
  match re_match line CHECKBOX with
  | None => (None, startIndex, g)
  | Some cb =>
      let cardIndent := length (grp line cb 1) in
      let completed := str_eqb (to_lower_str (grp line cb 2)) (L "x") in
      let titleContent := trim (grp line cb 3) in
      let '(titleWithoutId, existingId) := extractId titleContent in
      let titleContent := titleWithoutId in
      let '(afterMetadata, md) := parseInlineMetadata titleContent in
      let '(notePath, md) :=
        if truthy (md_get md (L "note")) then
          (match md_get md (L "note") with Some v => Some (mval_str v) | None => None end,
           md_delete md (L "note"))
        else (None, md) in
      let '(_, tags) := parseTags afterMetadata in
      let df := parseDate now afterMetadata parseNaturalDates in
      let st := scan_content cardIndent (S startIndex) (skipn (S startIndex) lines)
                  {| sc_notes := []; sc_contentLines := []; sc_subtasks := [];
                     sc_endIndex := startIndex; sc_gid := g |} in
      let '(cid, g') :=
        match existingId with
        | Some ((_ :: _) as i) => (i, sc_gid st)
        | _ => (gen (sc_gid st), S (sc_gid st))
        end in
      let card :=
        {| card_id := cid;
           title := afterMetadata;
           completed := completed;
           tags := tags;
           dueDate := df_dueDate df;
           dueTime := df_dueTime df;
           recurrence := df_recurrence df;
           reminderTime := df_reminderTime df;
           notes := match sc_notes st with [] => None | ns => Some (join [nl] ns) end;
           notePath := notePath;
           content := match sc_contentLines st with [] => None | cl => Some (join [nl] cl) end;
           subtasks := nonempty_opt (sc_subtasks st);
           metadata := md;
           baseTaskPath := None;
           baseSyncTime := None;
           rawLine := Some line |} in
      (Some card, sc_endIndex st, g')
  end end.

End Parser.

(** ** Lanes, boards and settings *)

#[local] Set Warnings "-register-all".
(** A JSON value, for the settings record. *)
Inductive json :=
| JNull | JBool (b : bool) | JNum (z : Z) | JStr (s : str)
| JArr (xs : list json) | JObj (kv : list (str * json)).

(** [BoardSettings]: the decoded object, as its list of properties. *)
Definition BoardSettings : Type := list (str * json).

Record KanbanLane := {
  lane_id : str;
  lane_title : str;
  cards : list KanbanCard;
  rawHeader : option str  (* [_rawHeader] *)
}.

Record KanbanBoard := {
  lanes : list KanbanLane;
  archive : list KanbanCard;
  settings : BoardSettings;
  frontmatter : str;          (* [_frontmatter] *)
  headerContent : str;        (* [_headerContent] *)
  footerContent : str;        (* [_footerContent] *)
  preSettingsContent : str    (* [_preSettingsContent] *)
}.

Definition FRONTMATTER_KEY : str := L "kanban-plugin".

(** Source pattern "/^(---\s*\n[\s\S]*?\n---\s*\n?)/" *)
Definition FRONTMATTER : re :=
  seqs [RBol; RGroup 1 (seqs [lit "---"; star Rws; chr nl; lazy_star Rany; chr nl; lit "---";
                              star Rws; opt (chr nl)])].

(** [extractFrontmatter(content)] *)
Definition extractFrontmatter (c : str) : str * str :=
  match re_match c FRONTMATTER with
  | Some m => let fm := grp c m 1 in (fm, skipn (length fm) c)
  | None => ([], c)
  end.

(** Source pattern "/^(---\s*\n)/" *)
Definition FRONTMATTER_OPEN : re := seqs [RBol; RGroup 1 (seqs [lit "---"; star Rws; chr nl])].

(** [ensureKanbanFrontmatter(frontmatter)] *)
Definition ensureKanbanFrontmatter (fm : str) : str :=
  match fm with
  | [] => L "---" ++ [nl] ++ FRONTMATTER_KEY ++ L ": basic" ++ [nl] ++ L "---" ++ [nl; nl]
  | _ =>
      if negb (includes fm FRONTMATTER_KEY) then
        re_replace fm FRONTMATTER_OPEN (fun m => grp fm m 1 ++ FRONTMATTER_KEY ++ L ": basic" ++ [nl])
      else fm
  end.

(** Source pattern "/^##\s/" *)
Definition HEADER_START : re := seqs [RBol; lit "##"; Rws].
(** Source pattern "/^\s*-\s*\[/" *)
Definition BRACKET_ITEM : re := seqs [RBol; star Rws; chr "-"; star Rws; chr "["].

Definition kanban_item (l : str) : bool := re_test BRACKET_ITEM l || re_test NOTE_START l.

(** The inner look-ahead of [findLaneContentEnd]. *)
Fixpoint more_kanban (rest : list str) : bool :=
  match rest with
  | [] => false
  | l :: rest' => if kanban_item l then true else if negb (is_blank l) then false else more_kanban rest'
  end.

(** [findLaneContentEnd(sectionContent)] *)
Definition findLaneContentEnd (section : str) : nat :=
  let lines := split_lines section in
  let fix go (i : nat) (ls : list str) (last : nat) : nat :=
    match ls with
    | [] => last
    | l :: ls' =>
        if re_test HEADER_START l || kanban_item l then go (S i) ls' i
        else if is_blank l then go (S i) ls' (if more_kanban ls' then i else last)
        else go (S i) ls' last
    end in
  let lastKanbanLineIndex := go 0 lines 0 in
  fold_left (fun acc l => acc + (length l + 1)) (firstn (S lastKanbanLineIndex) lines) 0.

(** Source pattern "/^##\s+(.+)$/" *)
Definition LANE_TITLE : re := seqs [RBol; lit "##"; plus Rws; RGroup 1 (plus Rdot); REol].
(** Source pattern "/^## .+$/gm" *)
Definition LANE_SECTION : re := seqs [RBolM; lit "## "; plus Rdot; REolM].
(** Source pattern "/%% kanban:settings[\s\S]*?%%/" *)
Definition SETTINGS_BLOCK : re := seqs [lit "%% kanban:settings"; lazy_star Rany; lit "%%"].
(** The pattern of [parseSettings], with three backquotes for the fence. *)
Definition SETTINGS_JSON : re :=
  seqs [lit "%% kanban:settings"; star Rws; lit "```"; opt (lit "json"); star Rws;
        RGroup 1 (lazy_star Rany); star Rws; lit "```"; star Rws; lit "%%"].
(** Source pattern "/^##\s+Archive\s*$/i" *)
Definition ARCHIVE_HEADER : re := seqs [RBol; lit "##"; plus Rws; liti "archive"; star Rws; REol].

(** [line.trim().startsWith('- [')] *)
Definition card_like (l : str) : bool := starts_with (trim l) (L "- [").

Section Board.
Variable now : date.
Variable gen : nat -> str.
(** [JSON.parse]: [None] when it throws. *)
Variable json_parse : str -> option BoardSettings.
(** [JSON.stringify(settings, null, 2)] *)
Variable json_stringify : BoardSettings -> str.

(** The card loop of [parseLane], from line [i]; [fuel] bounds the number of
    steps (each step moves [i] forward). *)
Fixpoint lane_cards (lines : list str) (fuel i : nat) (g : nat) : list KanbanCard * nat :=
  match fuel with
  | O => ([], g)
  | S f =>
      match nth_error lines i with
      | None => ([], g)
      | Some line =>
          if card_like line then
            match parseCard now gen lines i true g with
            | (Some c, endIndex, g') =>
                let '(cs, g'') := lane_cards lines f (S endIndex) g' in (c :: cs, g'')
            | (None, _, _) => lane_cards lines f (S i) g
            end
          else lane_cards lines f (S i) g
      end
  end.

(** [parseLane(content)], threading the id supply. *)
Definition parseLane (c : str) (g : nat) : option KanbanLane * nat :=
  let lines := split_lines c in
  let headerLine := hd [] lines in
  match re_match headerLine LANE_TITLE with
  | None => (None, g)
  | Some m =>
      let '(titleWithoutId, existingId) := extractId (trim (grp headerLine m 1)) in
      let '(lid, g1) :=
        match existingId with
        | Some ((_ :: _) as i) => (i, g)
        | _ => (gen g, S g)
        end in
      let '(cs, g2) := lane_cards lines (length lines) 1 g1 in
      (Some {| lane_id := lid; lane_title := titleWithoutId; cards := cs; rawHeader := Some headerLine |}, g2)
  end.

(** [parseSettings(content)] *)
Definition parseSettings (c : str) : BoardSettings :=
  match re_match c SETTINGS_JSON with
  | Some m => match json_parse (grp c m 1) with Some s => s | None => [] end
  | None => []
  end.

(** The lane loop of [parseKanbanBoard]: [laneMatches] are (index, header)
    pairs; returns lanes, archive, pre-settings content and the id supply. *)
Fixpoint lane_sections (body : str) (settingsStart : Z) (ms : list (nat * str))
  (archive : list KanbanCard) (pre : str) (g : nat)
  : list KanbanLane * list KanbanCard * str * nat :=
  match ms with
  | [] => ([], archive, pre, g)
  | (start, headerText) :: ms' =>
      let isLastLane := match ms' with [] => true | _ => false end in
      let end_ :=
        match ms' with
        | (nextStart, _) :: _ => nextStart
        | [] => if (Z.of_nat start <? settingsStart)%Z then Z.to_nat settingsStart else length body
        end in
      let sectionContent := slice body start end_ in
      let pre :=
        if isLastLane && (Z.of_nat start <? settingsStart)%Z then
          let contentEnd := findLaneContentEnd sectionContent in
          match trim (skipn contentEnd sectionContent) with
          | [] => pre
          | trailing => trailing
          end
        else pre in
      if re_test ARCHIVE_HEADER headerText then
        let '(ol, g1) := parseLane sectionContent g in
        let archive := match ol with Some l => cards l | None => archive end in
        lane_sections body settingsStart ms' archive pre g1
      else
        let '(ol, g1) := parseLane sectionContent g in
        let '(ls, ar, pr, g2) := lane_sections body settingsStart ms' archive pre g1 in
        match ol with
        | Some l => (l :: ls, ar, pr, g2)
        | None => (ls, ar, pr, g2)
        end
  end.

(** [parseKanbanBoard(markdown)] *)
Definition parseKanbanBoard (markdown : str) : KanbanBoard :=
  let '(fm, body) := extractFrontmatter markdown in
  let laneMatches := map (fun m => (m_start m, group0 body m)) (match_all body LANE_SECTION) in
  let settingsMatch := re_match body SETTINGS_BLOCK in
  let settingsStart : Z :=
    match settingsMatch with
    | Some m => match index_of body (group0 body m) with Some i => Z.of_nat i | None => (-1)%Z end
    | None => (-1)%Z
    end in
  let settingsEnd : Z :=
    match settingsMatch with
    | Some m => (settingsStart + Z.of_nat (length (group0 body m)))%Z
    | None => (-1)%Z
    end in
  let headerContent :=
    match laneMatches with
    | (i0, _) :: _ => trim (slice body 0 i0)
    | [] => if (0 <? settingsStart)%Z then trim (slice body 0 (Z.to_nat settingsStart)) else trim body
    end in
  let '(lanes, archive, preSettingsContent, _) := lane_sections body settingsStart laneMatches [] [] 0 in
  let footerContent :=
    if (0 <? settingsEnd)%Z then trim (skipn (Z.to_nat settingsEnd) body)
    else match rev laneMatches with
         | (lastLaneIndex, _) :: _ =>
             let lastLaneContent := skipn lastLaneIndex body in
             trim (skipn (findLaneContentEnd lastLaneContent) lastLaneContent)
         | [] => []
         end in
  {| lanes := lanes; archive := archive; settings := parseSettings body; frontmatter := fm;
     headerContent := headerContent; footerContent := footerContent;
     preSettingsContent := preSettingsContent |}.

(** Source pattern "/\b(daily|weekly|monthly|yearly|every\s)/i" *)
Definition RECUR_WORD : re :=
  seqs [RWordB; RGroup 1 (alts [liti "daily"; liti "weekly"; liti "monthly"; liti "yearly";
                               seqs [liti "every"; Rws]])].

Definition truthy_str (o : option str) : option str :=
  match o with Some ((_ :: _) as s) => Some s | _ => None end.

(** [serializeCard(card, includeId)] with the ISO date format. *)
Definition serializeCard (card : KanbanCard) (includeId : bool) : str :=
  let checkbox := if completed card then L "[x]" else L "[ ]" in
  let ct := title card in
  let md := metadata card in
  let tag (k v : str) : str := L "[" ++ k ++ L "::" ++ v ++ L "]" in
  let m_progress :=
    match md_get md (L "progress") with
    | Some v => if negb (includes ct (L "progress::")) then [tag (L "progress") (mval_str v ++ L "%")] else []
    | None => []
    end in
  let m_project :=
    if truthy (md_get md (L "project")) && negb (includes ct (L "project::"))
       && negb (includes ct (L "[project::")) then
      match md_get md (L "project") with Some v => [tag (L "project") (mval_str v)] | None => [] end
    else [] in
  let m_note :=
    match truthy_str (notePath card) with
    | Some p => if negb (includes ct (L "note::")) then [tag (L "note") p] else []
    | None => []
    end in
  let m_recur :=
    match recurrence card with
    | Some r =>
        if negb (includes ct (L "recur::")) && negb (re_test RECUR_WORD ct)
        then [tag (L "recur") (serializeRecurrence r)] else []
    | None => []
    end in
  let m_remind :=
    match truthy_str (reminderTime card) with
    | Some t => if negb (includes ct (L "remind::")) then [tag (L "remind") t] else []
    | None => []
    end in
  let m_other :=
    flat_map (fun e =>
      let '(k, v) := e in
      if negb (str_eqb k (L "progress")) && negb (str_eqb k (L "project"))
         && negb (includes ct (k ++ L "::"))
      then [tag k (mval_str v)] else [])
      (md_entries md) in
  let metadataToAdd := m_progress ++ m_project ++ m_note ++ m_recur ++ m_remind ++ m_other in
  let ct :=
    match metadataToAdd with
    | [] => ct
    | _ => ct ++ L " " ++ join (L " ") metadataToAdd
    end in
  let ct :=
    if negb (includes ct (L "@")) then
      match truthy_str (dueDate card), truthy_str (dueTime card) with
      | Some d, Some t => ct ++ L " @" ++ d ++ L "T" ++ t
      | Some d, None => ct ++ L " @" ++ d
      | None, Some t => ct ++ L " @@" ++ t
      | None, None => ct
      end
    else ct in
  let ct := if includeId then ct ++ L " ^" ++ card_id card else ct in
  let result := L "- " ++ checkbox ++ L " " ++ ct in
  match truthy_str (content card), truthy_str (notePath card) with
  | Some c, None => result ++ [nl] ++ c
  | _, _ =>
      let subtaskLines :=
        match subtasks card with
        | Some sts => map (fun s => [ascii_of_nat 9] ++ L "- " ++ (if st_completed s then L "[x]" else L "[ ]")
                                    ++ L " " ++ st_text s) sts
        | None => []
        end in
      let noteLines :=
        match truthy_str (notes card), truthy_str (notePath card) with
        | Some n, None => map (fun l => [ascii_of_nat 9] ++ L "> " ++ l) (split_lines n)
        | _, _ => []
        end in
      match subtaskLines ++ noteLines with
      | [] => result
      | parts => result ++ [nl] ++ join [nl] parts
      end
  end.

(** [serializeLane(lane)] *)
Definition serializeLane (lane : KanbanLane) : str :=
  join [nl] ([L "## " ++ lane_title lane ++ L " ^" ++ lane_id lane; []]
             ++ map (fun c => serializeCard c true) (cards lane) ++ [[]]).

(** [serializeSettings(settings)] *)
Definition serializeSettings (s : BoardSettings) : str :=
  match s with
  | [] => []
  | _ => [nl] ++ L "%% kanban:settings" ++ [nl] ++ L "```json" ++ [nl] ++ json_stringify s ++ [nl]
         ++ L "```" ++ [nl] ++ L "%%" ++ [nl]
  end.

(** [serializeArchive(archive)] *)
Definition serializeArchive (ar : list KanbanCard) : str :=
  match ar with
  | [] => []
  | _ => join [nl] ([L "## Archive"; []] ++ map (fun c => serializeCard c true) ar ++ [[]])
  end.

(** [serializeKanbanBoard(board)] *)
Definition serializeKanbanBoard (b : KanbanBoard) : str :=
  let parts :=
    [ensureKanbanFrontmatter (frontmatter b)]
    ++ (match headerContent b with [] => [] | h => [h; []] end)
    ++ map serializeLane (lanes b)
    ++ (match archive b with [] => [] | ar => [serializeArchive ar] end)
    ++ (match preSettingsContent b with [] => [] | p => [p; []] end)
    ++ (match serializeSettings (settings b) with [] => [] | sb => [sb] end)
    ++ (match footerContent b with [] => [] | f => [f] end) in
  join [nl] parts.

End Board.

(** * Auxiliary definitions for the proofs *)

(** A bounded check of a predicate on [z, z + n). *)
Fixpoint all_from (n : nat) (z : Z) (f : Z -> bool) : bool :=
  match n with
  | O => true
  | S k => f z && all_from k (z + 1)%Z f
  end.

(** In [civil_from_days], the year of the era and the day of the year that
    a day of a 400-year era yields stay in range. *)
Definition era_day_ok (doe : Z) : bool :=
  let yoe := ((doe - doe / 1460 + doe / 36524 - doe / 146096) / 365)%Z in
  let doy := (doe - (365 * yoe + yoe / 4 - yoe / 100))%Z in
  (0 <=? yoe)%Z && (yoe <=? 399)%Z && (0 <=? doy)%Z && (doy <=? 365)%Z.

(** A character class that only admits [':'] (checked on all 256 codes). *)
Definition colon_only (f : ascii -> bool) : bool :=
  forallb (fun n => negb (f (ascii_of_nat n)) || Ascii.eqb (ascii_of_nat n) ":"%char) (seq 0 256).

(** Patterns of which every match contains two adjacent colons. *)
Fixpoint needs_dcolon (r : re) : bool :=
  match r with
  | RSeq r1 r2 =>
      match r1, r2 with
      | RChr f1, RChr f2 => colon_only f1 && colon_only f2
      | _, _ => false
      end || needs_dcolon r1 || needs_dcolon r2
  | RAlt r1 r2 => needs_dcolon r1 && needs_dcolon r2
  | RGroup _ r1 => needs_dcolon r1
  | _ => false
  end.

(** The text of a card line after its checkbox, without the [^id] marker. *)
Definition card_text (line : str) : option str :=
  match re_match line CHECKBOX with
  | Some cb => Some (fst (extractId (trim (grp line cb 3))))
  | None => None
  end.

(** The identifier carried by the [^id] marker of a card line. *)
Definition line_id (line : str) : option str :=
  match re_match line CHECKBOX with
  | Some cb => snd (extractId (trim (grp line cb 3)))
  | None => None
  end.

(** The rest of a serialized card after its first line: nothing, or a line
    break and the content block. *)
Definition ends_line (post : str) : Prop := post = [] \/ exists r, post = nl :: r.

(** The payload of the settings block that [parseSettings] hands to
    [JSON.parse], if the block is there. *)
Definition settings_payload (markdown : str) : option str :=
  let body := snd (extractFrontmatter markdown) in
  match re_match body SETTINGS_JSON with Some m => Some (grp body m 1) | None => None end.

Definition tab : ascii := ascii_of_nat 9.

(** Sample inputs. *)
Definition wed_2025_01_15 : date := days_from_civil 2025 1 15.
Definition fri_2025_01_17 : date := days_from_civil 2025 1 17.
Definition mon_fri_rule : RecurrencePattern :=
  mk_rule weekly None (Some [monday; friday]) (L "every monday, friday").
Definition C1_doc : str :=
  join [nl] [L "---"; L "kanban-plugin: basic"; L "---"; []; L "## Todo ^l1"; []; L "- [ ] A ^a"; []].
Definition C1_out : str :=
  join [nl] [L "---"; L "kanban-plugin: basic"; L "---"; []; []; L "## Todo ^l1"; []; L "- [ ] A ^a"; []].
Definition C2_line : str := L "- [ ] Ship it ^card-1".
Definition C4_line : str := L "- [ ] Call mom [remind::1h] ^abc".
Definition C7_line : str := L "- [ ] Buy milk #errand [progress::40%] [project::Home]".
Definition C8_state : scan_st :=
  {| sc_notes := []; sc_contentLines := []; sc_subtasks := []; sc_endIndex := 0; sc_gid := 0 |}.
Definition C9_doc : str :=
  join [nl] [L "## Todo ^l1"; L "- [ ] A ^a"; []; L "%% kanban:settings"; L "```json";
             L "{ not json"; L "```"; L "%%"; []; L "## Done ^l2"; L "- [ ] B ^b"].
Definition C10_line : str := L "- [x] Pay rent @2025-02-01T10:30 every month ^r1".
Definition C10_text : str := L "Pay rent @2025-02-01T10:30 every month".
Definition C10_legacy_line : str := L "- [ ] Task progress::50% tomorrow".
Definition no_ids : nat -> str := fun _ => [].

(** ** Auxiliary definitions of the further development *)

Section MatchRel.
Variable inp : str.

(** The loop that [mt] runs for a star, as a function of its own. *)
Definition star_loop (g : bool) (r1 : re) (k : nat -> caps -> option mres) :=
  fix loop (fuel q : nat) (cq : caps) {struct fuel} : option mres :=
    match fuel with
    | O => k q cq
    | S f =>
        if g then
          match mt inp r1 q cq (fun q1 c1 => if q <? q1 then loop f q1 c1 else None) with
          | Some m => Some m
          | None => k q cq
          end
        else
          match k q cq with
          | Some m => Some m
          | None => mt inp r1 q cq (fun q1 c1 => if q <? q1 then loop f q1 c1 else None)
          end
    end.

(** [mrel r p cs q cs']: [r] can match the input from [p] to [q], taking the
    captures from [cs] to [cs'] (the paths the matcher explores). *)
Inductive mrel : re -> nat -> caps -> nat -> caps -> Prop :=
| MR_eps p cs : mrel REps p cs p cs
| MR_chr f p cs a : nth_error inp p = Some a -> f a = true -> mrel (RChr f) p cs (S p) cs
| MR_seq r1 r2 p cs p1 cs1 q cs2 :
    mrel r1 p cs p1 cs1 -> mrel r2 p1 cs1 q cs2 -> mrel (RSeq r1 r2) p cs q cs2
| MR_altl r1 r2 p cs q cs' : mrel r1 p cs q cs' -> mrel (RAlt r1 r2) p cs q cs'
| MR_altr r1 r2 p cs q cs' : mrel r2 p cs q cs' -> mrel (RAlt r1 r2) p cs q cs'
| MR_star0 g r1 p cs : mrel (RStar g r1) p cs p cs
| MR_starS g r1 p cs p1 cs1 q cs2 :
    mrel r1 p cs p1 cs1 -> p < p1 -> mrel (RStar g r1) p1 cs1 q cs2 -> mrel (RStar g r1) p cs q cs2
| MR_group n r1 p cs q cs1 : mrel r1 p cs q cs1 -> mrel (RGroup n r1) p cs q ((n, (p, q)) :: cs1)
| MR_bol cs : mrel RBol 0 cs 0 cs
| MR_eol cs : mrel REol (length inp) cs (length inp) cs
| MR_bolm p cs : (p =? 0) || term_at inp (p - 1) = true -> mrel RBolM p cs p cs
| MR_eolm p cs : (p =? length inp) || term_at inp p = true -> mrel REolM p cs p cs
| MR_wordb p cs : Bool.eqb ((0 <? p) && word_at inp (p - 1)) (word_at inp p) = false -> mrel RWordB p cs p cs.


(** What completeness of [mt] needs at a path of [r] from [p] to [q]. *)
Definition mt_ok (r : re) (p : nat) (cs : caps) (q : nat) (cs' : caps) : Prop :=
  (forall k, k q cs' <> None -> mt inp r p cs k <> None) /\
  match r with
  | RStar g r1 => forall k fuel, k q cs' <> None -> q - p <= fuel -> star_loop g r1 k fuel p cs <> None
  | _ => True
  end.

End MatchRel.

Definition all_chars (inp : str) (p q : nat) (f : ascii -> bool) : Prop :=
  forall j, p <= j < q -> exists a, nth_error inp j = Some a /\ f a = true.

Definition is_idchar (a : ascii) : bool := is_word a || Ascii.eqb a "-"%char.

Definition no_line_term (s : str) : bool := forallb (fun a => negb (is_line_term a)) s.

Definition civil_ok (y : Z) : bool :=
  forallb (fun m => forallb (fun d =>
    let '(y', m', d') := civil_from_days (days_from_civil y m d) in
    Z.eqb y' y && Z.eqb m' m && Z.eqb d' d) (map Z.of_nat (seq 1 28))) (map Z.of_nat (seq 1 12)).

(** Metadata as [parseInlineMetadata] leaves it: distinct lower-case keys,
    a number under ["progress"] and strings under the other keys. *)
Definition md_ok (md : metadata_t) : Prop :=
  NoDup (map fst md) /\
  forall k v, In (k, v) md ->
    to_lower_str k = k /\ (k = L "progress" -> exists n, v = MNum n)
    /\ (k <> L "progress" -> exists s, v = MStr s).

Definition settings_head : str := [nl] ++ L "%% kanban:settings" ++ [nl] ++ L "```json" ++ [nl].
Definition settings_tail : str := [nl] ++ L "```" ++ [nl] ++ L "%%" ++ [nl].

Definition is_tagchar (a : ascii) : bool := is_word a || Ascii.eqb a "-"%char || Ascii.eqb a "/"%char.

(** Source pattern "/^\s*-\s*\[([ xX])\]\s*(.{0,})$/" *)
Definition SUBTASK_ITEM : re :=
  seqs [RBol; star Rws; chr "-"; star Rws; chr "["; RGroup 1 (Rin " xX"); chr "]"; star Rws;
        RGroup 2 (star Rdot); REol].

(** Source pattern "/^(\s*-\s*\[)([ xX])(\]\s*.{0,})$/" *)
Definition SUBTASK_TOGGLE : re :=
  seqs [RBol; RGroup 1 (seqs [star Rws; chr "-"; star Rws; chr "["]); RGroup 2 (Rin " xX");
        RGroup 3 (seqs [chr "]"; star Rws; star Rdot]); REol].

Section Subtasks.
(** [generateId()]: the [n]-th identifier drawn. *)
Variable gen : nat -> str.

(** The line loop of [parseSubtasksFromContent]; [g] is the next index of the id supply. *)
Fixpoint parse_subtask_lines (lines : list str) (g : nat) : list Subtask * nat :=
  match lines with
  | [] => ([], g)
  | line :: rest =>
      match re_match line SUBTASK_ITEM with
      | Some m =>
          let sub := {| st_id := gen g; st_text := trim (grp line m 2);
                        st_completed := str_eqb (to_lower_str (grp line m 1)) (L "x") |} in
          let '(subs, g') := parse_subtask_lines rest (S g) in (sub :: subs, g')
      | None => parse_subtask_lines rest g
      end
  end.

(** [parseSubtasksFromContent(content)] *)
Definition parseSubtasksFromContent (content : str) (g : nat) : list Subtask * nat :=
  parse_subtask_lines (split_lines content) g.

End Subtasks.

(** The line loop of [updateSubtaskInContent]; [cnt] is [subtaskCount]. *)
Fixpoint update_subtask_lines (lines : list str) (subtaskIndex : Z) (cnt : nat) (completed : bool)
  : list str :=
  match lines with
  | [] => []
  | line :: rest =>
      match re_match line SUBTASK_TOGGLE with
      | Some m =>
          if Z.eqb (Z.of_nat cnt) subtaskIndex then
            (grp line m 1 ++ [if completed then "x"%char else " "%char] ++ grp line m 3) :: rest
          else line :: update_subtask_lines rest subtaskIndex (S cnt) completed
      | None => line :: update_subtask_lines rest subtaskIndex cnt completed
      end
  end.

(** [updateSubtaskInContent(content, subtaskIndex, completed)] *)
Definition updateSubtaskInContent (content : str) (subtaskIndex : Z) (completed : bool) : str :=
  join [nl] (update_subtask_lines (split_lines content) subtaskIndex 0 completed).


(** [addSubtaskToContent(content, subtaskText)]; [None] is [undefined]. *)
Definition addSubtaskToContent (content : option str) (subtaskText : str) : str :=
  let newSubtask := [tab] ++ L "- [ ] " ++ subtaskText in
  match content with
  | None | Some [] => newSubtask
  | Some c => if str_eqb (trim c) [] then newSubtask else c ++ [nl] ++ newSubtask
  end.


Definition is_box (a : ascii) : bool := existsb (Ascii.eqb a) (L " xX").

(** A checklist line [w1 - w2 [c] u v]. *)
Definition subtask_shape (l w1 w2 : str) (c : ascii) (u v : str) : Prop :=
  l = w1 ++ "-"%char :: w2 ++ "["%char :: c :: "]"%char :: u ++ v
  /\ forallb is_ws w1 = true /\ forallb is_ws w2 = true /\ is_box c = true
  /\ forallb is_ws u = true /\ no_line_term v = true.

Ltac app_norm := repeat (rewrite <- app_assoc || rewrite <- app_comm_cons || rewrite app_nil_r); reflexivity.

Fixpoint set_completed_at (subs : list Subtask) (k : Z) (b : bool) : list Subtask :=
  match subs with
  | [] => []
  | s :: r =>
      if Z.eqb k 0 then {| st_id := st_id s; st_text := st_text s; st_completed := b |} :: r
      else s :: set_completed_at r (k - 1) b
  end.

Definition no_sep (sep : ascii) (x : str) : bool := forallb (fun a => negb (Ascii.eqb a sep)) x.

(** Sample inputs of the further properties. *)
Definition X_card : KanbanCard :=
  {| card_id := L "c1"; title := L "Buy milk"; completed := true; tags := [];
     dueDate := None; dueTime := None; recurrence := None; reminderTime := None;
     notes := None; notePath := None; content := None; subtasks := None; metadata := [];
     baseTaskPath := None; baseSyncTime := None; rawLine := None |}.
Definition X_lane : KanbanLane :=
  {| lane_id := L "l1"; lane_title := L "Todo"; cards := [X_card]; rawHeader := None |}.
Definition X_settings : BoardSettings := [(L "a", JNull)].
Definition X_subtasks : str := join [nl] [L "Notes"; tab :: L "- [ ] one"; tab :: L "- [x] two"].
Definition X_gen : nat -> str := fun n => [ascii_of_nat (48 + n)].

(** * Lemmas *)

(** ** The matcher *)

Section Engine.
Variable inp : str.

(** A continuation that never succeeds makes the whole match fail. *)
Lemma mt_k_none r : forall p cs k, (forall q cq, k q cq = None) -> mt inp r p cs k = None.
Proof.
  induction r as [| f | r1 IH1 r2 IH2 | r1 IH1 r2 IH2 | g r1 IH | n r1 IH | | | | | ];
    intros p cs k Hk; simpl.
  - apply Hk.
  - destruct (char_at inp p) as [a|]; [destruct (f a); [apply Hk|]|]; reflexivity.
  - apply IH1. intros q cq. apply IH2. exact Hk.
  - rewrite (IH1 p cs k Hk). apply IH2. exact Hk.
  - match goal with
    | |- context [?Loop (length inp - p)] =>
        assert (HL : forall n q cq, Loop n q cq = None)
    end.
    { induction n as [|n IHn]; intros q cq; [apply Hk|]. simpl.
      destruct g.
      - rewrite IH; [apply Hk|]. intros q1 c1. destruct (q <? q1); [apply IHn|reflexivity].
      - rewrite Hk. apply IH. intros q1 c1. destruct (q <? q1); [apply IHn|reflexivity]. }
    destruct g.
    + rewrite IH; [apply Hk|]. intros q1 c1. destruct (p <? q1); [apply HL|reflexivity].
    + rewrite Hk. apply IH. intros q1 c1. destruct (p <? q1); [apply HL|reflexivity].
  - apply IH. intros q cq. apply Hk.
  - destruct (p =? 0); [apply Hk|reflexivity].
  - destruct (p =? length inp); [apply Hk|reflexivity].
  - destruct (_ || _); [apply Hk|reflexivity].
  - destruct (_ || _); [apply Hk|reflexivity].
  - destruct (Bool.eqb _ _); [reflexivity|apply Hk].
Qed.

Lemma search_from_none r :
  (forall i, mt inp r i [] (k_final i) = None) -> forall i fuel, search_from inp r i fuel = None.
Proof.
  intros H i fuel. revert i. induction fuel as [|fuel IH]; intros i; simpl; [reflexivity|].
  rewrite H. apply IH.
Qed.

End Engine.

Lemma colon_only_spec f : colon_only f = true -> forall a, f a = true -> a = ":"%char.
Proof.
  intros H a Ha. unfold colon_only in H. rewrite forallb_forall in H.
  specialize (H (nat_of_ascii a)). rewrite ascii_nat_embedding in H.
  assert (Hin : In (nat_of_ascii a) (seq 0 256)).
  { apply in_seq. pose proof (nat_ascii_bounded a). lia. }
  specialize (H Hin). rewrite Ha in H. simpl in H. apply Ascii.eqb_eq in H. exact H.
Qed.

Lemma index_of_from_none s q i :
  index_of_from s q i = None -> forall n, starts_with (skipn n s) q = false \/ skipn n s = [].
Proof.
  revert i. induction s as [|a s IH]; intros i H n.
  - right. now destruct n.
  - change ((if starts_with (a :: s) q then Some i else index_of_from s q (S i)) = None) in H.
    destruct (starts_with (a :: s) q) eqn:Hs; [discriminate|].
    destruct n as [|n]; [left; exact Hs|]. simpl. exact (IH _ H n).
Qed.

(** Without "::" in the text, no two adjacent characters are colons. *)
Lemma no_dcolon s p :
  includes s (L "::") = false -> nth_error s p = Some ":"%char -> nth_error s (S p) = Some ":"%char -> False.
Proof.
  intros H H1 H2. unfold includes, index_of in H.
  destruct (index_of_from s (L "::") 0) eqn:E; [discriminate|].
  destruct (index_of_from_none _ _ _ E p) as [Hs|Hs].
  - assert (Hk : skipn p s = ":"%char :: ":"%char :: skipn (S (S p)) s).
    { clear - H1 H2. revert s H1 H2. induction p as [|p IH]; intros s H1 H2.
      - destruct s as [|a [|b s]]; simpl in *; try discriminate. congruence.
      - destruct s as [|a s]; simpl in *; [discriminate|]. apply IH; assumption. }
    rewrite Hk in Hs. destruct (skipn (S (S p)) s); discriminate Hs.
  - assert (Hn : nth_error (skipn p s) 0 = nth_error s p).
    { clear. revert s. induction p as [|p IH]; intros [|a s]; try reflexivity. exact (IH s). }
    rewrite Hs, H1 in Hn. discriminate.
Qed.

Lemma dcolon_pair_none inp f1 f2 p cs k :
  colon_only f1 = true -> colon_only f2 = true -> includes inp (L "::") = false ->
  mt inp (RSeq (RChr f1) (RChr f2)) p cs k = None.
Proof.
  intros H1 H2 Hi. cbn [mt].
  destruct (char_at inp p) as [a|] eqn:Ea; [|reflexivity].
  destruct (f1 a) eqn:Fa; [|reflexivity].
  destruct (char_at inp (S p)) as [b|] eqn:Eb; [|reflexivity].
  destruct (f2 b) eqn:Fb; [|reflexivity].
  apply colon_only_spec in Fa; [|exact H1]. apply colon_only_spec in Fb; [|exact H2]. subst.
  exfalso. exact (no_dcolon inp p Hi Ea Eb).
Qed.

Lemma needs_dcolon_sound inp r :
  needs_dcolon r = true -> includes inp (L "::") = false ->
  forall p cs k, mt inp r p cs k = None.
Proof.
  intros Hn Hi. induction r as [| f | r1 IH1 r2 IH2 | r1 IH1 r2 IH2 | g r1 IH | n r1 IH | | | | | ];
    intros p cs k; simpl in Hn; try discriminate.
  - apply orb_true_iff in Hn as [Hn|Hn]; [apply orb_true_iff in Hn as [Hn|Hn]|].
    + destruct r1; try discriminate. destruct r2; try discriminate.
      apply andb_true_iff in Hn as [Ha Hb]. exact (dcolon_pair_none inp _ _ p cs k Ha Hb Hi).
    + simpl. apply IH1. exact Hn.
    + simpl. apply mt_k_none. intros q cq. apply IH2. exact Hn.
  - apply andb_true_iff in Hn as [Ha Hb]. simpl. rewrite (IH1 Ha). apply (IH2 Hb).
  - simpl. apply IH. exact Hn.
Qed.

Lemma re_match_none inp r :
  needs_dcolon r = true -> includes inp (L "::") = false -> re_match inp r = None.
Proof.
  intros Hn Hi. unfold re_match, re_exec. destruct (length inp <? 0); [reflexivity|].
  apply search_from_none. intros i. apply (needs_dcolon_sound inp r Hn Hi).
Qed.

(** A text without "::" carries no inline metadata and comes back unchanged. *)
Lemma parseInlineMetadata_plain s :
  includes s (L "::") = false -> parseInlineMetadata s = (s, []).
Proof.
  intros Hi. unfold parseInlineMetadata.
  assert (Hall : match_all s METADATA_TAG = []).
  { unfold match_all. cbn [match_all_from].
    change (re_exec s METADATA_TAG 0) with (re_match s METADATA_TAG).
    rewrite (re_match_none s METADATA_TAG); [reflexivity| |exact Hi].
    vm_compute. reflexivity. }
  rewrite Hall. simpl fold_left. cbv beta iota zeta.
  rewrite (re_match_none s PROGRESS_BARE); [| vm_compute; reflexivity | exact Hi].
  rewrite (re_match_none s PROJECT_BARE); [reflexivity| vm_compute; reflexivity | exact Hi].
Qed.

(** ** The calendar *)

Section Calendar.
Local Open Scope Z_scope.

Lemma all_from_spec n z f :
  all_from n z f = true -> forall w, z <= w < z + Z.of_nat n -> f w = true.
Proof.
  revert z. induction n as [|n IH]; intros z H w Hw; simpl in *.
  - lia.
  - apply andb_true_iff in H as [H1 H2].
    destruct (Z.eq_dec w z) as [->|Hne]; [exact H1|].
    apply (IH (z + 1) H2). lia.
Qed.

Lemma era_day_ok_all : all_from (Z.to_nat 146097) 0 era_day_ok = true.
Proof. vm_compute. reflexivity. Qed.

Lemma era_day_bounds doe : 0 <= doe < 146097 ->
  let yoe := (doe - doe / 1460 + doe / 36524 - doe / 146096) / 365 in
  let doy := doe - (365 * yoe + yoe / 4 - yoe / 100) in
  0 <= yoe <= 399 /\ 0 <= doy <= 365.
Proof.
  intros H. pose proof (all_from_spec _ _ _ era_day_ok_all doe) as E.
  rewrite Z2Nat.id in E by lia. specialize (E ltac:(lia)).
  unfold era_day_ok in E. cbv zeta in *.
  apply andb_true_iff in E as [E E4]. apply andb_true_iff in E as [E E3].
  apply andb_true_iff in E as [E1 E2].
  apply Z.leb_le in E1, E2, E3, E4. lia.
Qed.

Lemma days_from_civil_day y m d : days_from_civil y m d = days_from_civil y m 1 + d - 1.
Proof. unfold days_from_civil. lia. Qed.

(** [days_from_civil] undoes [civil_from_days], whose month is in 1..12. *)
Lemma civil_from_days_spec t :
  let '(y, m, d) := civil_from_days t in days_from_civil y m d = t /\ 1 <= m <= 12.
Proof.
  unfold civil_from_days.
  set (z' := t + 719468). set (era := z' / 146097). set (doe := z' - era * 146097).
  assert (Hdoe : 0 <= doe < 146097).
  { unfold doe, era. pose proof (Z.mod_pos_bound z' 146097 ltac:(lia)).
    rewrite Z.mod_eq in H by lia. lia. }
  pose proof (era_day_bounds doe Hdoe) as Hb. cbv zeta in Hb.
  set (yoe := (doe - doe / 1460 + doe / 36524 - doe / 146096) / 365) in *.
  set (doy := doe - (365 * yoe + yoe / 4 - yoe / 100)) in *.
  set (mp := (5 * doy + 2) / 153).
  assert (Hmp : 0 <= mp <= 11).
  { unfold mp. split; [apply Z.div_pos; lia|]. apply Z.lt_succ_r. apply Z.div_lt_upper_bound; lia. }
  assert (Hera : (yoe + era * 400) / 400 = era).
  { rewrite Z.div_add by lia. rewrite Z.div_small by lia. lia. }
  unfold days_from_civil.
  destruct (mp <? 10) eqn:Hlt.
  - apply Z.ltb_lt in Hlt.
    replace (mp + 3 <=? 2) with false by (symmetry; apply Z.leb_gt; lia).
    replace (mp + 3 >? 2) with true by (symmetry; apply Z.gtb_lt; lia).
    replace (mp + 3 + -3) with mp by lia.
    rewrite Hera. split; [|lia].
    replace (yoe + era * 400 - era * 400) with yoe by lia.
    unfold doe, z'. lia.
  - apply Z.ltb_ge in Hlt.
    replace (mp - 9 <=? 2) with true by (symmetry; apply Z.leb_le; lia).
    replace (mp - 9 >? 2) with false by (symmetry; rewrite Z.gtb_ltb; apply Z.ltb_ge; lia).
    replace (mp - 9 + 9) with mp by lia.
    replace (yoe + era * 400 + 1 - 1) with (yoe + era * 400) by lia.
    rewrite Hera. split; [|lia].
    replace (yoe + era * 400 - era * 400) with yoe by lia.
    unfold doe, z'. lia.
Qed.

(** [d.setDate(d.getDate() + k)] moves [d] by [k] days. *)
Lemma setDate_shift t k : setDate t (getDate t + k) = t + k.
Proof.
  unfold setDate, make_day, getFullYear, getMonth, getDate.
  pose proof (civil_from_days_spec t) as H.
  destruct (civil_from_days t) as [[y m] d]. destruct H as [H Hm].
  rewrite (Z.div_small (m - 1) 12) by lia. rewrite (Z.mod_small (m - 1) 12) by lia.
  rewrite Z.add_0_r. replace (m - 1 + 1) with m by lia.
  rewrite <- H. rewrite (days_from_civil_day y m d). lia.
Qed.

Lemma getDay_shift t k : getDay (t + k) = (getDay t + k) mod 7.
Proof. unfold getDay. rewrite Z.add_mod_idemp_l by lia. f_equal. lia. Qed.

Lemma getDay_range t : 0 <= getDay t < 7.
Proof. unfold getDay. apply Z.mod_pos_bound. lia. Qed.

Lemma mod7_low a : 0 <= a < 7 -> a mod 7 = a.
Proof. intros. apply Z.mod_small. lia. Qed.

Lemma mod7_high a : 7 <= a < 14 -> a mod 7 = a - 7.
Proof.
  intros. replace a with ((a - 7) + 1 * 7) at 1 by lia.
  rewrite Z.mod_add by lia. apply Z.mod_small. lia.
Qed.

Lemma day_num_range d : 0 <= day_num d <= 6.
Proof. destruct d; simpl; lia. Qed.

Lemma ZOrder_leb_trans : Transitive (fun x y => is_true (ZOrder.leb x y)).
Proof. intros x y z; unfold is_true, ZOrder.leb; rewrite !Z.leb_le; lia. Qed.

(** In a sorted list, [find] returns the least element with the property. *)
Lemma find_sorted_least (P : Z -> bool) (l : list Z) (n : Z) :
  StronglySorted (fun x y => is_true (ZOrder.leb x y)) l ->
  find P l = Some n -> forall e, In e l -> P e = true -> n <= e.
Proof.
  induction l as [|a l IH]; intros Hs Hf e He Pe; [discriminate|].
  inversion Hs as [|? ? Hs' Hall]; subst. simpl in Hf.
  destruct (P a) eqn:Pa.
  - injection Hf as <-. destruct He as [<-|He]; [lia|].
    rewrite Forall_forall in Hall. specialize (Hall e He).
    unfold is_true, ZOrder.leb in Hall. apply Z.leb_le in Hall. exact Hall.
  - destruct He as [<-|He]; [congruence|]. exact (IH Hs' Hf e He Pe).
Qed.

Lemma sorted_head_least (l : list Z) (a : Z) :
  StronglySorted (fun x y => is_true (ZOrder.leb x y)) (a :: l) -> forall e, In e (a :: l) -> a <= e.
Proof.
  intros Hs e He. inversion Hs as [|? ? _ Hall]; subst.
  destruct He as [<-|He]; [lia|].
  rewrite Forall_forall in Hall. specialize (Hall e He).
  unfold is_true, ZOrder.leb in Hall. apply Z.leb_le in Hall. exact Hall.
Qed.

End Calendar.

(** ** Cards *)

Lemma id_tail (chk ct id tail : str) :
  ends_line tail ->
  exists pre post, (L "- " ++ chk ++ L " " ++ (ct ++ L " ^" ++ id)) ++ tail = pre ++ L " ^" ++ id ++ post
                   /\ ends_line post.
Proof.
  intros H. exists (L "- " ++ chk ++ L " " ++ ct), tail. split; [|exact H].
  rewrite <- !app_assoc. reflexivity.
Qed.

(** The first line of a serialized card ends with its [^id] marker. *)
Lemma serializeCard_id_marker (c : KanbanCard) :
  exists pre post, serializeCard c true = pre ++ L " ^" ++ card_id c ++ post /\ ends_line post.
Proof.
  unfold serializeCard. cbv beta iota zeta.
  destruct (truthy_str (content c)) as [s|], (truthy_str (notePath c)) as [q|];
  try (apply id_tail; right; eexists; reflexivity);
  match goal with |- context [match ?l with [] => _ | _ :: _ => _ end] => destruct l end;
  try (rewrite <- (app_nil_r (L "- " ++ _)); apply id_tail; left; reflexivity);
  apply id_tail; right; eexists; reflexivity.
Qed.

Lemma serializeCard_keeps_id (c : KanbanCard) (id : str) :
  card_id c = id ->
  exists pre post, serializeCard c true = pre ++ L " ^" ++ id ++ post /\ ends_line post.
Proof. intros <-. apply serializeCard_id_marker. Qed.

Ltac extend_step IH i :=
  match goal with
  | |- exists more, sc_contentLines (scan_content _ _ _ _ ?s) = _ =>
      destruct (IH (S i) s) as [more Hm]; rewrite Hm; simpl;
      eexists; rewrite <- app_assoc; reflexivity
  end.

(** The content-block loop only appends to the content lines. *)
Lemma scan_content_extends (gen : nat -> str) ci i rest st :
  exists more, sc_contentLines (scan_content gen ci i rest st) = sc_contentLines st ++ more.
Proof.
  revert i st. induction rest as [|l rest IH]; intros i st; simpl.
  - exists []. now rewrite app_nil_r.
  - destruct (is_blank l).
    + destruct (lookahead ci rest).
      * extend_step IH i.
      * exists []. now rewrite app_nil_r.
    + destruct (re_match l NOTE_LINE).
      * extend_step IH i.
      * destruct (re_match l SUBTASK_LINE).
        -- destruct (_ <? _).
           ++ extend_step IH i.
           ++ destruct (_ <? _).
              ** extend_step IH i.
              ** exists []. now rewrite app_nil_r.
        -- destruct (_ <? _).
           ++ extend_step IH i.
           ++ exists []. now rewrite app_nil_r.
Qed.

(** * The claims *)

(** C1 (evaluated): a canonical board document, with its frontmatter
    and with identifiers on its lane and card, does not come back unchanged
    from [serializeKanbanBoard (parseKanbanBoard d)]: the frontmatter pattern
    takes the blank line after the closing [---] into the frontmatter, and
    the serializer then joins the frontmatter to the first lane with one
    more line break, so the output has one more blank line, whatever the
    clock, the id supply and the JSON codec. *)
Lemma roundtrip_adds_blank_line :
  forall now gen json_parse json_stringify,
  serializeKanbanBoard json_stringify (parseKanbanBoard now gen json_parse C1_doc) = C1_out
  /\ C1_out <> C1_doc.
Proof. intros. split; [vm_compute; reflexivity | vm_compute; congruence]. Qed.

(** C2: when a card line carries an [^id] marker, the card parsed from it
    has that identifier, and after any edit of the title the serialized
    card's first line still ends with " ^" and the same identifier (what
    follows is nothing or a line break). *)
Lemma parse_edit_serialize_keeps_id now gen lines i b g line id
  (Hl : nth_error lines i = Some line) (Hid : line_id line = Some id) (Hne : id <> []) :
  exists c e g', parseCard now gen lines i b g = (Some c, e, g') /\ card_id c = id
  /\ forall t, exists pre post, serializeCard (with_title c t) true = pre ++ L " ^" ++ id ++ post
                          /\ ends_line post.
Proof.
  unfold line_id in Hid. destruct (re_match line CHECKBOX) as [cb|] eqn:E; [|discriminate].
  unfold parseCard. rewrite Hl, E.
  destruct (extractId (trim (grp line cb 3))) as [tw eid] eqn:Ex. simpl in Hid. subst eid.
  destruct id as [|x xs]; [congruence|].
  destruct (parseInlineMetadata tw) as [am md].
  destruct (if truthy (md_get md (L "note")) then _ else _) as [np md'].
  destruct (parseTags am) as [u tg].
  do 3 eexists. split; [reflexivity|]. split; [reflexivity|].
  intros t. apply serializeCard_keeps_id. reflexivity.
Qed.

(** C3 (amended): with the reference date Wednesday 2025-01-15, both
    "next monday" and "this monday" resolve to 2025-01-20. *)
Lemma this_and_next_monday :
  getDay wed_2025_01_15 = 3%Z
  /\ fst (parseNaturalDate (L "next monday") wed_2025_01_15) = Some (L "2025-01-20")
  /\ fst (parseNaturalDate (L "this monday") wed_2025_01_15) = Some (L "2025-01-20").
Proof. vm_compute. repeat split. Qed.

(** C4 (evaluated): the bracketed tag [[remind::1h]] is taken by the
    generic inline-metadata pass into [metadata.remind]; the card's
    [reminderTime] stays empty, whatever the clock and the id supply. *)
Lemma remind_tag_goes_to_metadata :
  forall now gen g, exists c e g',
  parseCard now gen [C4_line] 0 true g = (Some c, e, g')
  /\ reminderTime c = None
  /\ md_get (metadata c) (L "remind") = Some (MStr (L "1h")).
Proof. intros. do 3 eexists. split; [vm_compute; reflexivity|]. vm_compute. repeat split. Qed.

(** C5: "every 2 weeks" parses to a weekly rule of interval 2 that keeps
    the phrase, and serializing the rule gives the phrase back. *)
Lemma every_2_weeks_roundtrip : exists r,
  parseRecurrence (L "every 2 weeks") = (Some r, Some (L "every 2 weeks"))
  /\ frequency r = weekly /\ interval r = Some 2%Z /\ rawPattern r = Some (L "every 2 weeks")
  /\ serializeRecurrence r = L "every 2 weeks".
Proof. eexists; split; [vm_compute; reflexivity|]. vm_compute. repeat split. Qed.

(** C6: for a weekly rule with a non-empty weekday set, the next
    occurrence is the first day strictly after the from-date whose weekday
    is in the set: it comes within seven days, its weekday is in the set,
    and no day in between has a weekday of the set. *)
Lemma weekly_next_occurrence_earliest (p : RecurrencePattern) (ds : list DayOfWeek) (from : date)
  (Hf : frequency p = weekly) (Hd : daysOfWeek p = Some ds) (Hne : ds <> []) :
  let r := getNextOccurrence p from in
  (from < r <= from + 7)%Z
  /\ In (getDay r) (map day_num ds)
  /\ forall x, (from < x < r)%Z -> ~ In (getDay x) (map day_num ds).
Proof.
  unfold getNextOccurrence. rewrite Hf, Hd.
  destruct ds as [|d0 ds']; [congruence|]. clear Hne.
  set (ds := d0 :: ds').
  set (cd := getDay from).
  set (tds := ZSort.sort (map day_num ds)).
  assert (Hperm : forall e, In e tds <-> In e (map day_num ds)).
  { intros e. split; apply Permutation_in; [symmetry|]; apply ZSort.Permuted_sort. }
  assert (Hsort : StronglySorted (fun x y => is_true (ZOrder.leb x y)) tds).
  { apply ZSort.StronglySorted_sort, ZOrder_leb_trans. }
  assert (Hrange : forall e, In e tds -> (0 <= e <= 6)%Z).
  { intros e He. apply Hperm in He. apply in_map_iff in He as [d [<- _]]. apply day_num_range. }
  pose proof (getDay_range from) as Hcd. fold cd in Hcd.
  destruct (find (fun d => (cd <? d)%Z) tds) as [nd|] eqn:Hfind.
  - apply find_some in Hfind as Hnd. destruct Hnd as [HnS Hlt]. apply Z.ltb_lt in Hlt.
    pose proof (find_sorted_least _ _ _ Hsort Hfind) as Hleast.
    pose proof (Hrange nd HnS) as Hndr.
    rewrite setDate_shift. cbv zeta.
    split; [lia|]. split.
    + apply Hperm. rewrite getDay_shift. fold cd.
      rewrite mod7_low by lia. replace (cd + (nd - cd))%Z with nd by lia. exact HnS.
    + intros x Hx Hin. apply Hperm in Hin.
      replace x with (from + (x - from))%Z in Hin by lia.
      rewrite getDay_shift in Hin. fold cd in Hin. rewrite mod7_low in Hin by lia.
      specialize (Hleast _ Hin). rewrite Z.ltb_lt in Hleast. specialize (Hleast ltac:(lia)). lia.
  - assert (Hnone : forall e, In e tds -> (e <= cd)%Z).
    { intros e He. pose proof (find_none _ _ Hfind e He) as H. simpl in H. apply Z.ltb_ge in H. exact H. }
    destruct tds as [|h rest] eqn:Htds.
    + exfalso. destruct (proj2 (Hperm (day_num d0)) (or_introl eq_refl)).
    + simpl hd. pose proof (sorted_head_least _ _ Hsort) as Hhead.
      assert (HhS : In h (h :: rest)) by (left; reflexivity).
      pose proof (Hnone h HhS) as Hh. pose proof (Hrange h HhS) as Hhr.
      rewrite setDate_shift. cbv zeta.
      split; [lia|]. split.
      * apply Hperm. rewrite getDay_shift. fold cd.
        rewrite mod7_high by lia. replace (cd + (7 - cd + h) - 7)%Z with h by lia. exact HhS.
      * intros x Hx Hin. apply Hperm in Hin.
        replace x with (from + (x - from))%Z in Hin by lia.
        rewrite getDay_shift in Hin. fold cd in Hin.
        destruct (Z.lt_ge_cases (cd + (x - from)) 7).
        -- rewrite mod7_low in Hin by lia. pose proof (Hnone _ Hin). lia.
        -- rewrite mod7_high in Hin by lia. pose proof (Hhead _ Hin). lia.
Qed.

(** C7: the card line "- [ ] Buy milk #errand [progress::40%] [project::Home]"
    gives the tags ["errand"], the metadata progress 40 (a number) and
    project "Home", and a title that still contains "#errand". *)
Lemma buy_milk_card_fields :
  forall now gen g, exists c e g',
  parseCard now gen [C7_line] 0 true g = (Some c, e, g')
  /\ tags c = [L "errand"]
  /\ md_get (metadata c) (L "progress") = Some (MNum 40)
  /\ md_get (metadata c) (L "project") = Some (MStr (L "Home"))
  /\ includes (title c) (L "#errand") = true.
Proof. intros. do 3 eexists. split; [vm_compute; reflexivity|]. vm_compute. repeat split. Qed.

(** C9: when the payload of the settings block fails to decode, the board
    has empty settings, and its lanes and archive are the ones obtained
    with any other decoder: the failure does not touch the lanes. *)
Lemma invalid_settings_json_ignored now gen (json_parse json_parse' : str -> option BoardSettings)
  (d : str) (Hbad : forall p, settings_payload d = Some p -> json_parse p = None) :
  settings (parseKanbanBoard now gen json_parse d) = []
  /\ lanes (parseKanbanBoard now gen json_parse d) = lanes (parseKanbanBoard now gen json_parse' d)
  /\ archive (parseKanbanBoard now gen json_parse d) = archive (parseKanbanBoard now gen json_parse' d).
Proof.
  unfold settings_payload in Hbad. unfold parseKanbanBoard.
  destruct (extractFrontmatter d) as [fm body]. simpl in Hbad.
  destruct (lane_sections now gen body _ _ [] [] 0) as [[[ls ar] pr] g'].
  split; [|split; reflexivity].
  simpl. unfold parseSettings.
  destruct (re_match body SETTINGS_JSON) as [m|]; [|reflexivity].
  rewrite (Hbad _ eq_refl). reflexivity.
Qed.

(** C10 (amended): the title of a parsed card is the text after the
    checkbox without the [^id] marker, from which only the inline metadata
    is removed (bracketed [[key::value]] tags and the legacy progress:: and
    project:: forms); due date, due time and recurrence are read from that
    title, and what the date extractor removes stays in the title.  In
    particular a text without "::" is the title verbatim. *)
Lemma title_keeps_date_phrases now gen lines i b g line s
  (Hl : nth_error lines i = Some line) (Hs : card_text line = Some s) :
  exists c e g', parseCard now gen lines i b g = (Some c, e, g')
  /\ title c = fst (parseInlineMetadata s)
  /\ dueDate c = df_dueDate (parseDate now (title c) b)
  /\ dueTime c = df_dueTime (parseDate now (title c) b)
  /\ recurrence c = df_recurrence (parseDate now (title c) b)
  /\ (includes s (L "::") = false -> title c = s).
Proof.
  unfold card_text in Hs. destruct (re_match line CHECKBOX) as [cb|] eqn:E; [|discriminate].
  injection Hs as Hs.
  unfold parseCard. rewrite Hl, E.
  destruct (extractId (trim (grp line cb 3))) as [tw eid] eqn:Ex. simpl in Hs. subst tw.
  destruct (parseInlineMetadata s) as [am md] eqn:Hpm.
  destruct (if truthy (md_get md (L "note")) then _ else _) as [np md'].
  destruct (parseTags am) as [u tg].
  destruct (match eid with Some (_ :: _) => _ | _ => _ end) as [cid g'].
  do 3 eexists. split; [reflexivity|]. simpl.
  split; [reflexivity|]. split; [reflexivity|]. split; [reflexivity|]. split; [reflexivity|].
  intros Hi. rewrite (parseInlineMetadata_plain s Hi) in Hpm. congruence.
Qed.

(** * Witnesses and counterexamples *)

Lemma parse_edit_serialize_keeps_id_witness :
  exists c e g', parseCard 0%Z no_ids [C2_line] 0 true 0 = (Some c, e, g')
  /\ card_id c = L "card-1"
  /\ forall t, exists pre post, serializeCard (with_title c t) true = pre ++ L " ^" ++ L "card-1" ++ post
                          /\ ends_line post.
Proof.
  apply (parse_edit_serialize_keeps_id 0%Z no_ids [C2_line] 0 true 0 C2_line (L "card-1")).
  - reflexivity.
  - vm_compute. reflexivity.
  - discriminate.
Defined.

(** C3: "this monday" is not 2025-01-13. *)
Lemma this_monday_not_2025_01_13 :
  ~ (fst (parseNaturalDate (L "next monday") wed_2025_01_15) = Some (L "2025-01-20")
     /\ fst (parseNaturalDate (L "this monday") wed_2025_01_15) = Some (L "2025-01-13")).
Proof. intros [_ H]. vm_compute in H. discriminate H. Qed.

(** C6 at the rule {monday, friday} from Friday 2025-01-17: Monday 2025-01-20. *)
Lemma weekly_next_occurrence_friday :
  getDay fri_2025_01_17 = 5%Z
  /\ getNextOccurrence mon_fri_rule fri_2025_01_17 = days_from_civil 2025 1 20
  /\ (let r := getNextOccurrence mon_fri_rule fri_2025_01_17 in
      (fri_2025_01_17 < r <= fri_2025_01_17 + 7)%Z
      /\ In (getDay r) (map day_num [monday; friday])
      /\ forall x, (fri_2025_01_17 < x < r)%Z -> ~ In (getDay x) (map day_num [monday; friday])).
Proof.
  split; [vm_compute; reflexivity|]. split; [vm_compute; reflexivity|].
  apply (weekly_next_occurrence_earliest mon_fri_rule [monday; friday] fri_2025_01_17).
  - reflexivity.
  - reflexivity.
  - discriminate.
Defined.

Lemma invalid_settings_json_ignored_witness :
  (settings (parseKanbanBoard 0%Z no_ids (fun _ => None) C9_doc) = []
   /\ lanes (parseKanbanBoard 0%Z no_ids (fun _ => None) C9_doc)
      = lanes (parseKanbanBoard 0%Z no_ids (fun _ => Some []) C9_doc)
   /\ archive (parseKanbanBoard 0%Z no_ids (fun _ => None) C9_doc)
      = archive (parseKanbanBoard 0%Z no_ids (fun _ => Some []) C9_doc))
  /\ map lane_title (lanes (parseKanbanBoard 0%Z no_ids (fun _ => None) C9_doc))
     = [L "Todo"; L "Done"]
  /\ map (fun l => map card_id (cards l)) (lanes (parseKanbanBoard 0%Z no_ids (fun _ => None) C9_doc))
     = [[L "a"]; [L "b"]].
Proof.
  split.
  - apply (invalid_settings_json_ignored 0%Z no_ids (fun _ => None) (fun _ => Some []) C9_doc).
    intros p _. reflexivity.
  - split; vm_compute; reflexivity.
Defined.

Lemma title_keeps_date_phrases_witness :
  (exists c e g', parseCard 0%Z no_ids [C10_line] 0 true 0 = (Some c, e, g')
   /\ title c = fst (parseInlineMetadata C10_text)
   /\ dueDate c = df_dueDate (parseDate 0%Z (title c) true)
   /\ dueTime c = df_dueTime (parseDate 0%Z (title c) true)
   /\ recurrence c = df_recurrence (parseDate 0%Z (title c) true)
   /\ (includes C10_text (L "::") = false -> title c = C10_text))
  /\ includes C10_text (L "::") = false
  /\ df_dueDate (parseDate 0%Z C10_text true) = Some (L "2025-02-01")
  /\ df_dueTime (parseDate 0%Z C10_text true) = Some (L "10:30")
  /\ option_map rawPattern (df_recurrence (parseDate 0%Z C10_text true)) = Some (Some (L "every month")).
Proof.
  split.
  - apply (title_keeps_date_phrases 0%Z no_ids [C10_line] 0 true 0 C10_line); [reflexivity|].
    vm_compute. reflexivity.
  - vm_compute. repeat split.
Defined.

(** C10: the legacy form progress::50% is removed from the title. *)
Lemma legacy_progress_removed_from_title :
  exists c e g', parseCard 0%Z no_ids [C10_legacy_line] 0 true 0 = (Some c, e, g')
  /\ title c = L "Task  tomorrow" /\ title c <> L "Task progress::50% tomorrow".
Proof.
  do 3 eexists. split; [vm_compute; reflexivity|]. split; [vm_compute; reflexivity|].
  vm_compute. congruence.
Qed.

(** * Further properties of the converter *)

(** ** Completeness and soundness of the matcher *)


Section MatchLemmas.
Variable inp : str.

Lemma mt_star g r1 p cs k : mt inp (RStar g r1) p cs k = star_loop inp g r1 k (S (length inp - p)) p cs.
Proof. reflexivity. Qed.

Lemma mt_sound r : forall p cs k res, mt inp r p cs k = Some res ->
  exists q cs', mrel inp r p cs q cs' /\ k q cs' = Some res.
Proof.
  induction r as [| f | r1 IH1 r2 IH2 | r1 IH1 r2 IH2 | g r1 IH | n r1 IH | | | | | ];
    intros p cs k res H.
  - exists p, cs. split; [constructor | exact H].
  - simpl in H. unfold char_at in H. destruct (nth_error inp p) as [a|] eqn:E; [|discriminate].
    destruct (f a) eqn:F; [|discriminate]. exists (S p), cs. split; [econstructor; eauto | exact H].
  - simpl in H. destruct (IH1 _ _ _ _ H) as (p1 & cs1 & R1 & H1).
    destruct (IH2 _ _ _ _ H1) as (q & cs2 & R2 & H2).
    exists q, cs2. split; [econstructor; eauto | exact H2].
  - simpl in H. destruct (mt inp r1 p cs k) eqn:E.
    + injection H as <-. destruct (IH1 _ _ _ _ E) as (q & cs' & R & Hk).
      exists q, cs'. split; [apply MR_altl; exact R | exact Hk].
    + destruct (IH2 _ _ _ _ H) as (q & cs' & R & Hk).
      exists q, cs'. split; [apply MR_altr; exact R | exact Hk].
  - rewrite mt_star in H. revert H. generalize (S (length inp - p)) as fuel. intros fuel.
    revert p cs res. induction fuel as [|f IHf]; intros q cq res H; simpl in H.
    + exists q, cq. split; [apply MR_star0 | exact H].
    + assert (Hit : forall res', mt inp r1 q cq (fun q1 c1 => if q <? q1 then star_loop inp g r1 k f q1 c1 else None) = Some res' ->
                 exists qf cf, mrel inp (RStar g r1) q cq qf cf /\ k qf cf = Some res').
      { intros res' E. destruct (IH _ _ _ _ E) as (q1 & c1 & R1 & H1).
        destruct (q <? q1) eqn:Lt; [|discriminate]. apply Nat.ltb_lt in Lt.
        destruct (IHf _ _ _ H1) as (qf & cf & Rf & Hf).
        exists qf, cf. split; [eapply MR_starS; eauto | exact Hf]. }
      destruct g.
      * destruct (mt inp r1 q cq _) eqn:E.
        -- injection H as <-. apply Hit. first [exact E | reflexivity].
        -- exists q, cq. split; [apply MR_star0 | exact H].
      * destruct (k q cq) eqn:E.
        -- injection H as <-. exists q, cq. split; [apply MR_star0 | exact E].
        -- apply Hit. exact H.
  - simpl in H. destruct (IH _ _ _ _ H) as (q & cs1 & R & Hk).
    exists q, ((n, (p, q)) :: cs1). split; [constructor; exact R | exact Hk].
  - simpl in H. destruct (p =? 0) eqn:E; [|discriminate]. apply Nat.eqb_eq in E. subst.
    exists 0, cs. split; [constructor | exact H].
  - simpl in H. destruct (p =? length inp) eqn:E; [|discriminate]. apply Nat.eqb_eq in E. subst.
    exists (length inp), cs. split; [constructor | exact H].
  - simpl in H. destruct (_ || _) eqn:E; [|discriminate].
    exists p, cs. split; [constructor; exact E | exact H].
  - simpl in H. destruct (_ || _) eqn:E; [|discriminate].
    exists p, cs. split; [constructor; exact E | exact H].
  - simpl in H. destruct (Bool.eqb _ _) eqn:E; [discriminate|].
    exists p, cs. split; [constructor; exact E | exact H].
Qed.

Lemma mrel_mono r p cs q cs' : mrel inp r p cs q cs' -> p <= q /\ (p < q -> q <= length inp).
Proof.
  induction 1; try (split; [lia | intros; lia]).
  match goal with H : nth_error inp ?p = Some _ |- _ =>
    assert (p < length inp) by (apply nth_error_Some; congruence) end. lia.
Qed.

Lemma mt_complete_gen r p cs q cs' : mrel inp r p cs q cs' -> mt_ok inp r p cs q cs'.
Proof.
  induction 1 as [p cs | f p cs a Ha Hf | r1 r2 p cs p1 cs1 q cs2 R1 IH1 R2 IH2
                 | r1 r2 p cs q cs' R IH | r1 r2 p cs q cs' R IH | g r1 p cs
                 | g r1 p cs p1 cs1 q cs2 R1 IH1 Hlt R2 IH2 | n r1 p cs q cs1 R IH
                 | cs | cs | p cs E | p cs E | p cs E];
    unfold mt_ok in *; (split; [intros k Hk|]); try exact I.
  - exact Hk.
  - simpl. unfold char_at. rewrite Ha, Hf. exact Hk.
  - simpl. apply (proj1 IH1). apply (proj1 IH2). exact Hk.
  - simpl. destruct (mt inp r1 p cs k) eqn:E; [congruence|]. exfalso. exact (proj1 IH k Hk E).
  - simpl. destruct (mt inp r1 p cs k) eqn:E; [congruence|]. exact (proj1 IH k Hk).
  - rewrite mt_star. generalize (length inp - p). intros n. simpl.
    destruct g; [destruct (mt inp r1 p cs _); [congruence|exact Hk]|].
    destruct (k p cs) eqn:E; congruence.
  - intros k fuel Hk _. destruct fuel; simpl; [exact Hk|].
    destruct g; [destruct (mt inp r1 p cs _); [congruence|exact Hk]|].
    destruct (k p cs) eqn:E; congruence.
  - rewrite mt_star.
    assert (Hp1 : p1 <= length inp) by (pose proof (mrel_mono _ _ _ _ _ R1); lia).
    pose proof (mrel_mono _ _ _ _ _ R2) as [M1 M2].
    assert (Hq : q <= length inp) by (destruct (Nat.eq_dec p1 q); [lia | apply M2; lia]).
    simpl.
    assert (Hin : mt inp r1 p cs (fun q1 c1 => if p <? q1 then star_loop inp g r1 k (length inp - p) q1 c1 else None) <> None).
    { apply (proj1 IH1). replace (p <? p1) with true by (symmetry; apply Nat.ltb_lt; lia).
      apply (proj2 IH2); [exact Hk | lia]. }
    destruct g.
    + destruct (mt inp r1 p cs _); [congruence|]. exfalso; apply Hin; reflexivity.
    + destruct (k p cs); [congruence|]. exact Hin.
  - intros k fuel Hk Hf.
    pose proof (mrel_mono _ _ _ _ _ R2) as [M1 M2].
    destruct fuel as [|f]; [lia|]. simpl.
    assert (Hin : mt inp r1 p cs (fun q1 c1 => if p <? q1 then star_loop inp g r1 k f q1 c1 else None) <> None).
    { apply (proj1 IH1). replace (p <? p1) with true by (symmetry; apply Nat.ltb_lt; lia).
      apply (proj2 IH2); [exact Hk | lia]. }
    destruct g.
    + destruct (mt inp r1 p cs _); [congruence|]. exfalso; apply Hin; reflexivity.
    + destruct (k p cs); [congruence|]. exact Hin.
  - simpl. apply (proj1 IH). exact Hk.
  - simpl. exact Hk.
  - simpl. rewrite Nat.eqb_refl. exact Hk.
  - simpl. rewrite E. exact Hk.
  - simpl. rewrite E. exact Hk.
  - simpl. rewrite E. exact Hk.
Qed.

Lemma mt_complete r p cs q cs' k : mrel inp r p cs q cs' -> k q cs' <> None -> mt inp r p cs k <> None.
Proof. intros R. exact (proj1 (mt_complete_gen _ _ _ _ _ R) k). Qed.

Lemma search_from_sound r i fuel m : search_from inp r i fuel = Some m ->
  i <= m_start m < i + fuel /\ mrel inp r (m_start m) [] (m_end m) (m_caps m)
  /\ forall j, i <= j < m_start m -> forall q cs, ~ mrel inp r j [] q cs.
Proof.
  revert i. induction fuel as [|f IH]; intros i H; simpl in H; [discriminate|].
  destruct (mt inp r i [] (k_final i)) eqn:E.
  - injection H as <-. destruct (mt_sound _ _ _ _ _ E) as (q & cs' & R & Hk).
    unfold k_final in Hk. injection Hk as <-. simpl. split; [lia|]. split; [exact R|].
    intros j Hj. lia.
  - destruct (IH _ H) as (H1 & H2 & H3). split; [lia|]. split; [exact H2|].
    intros j Hj q cs R. destruct (Nat.eq_dec j i) as [->|Hne].
    + apply (mt_complete _ _ _ _ _ (k_final i) R); [unfold k_final; congruence | exact E].
    + apply (H3 j ltac:(lia) q cs R).
Qed.

Lemma re_exec_sound r i m : re_exec inp r i = Some m ->
  i <= m_start m <= length inp /\ mrel inp r (m_start m) [] (m_end m) (m_caps m)
  /\ forall j, i <= j < m_start m -> forall q cs, ~ mrel inp r j [] q cs.
Proof.
  unfold re_exec. destruct (length inp <? i) eqn:E; [discriminate|]. apply Nat.ltb_ge in E.
  intros H. destruct (search_from_sound _ _ _ _ H) as (H1 & H2 & H3). split; [lia|]. split; assumption.
Qed.

Lemma re_match_sound r m : re_match inp r = Some m ->
  m_start m <= length inp /\ mrel inp r (m_start m) [] (m_end m) (m_caps m)
  /\ forall j, j < m_start m -> forall q cs, ~ mrel inp r j [] q cs.
Proof.
  intros H. destruct (re_exec_sound _ _ _ H) as (H1 & H2 & H3).
  split; [lia|]. split; [exact H2|]. intros j Hj. apply H3. lia.
Qed.

Lemma search_from_complete r i fuel j q cs : i <= j < i + fuel -> mrel inp r j [] q cs ->
  exists m, search_from inp r i fuel = Some m /\ m_start m <= j.
Proof.
  revert i. induction fuel as [|f IH]; intros i Hj R; [lia|]. simpl.
  destruct (mt inp r i [] (k_final i)) eqn:E.
  - eexists; split; [reflexivity|]. destruct (mt_sound _ _ _ _ _ E) as (q' & cs' & _ & Hk).
    unfold k_final in Hk. injection Hk as <-. simpl. lia.
  - destruct (Nat.eq_dec i j) as [->|Hne].
    + exfalso. apply (mt_complete _ _ _ _ _ (k_final j) R); [unfold k_final; congruence | exact E].
    + apply IH; [lia | exact R].
Qed.

Lemma re_exec_complete r i j q cs : i <= j <= length inp -> mrel inp r j [] q cs ->
  exists m, re_exec inp r i = Some m /\ m_start m <= j.
Proof.
  intros Hj R. unfold re_exec. replace (length inp <? i) with false by (symmetry; apply Nat.ltb_ge; lia).
  apply (search_from_complete _ _ _ _ q cs); [lia | exact R].
Qed.

Lemma re_match_complete r j q cs : j <= length inp -> mrel inp r j [] q cs ->
  exists m, re_match inp r = Some m /\ m_start m <= j.
Proof. intros Hj R. apply (re_exec_complete _ 0 j q cs); [lia | exact R]. Qed.

End MatchLemmas.


(** ** Inversion of matcher paths *)

Lemma forall_ascii (P : ascii -> bool) :
  forallb (fun n => P (ascii_of_nat n)) (seq 0 256) = true -> forall a, P a = true.
Proof.
  intros H a. rewrite forallb_forall in H.
  specialize (H (nat_of_ascii a)). rewrite ascii_nat_embedding in H.
  apply H. apply in_seq. pose proof (nat_ascii_bounded a). lia.
Qed.

Lemma idchar_not_ws a : is_idchar a = true -> is_ws a = false.
Proof.
  intros H. pose proof (forall_ascii (fun a => negb (is_idchar a) || negb (is_ws a))
                         ltac:(vm_compute; reflexivity) a) as E.
  cbv beta in E. rewrite H in E. destruct (is_ws a); [discriminate | reflexivity].
Qed.

Section Inv.
Variable inp : str.

Lemma mrel_seq_inv r1 r2 p cs q cs' : mrel inp (RSeq r1 r2) p cs q cs' ->
  exists p1 cs1, mrel inp r1 p cs p1 cs1 /\ mrel inp r2 p1 cs1 q cs'.
Proof. intros H. inversion H; subst. eauto. Qed.

Lemma mrel_chr_inv f p cs q cs' : mrel inp (RChr f) p cs q cs' ->
  q = S p /\ cs' = cs /\ exists a, nth_error inp p = Some a /\ f a = true.
Proof. intros H. inversion H; subst. eauto. Qed.

Lemma mrel_alt_inv r1 r2 p cs q cs' : mrel inp (RAlt r1 r2) p cs q cs' ->
  mrel inp r1 p cs q cs' \/ mrel inp r2 p cs q cs'.
Proof. intros H. inversion H; subst; auto. Qed.

Lemma mrel_group_inv n r p cs q cs' : mrel inp (RGroup n r) p cs q cs' ->
  exists cs1, mrel inp r p cs q cs1 /\ cs' = (n, (p, q)) :: cs1.
Proof. intros H. inversion H; subst. eauto. Qed.

Lemma mrel_eps_inv p cs q cs' : mrel inp REps p cs q cs' -> q = p /\ cs' = cs.
Proof. intros H. inversion H; subst. auto. Qed.

Lemma mrel_bol_inv p cs q cs' : mrel inp RBol p cs q cs' -> p = 0 /\ q = 0 /\ cs' = cs.
Proof. intros H. inversion H; subst. auto. Qed.

Lemma mrel_eol_inv p cs q cs' : mrel inp REol p cs q cs' -> p = length inp /\ q = p /\ cs' = cs.
Proof. intros H. inversion H; subst. auto. Qed.

Lemma mrel_star_chr_inv g f p cs q cs' : mrel inp (RStar g (RChr f)) p cs q cs' ->
  cs' = cs /\ p <= q /\ all_chars inp p q f.
Proof.
  intros H. remember (RStar g (RChr f)) as r eqn:Er. revert Er.
  induction H; intros Er; try discriminate; injection Er as -> ->.
  - split; [reflexivity|]. split; [lia|]. intros j Hj; lia.
  - apply mrel_chr_inv in H as (-> & -> & a & Ha & Fa).
    destruct (IHmrel2 eq_refl) as (-> & Hle & Hall). split; [reflexivity|]. split; [lia|].
    intros j Hj. destruct (Nat.eq_dec j p) as [->|]; [eauto|]. apply Hall. lia.
Qed.

Lemma mrel_plus_chr_inv f p cs q cs' : mrel inp (plus (RChr f)) p cs q cs' ->
  cs' = cs /\ p < q /\ all_chars inp p q f.
Proof.
  intros H. apply mrel_seq_inv in H as (p1 & cs1 & H1 & H2).
  apply mrel_chr_inv in H1 as (-> & -> & a & Ha & Fa).
  apply mrel_star_chr_inv in H2 as (-> & Hle & Hall). split; [reflexivity|]. split; [lia|].
  intros j Hj. destruct (Nat.eq_dec j p) as [->|]; [eauto|]. apply Hall. lia.
Qed.

Lemma mrel_star_chr_build g f p cs q : p <= q -> all_chars inp p q f -> mrel inp (RStar g (RChr f)) p cs q cs.
Proof.
  intros Hle Hall. remember (q - p) as n eqn:En. revert p Hle Hall En.
  induction n as [|n IH]; intros p Hle Hall En.
  - replace q with p by lia. apply MR_star0.
  - destruct (Hall p ltac:(lia)) as (a & Ha & Fa).
    eapply MR_starS; [econstructor; eauto | lia |].
    apply IH; [lia | | lia]. intros j Hj. apply Hall. lia.
Qed.

Lemma mrel_plus_chr_build f p cs q : p < q -> all_chars inp p q f -> mrel inp (plus (RChr f)) p cs q cs.
Proof.
  intros Hlt Hall. destruct (Hall p ltac:(lia)) as (a & Ha & Fa).
  econstructor; [econstructor; eauto|]. apply mrel_star_chr_build; [lia|].
  intros j Hj. apply Hall. lia.
Qed.

End Inv.

(** ** Strings by positions *)

Lemma skipn_nth (l : str) n a : nth_error l n = Some a -> skipn n l = a :: skipn (S n) l.
Proof.
  revert l. induction n as [|n IH]; intros [|b l] H; simpl in *; try discriminate.
  - congruence.
  - apply IH. exact H.
Qed.

Lemma skipn_slice (l : str) p q : p <= q -> skipn p l = slice l p q ++ skipn q l.
Proof.
  intros H. unfold slice. rewrite <- (firstn_skipn (q - p) (skipn p l)) at 1.
  f_equal. rewrite skipn_skipn. f_equal. lia.
Qed.

Lemma nth_slice (l : str) p q j : p + j < q -> nth_error (slice l p q) j = nth_error l (p + j).
Proof.
  intros H. unfold slice. rewrite nth_error_firstn. destruct (j <? q - p) eqn:E.
  - rewrite nth_error_skipn. f_equal.
  - apply Nat.ltb_ge in E. lia.
Qed.

Lemma length_slice (l : str) p q : q <= length l -> length (slice l p q) = q - p.
Proof. intros H. unfold slice. rewrite length_firstn, length_skipn. lia. Qed.

Lemma all_chars_forallb (l : str) p q f : q <= length l -> all_chars l p q f -> forallb f (slice l p q) = true.
Proof.
  intros Hq H. apply forallb_forall. intros x Hx.
  apply In_nth_error in Hx as [j Hj].
  assert (Hlt : j < length (slice l p q)) by (apply nth_error_Some; congruence).
  rewrite length_slice in Hlt by exact Hq.
  rewrite nth_slice in Hj by lia. destruct (H (p + j) ltac:(lia)) as (a & Ha & Fa). congruence.
Qed.

Lemma skipn_length_all (l : str) : skipn (length l) l = [].
Proof. apply skipn_all. Qed.

Lemma forallb_all_chars (l : str) f :
  forallb f l = true -> forall j, j < length l -> exists a, nth_error l j = Some a /\ f a = true.
Proof.
  intros H j Hj. destruct (nth_error l j) as [a|] eqn:E; [|apply nth_error_None in E; lia].
  exists a. split; [reflexivity|]. rewrite forallb_forall in H. apply H. eapply nth_error_In. exact E.
Qed.

(** ** [extractId] *)

(** When [extractId] finds an identifier, it is a non-empty run of word
    characters and dashes, and the line is the returned text, white space, a
    caret, the identifier and white space. *)
Lemma extractId_sound line content id : extractId line = (content, Some id) ->
  id <> [] /\ forallb is_idchar id = true /\
  exists s1 s2, line = content ++ s1 ++ ["^"%char] ++ id ++ s2
                /\ forallb is_ws s1 = true /\ forallb is_ws s2 = true.
Proof.
  unfold extractId, re_replace. destruct (re_match line ID_MARKER) as [m|] eqn:Em; [|discriminate].
  intros [= <- Hid]. destruct (re_match_sound _ _ _ Em) as (Hst & R & _).
  destruct m as [st en cs]; simpl in *.
  unfold ID_MARKER in R; simpl in R.
  apply mrel_seq_inv in R as (a & c1 & R1 & R). apply mrel_star_chr_inv in R1 as (-> & Ha & W1).
  apply mrel_seq_inv in R as (a1 & c2 & R2 & R). apply mrel_chr_inv in R2 as (-> & -> & x & Hx & Fx).
  apply Ascii.eqb_eq in Fx. subst x.
  apply mrel_seq_inv in R as (b & c3 & R3 & R). apply mrel_group_inv in R3 as (c4 & R3 & ->).
  apply mrel_plus_chr_inv in R3 as (-> & Hb & W3).
  apply mrel_seq_inv in R as (c & c5 & R4 & R5). apply mrel_star_chr_inv in R4 as (-> & Hc & W4).
  apply mrel_eol_inv in R5 as (-> & -> & ->).
  unfold group in Hid. simpl in Hid. injection Hid as <-.
  split; [intros E; assert (length (slice line (S a) b) = 0) by (rewrite E; reflexivity);
          rewrite length_slice in H by lia; lia|].
  split; [apply all_chars_forallb; [lia | exact W3]|].
  exists (slice line st a), (slice line b (length line)).
  split; [|split; apply all_chars_forallb; try lia; assumption].
  rewrite skipn_length_all, app_nil_r.
  rewrite <- (firstn_skipn st line) at 1. f_equal.
  rewrite (skipn_slice line st a) by lia. f_equal.
  rewrite (skipn_nth line a "^"%char Hx). cbn [app]. f_equal.
  rewrite (skipn_slice line (S a) b) by lia. f_equal.
  rewrite (skipn_slice line b (length line)) by lia. rewrite skipn_length_all, app_nil_r. reflexivity.
Qed.

Lemma nth_app_l (P Q : str) j : j < length P -> nth_error (P ++ Q) j = nth_error P j.
Proof. apply nth_error_app1. Qed.

Lemma nth_app_r (P Q : str) j : length P <= j -> nth_error (P ++ Q) j = nth_error Q (j - length P).
Proof. apply nth_error_app2. Qed.

Lemma idchar_caret : is_idchar "^"%char = false.
Proof. reflexivity. Qed.

(** Any match of the marker pattern in [P ++ "^" :: id], with [id] made of
    identifier characters, starts its identifier right after that last caret
    and ends at the end. *)
Lemma id_marker_match (P id : str) st en cs :
  id <> [] -> forallb is_idchar id = true ->
  mrel (P ++ "^"%char :: id) ID_MARKER st [] en cs ->
  en = length (P ++ "^"%char :: id) /\ cs = [(1, (S (length P), en))] /\ st <= length P
  /\ all_chars (P ++ "^"%char :: id) st (length P) is_ws.
Proof.
  intros Hne Hid R. set (X := P ++ "^"%char :: id) in *.
  assert (Hpos : 0 < length id) by (destruct id; [congruence | simpl; lia]).
  assert (HX : length X = length P + S (length id)) by (unfold X; rewrite length_app; reflexivity).
  assert (Hid' : forall j, length P < j < length X -> exists a, nth_error X j = Some a /\ is_idchar a = true).
  { intros j Hj. unfold X. rewrite nth_app_r by lia.
    replace (j - length P) with (S (j - S (length P))) by lia. simpl.
    apply (forallb_all_chars id is_idchar Hid). lia. }
  assert (Hc : nth_error X (length P) = Some "^"%char).
  { unfold X. rewrite nth_app_r by lia. rewrite Nat.sub_diag. reflexivity. }
  unfold ID_MARKER in R; simpl in R.
  apply mrel_seq_inv in R as (a & c1 & R1 & R). apply mrel_star_chr_inv in R1 as (-> & Ha & W1).
  apply mrel_seq_inv in R as (a1 & c2 & R2 & R). apply mrel_chr_inv in R2 as (-> & -> & x & Hx & Fx).
  apply Ascii.eqb_eq in Fx. subst x.
  apply mrel_seq_inv in R as (b & c3 & R3 & R). apply mrel_group_inv in R3 as (c4 & R3 & ->).
  apply mrel_plus_chr_inv in R3 as (-> & Hb & W3).
  apply mrel_seq_inv in R as (c & c5 & R4 & R5). apply mrel_star_chr_inv in R4 as (-> & Hc4 & W4).
  apply mrel_eol_inv in R5 as (-> & -> & ->).
  assert (Hblen : b = length X).
  { destruct (Nat.eq_dec b (length X)) as [|Hne']; [assumption|].
    exfalso. assert (Hb' : b < length X) by lia.
    destruct (W4 (length X - 1) ltac:(lia)) as (w & Hw & Fw).
    destruct (Hid' (length X - 1) ltac:(lia)) as (w' & Hw' & Fw').
    rewrite Hw in Hw'. injection Hw' as <-. rewrite (idchar_not_ws w Fw') in Fw. discriminate. }
  subst b.
  assert (Ha_eq : a = length P).
  { destruct (lt_eq_lt_dec a (length P)) as [[Hlt|Heq]|Hgt]; [| exact Heq |].
    - destruct (W3 (length P) ltac:(lia)) as (w & Hw & Fw). rewrite Hc in Hw. injection Hw as <-.
      discriminate.
    - exfalso. destruct (Hid' a ltac:(lia)) as (w & Hw & Fw). rewrite Hx in Hw. injection Hw as <-.
      discriminate. }
  subst a. split; [reflexivity|]. split; [reflexivity|]. split; [lia | exact W1].
Qed.

Lemma id_marker_build (P id : str) j :
  id <> [] -> forallb is_idchar id = true -> j <= length P ->
  all_chars (P ++ "^"%char :: id) j (length P) is_ws ->
  mrel (P ++ "^"%char :: id) ID_MARKER j [] (length (P ++ "^"%char :: id))
       [(1, (S (length P), length (P ++ "^"%char :: id)))].
Proof.
  intros Hne Hid Hj Wj. set (X := P ++ "^"%char :: id) in *.
  assert (Hpos : 0 < length id) by (destruct id; [congruence | simpl; lia]).
  assert (HX : length X = length P + S (length id)) by (unfold X; rewrite length_app; reflexivity).
  assert (Hc : nth_error X (length P) = Some "^"%char).
  { unfold X. rewrite nth_app_r by lia. rewrite Nat.sub_diag. reflexivity. }
  unfold ID_MARKER; simpl.
  eapply MR_seq; [apply mrel_star_chr_build; [exact Hj | exact Wj]|].
  eapply MR_seq; [econstructor; [exact Hc | reflexivity]|].
  eapply MR_seq; [apply MR_group; apply (mrel_plus_chr_build _ _ _ _ (length X))|].
  - lia.
  - intros i Hi. unfold X. rewrite nth_app_r by lia.
    replace (i - length P) with (S (i - S (length P))) by lia. simpl.
    apply (forallb_all_chars id is_idchar Hid). lia.
  - eapply MR_seq; [apply MR_star0|]. apply MR_eol.
Qed.

(** [extractId] finds the identifier after the last caret of a line that ends
    with it. *)
Lemma extractId_suffix (P id : str) j :
  id <> [] -> forallb is_idchar id = true -> j <= length P ->
  all_chars (P ++ "^"%char :: id) j (length P) is_ws ->
  exists st, st <= j /\ extractId (P ++ "^"%char :: id) = (firstn st P, Some id)
  /\ all_chars (P ++ "^"%char :: id) st (length P) is_ws.
Proof.
  intros Hne Hid Hj Wj. set (X := P ++ "^"%char :: id) in *.
  assert (HX : length X = length P + S (length id)) by (unfold X; rewrite length_app; reflexivity).
  destruct (re_match_complete X ID_MARKER j _ _ ltac:(lia) (id_marker_build P id j Hne Hid Hj Wj))
    as (m & Em & Hle).
  destruct (re_match_sound _ _ _ Em) as (_ & R & _).
  destruct m as [st en cs]; simpl in R.
  destruct (id_marker_match P id _ _ _ Hne Hid R) as (-> & -> & Hst & W).
  exists st. split; [simpl in Hle; exact Hle|]. split; [|exact W].
  unfold extractId, re_replace. fold X. rewrite Em. simpl.
  unfold group; simpl. rewrite skipn_length_all, app_nil_r.
  f_equal.
  - unfold X. rewrite firstn_app. replace (st - length P) with 0 by lia. simpl. apply app_nil_r.
  - f_equal. unfold slice. fold X. rewrite HX.
    replace (length P + S (length id) - S (length P)) with (length id) by lia.
    unfold X. rewrite skipn_app. replace (S (length P) - length P) with 1 by lia.
    rewrite skipn_all2 by lia. simpl. apply firstn_all.
Qed.

Lemma extractId_space_caret (T id : str) :
  id <> [] -> forallb is_idchar id = true ->
  (forall a, hd_error (rev T) = Some a -> is_ws a = false) ->
  extractId (T ++ L " ^" ++ id) = (T, Some id).
Proof.
  intros Hne Hid HT.
  replace (T ++ L " ^" ++ id) with ((T ++ [" "%char]) ++ "^"%char :: id)
    by (rewrite <- app_assoc; reflexivity).
  destruct (extractId_suffix (T ++ [" "%char]) id (length T) Hne Hid) as (st & Hst & E & W).
  { rewrite length_app. simpl. lia. }
  { intros j Hj. rewrite length_app in Hj. simpl in Hj. replace j with (length T) by lia.
    rewrite <- app_assoc, nth_app_r, Nat.sub_diag by lia. eexists; split; reflexivity. }
  rewrite E. rewrite length_app in W. simpl in W.
  assert (Hst' : length T <= st).
  { destruct (Nat.le_gt_cases (length T) st) as [|Hlt]; [assumption|].
    exfalso. destruct T as [|t T'] using rev_ind; [simpl in Hlt; lia|].
    clear IHT'. rewrite length_app in *. simpl in *.
    destruct (W (length T') ltac:(lia)) as (w & Hw & Fw).
    rewrite <- !app_assoc in Hw. rewrite nth_app_r in Hw by lia. rewrite Nat.sub_diag in Hw.
    simpl in Hw. injection Hw as <-.
    specialize (HT t). rewrite rev_app_distr in HT. simpl in HT. rewrite (HT eq_refl) in Fw. discriminate. }
  replace st with (length T) by lia.
  rewrite firstn_app, firstn_all, Nat.sub_diag. simpl. rewrite app_nil_r. reflexivity.
Qed.

(** [extractId] gives back the text and the identifier of [T ++ " ^" ++ id],
    when [id] is a non-empty run of identifier characters and [T] does not end
    in white space. *)
Lemma extractId_marker (T id : str) :
  id <> [] -> forallb is_idchar id = true ->
  (forall a, hd_error (rev T) = Some a -> is_ws a = false) ->
  extractId (T ++ L " ^" ++ id) = (T, Some id).
Proof. exact (extractId_space_caret T id). Qed.

(** ** White space *)

Lemma drop_ws_app_nonws (P Q : str) a :
  hd_error Q = Some a -> is_ws a = false -> drop_ws (P ++ Q) = drop_ws P ++ Q.
Proof.
  intros HQ Ha. induction P as [|b P IH]; simpl.
  - destruct Q as [|c Q]; [discriminate|]. injection HQ as ->. simpl. rewrite Ha. reflexivity.
  - destruct (is_ws b); [exact IH | reflexivity].
Qed.

Lemma drop_ws_ws_app (w x : str) : forallb is_ws w = true -> drop_ws (w ++ x) = drop_ws x.
Proof.
  induction w as [|a w IH]; simpl; [reflexivity|]. intros H.
  apply andb_prop in H as [-> H]. apply IH, H.
Qed.

Lemma drop_ws_skipn (l : str) p q : p <= q -> all_chars l p q is_ws ->
  drop_ws (skipn p l) = drop_ws (skipn q l).
Proof.
  intros Hle. remember (q - p) as n eqn:En. revert p Hle En.
  induction n as [|n IH]; intros p Hle En W.
  - replace q with p by lia. reflexivity.
  - destruct (W p ltac:(lia)) as (a & Ha & Fa).
    rewrite (skipn_nth l p a Ha). cbn [drop_ws]. rewrite Fa.
    apply IH; [lia | lia |]. intros j Hj. apply W. lia.
Qed.

Lemma length_drop_ws (s : str) : length (drop_ws s) <= length s.
Proof. induction s as [|a s IH]; simpl; [lia|]. destruct (is_ws a); simpl; lia. Qed.

Lemma drop_ws_hd (s : str) a : hd_error s = Some a -> is_ws a = true -> length (drop_ws s) < length s.
Proof.
  destruct s as [|b s]; [discriminate|]. intros [= ->] Ha. simpl. rewrite Ha.
  pose proof (length_drop_ws s). lia.
Qed.

Lemma drop_ws_nonws_hd (s : str) : (forall a, hd_error s = Some a -> is_ws a = false) -> drop_ws s = s.
Proof. destruct s as [|a s]; [reflexivity|]. intros H. simpl. rewrite (H a eq_refl). reflexivity. Qed.

(** A text that [trim] leaves as it is neither starts nor ends with white space. *)
Lemma trim_fixed (T : str) : trim T = T ->
  (forall a, hd_error T = Some a -> is_ws a = false)
  /\ (forall a, hd_error (rev T) = Some a -> is_ws a = false).
Proof.
  intros E.
  assert (H1 : forall a, hd_error T = Some a -> is_ws a = false).
  { intros a Ha. destruct (is_ws a) eqn:Wa; [|reflexivity]. exfalso.
    pose proof (drop_ws_hd T a Ha Wa) as L1. unfold trim in E.
    assert (L2 : length (rev (drop_ws (rev (drop_ws T)))) = length T) by (rewrite E; reflexivity).
    rewrite length_rev in L2. pose proof (length_drop_ws (rev (drop_ws T))) as L3.
    rewrite length_rev in L3. lia. }
  split; [exact H1|]. unfold trim in E. rewrite (drop_ws_nonws_hd T H1) in E.
  intros a Ha. destruct (is_ws a) eqn:Wa; [|reflexivity]. exfalso.
  pose proof (drop_ws_hd (rev T) a Ha Wa) as L1.
  assert (L2 : length (rev (drop_ws (rev T))) = length T) by (rewrite E; reflexivity).
  rewrite length_rev in L1, L2. lia.
Qed.

Lemma idchar_in_not_ws (id : str) a : forallb is_idchar id = true -> In a id -> is_ws a = false.
Proof. intros H Hin. rewrite forallb_forall in H. apply idchar_not_ws, H, Hin. Qed.

(** [trim] of a text ending in ["^" ++ id]. *)
Lemma trim_caret_id (P id : str) : id <> [] -> forallb is_idchar id = true ->
  trim (P ++ "^"%char :: id) = drop_ws P ++ "^"%char :: id.
Proof.
  intros Hne Hid. unfold trim.
  rewrite (drop_ws_app_nonws P ("^"%char :: id) "^"%char eq_refl eq_refl).
  rewrite rev_app_distr. simpl.
  rewrite <- app_assoc. simpl. rewrite (drop_ws_nonws_hd (rev id ++ "^"%char :: rev (drop_ws P))).
  - rewrite rev_app_distr. simpl. rewrite rev_involutive, <- app_assoc. simpl. rewrite rev_involutive. reflexivity.
  - intros a Ha. destruct (rev id) as [|x xs] eqn:Er.
    + apply (f_equal (@rev ascii)) in Er. rewrite rev_involutive in Er. simpl in Er. congruence.
    + simpl in Ha. injection Ha as <-.
      apply (idchar_in_not_ws id x Hid). apply in_rev. rewrite Er. left. reflexivity.
Qed.

Lemma no_line_term_nth (s : str) j a : no_line_term s = true -> nth_error s j = Some a -> is_line_term a = false.
Proof.
  intros H Hj. unfold no_line_term in H. rewrite forallb_forall in H.
  apply nth_error_In in Hj. apply negb_true_iff, H, Hj.
Qed.

(** A card line ["- [m] " ++ R] under the checkbox pattern. *)
Lemma checkbox_line (m : ascii) (R : str) :
  (m = "x"%char \/ m = " "%char) -> no_line_term R = true ->
  let H := "-"%char :: " "%char :: "["%char :: m :: "]"%char :: " "%char :: R in
  exists cb, re_match H CHECKBOX = Some cb /\ grp H cb 1 = [] /\ grp H cb 2 = [m]
             /\ trim (grp H cb 3) = trim R.
Proof.
  intros Hm HR H.
  assert (HL : length H = 6 + length R) by reflexivity.
  assert (HRj : forall j, 6 <= j -> nth_error H j = nth_error R (j - 6)).
  { intros j Hj. unfold H. do 6 (destruct j as [|j]; [lia|]). simpl. f_equal. lia. }
  assert (Hb : mrel H CHECKBOX 0 [] (length H) [(3, (6, length H)); (2, (3, 4)); (1, (0, 0))]).
  { unfold CHECKBOX; simpl.
    eapply MR_seq; [apply MR_bol|].
    eapply MR_seq; [apply MR_group; apply MR_star0|].
    eapply MR_seq; [econstructor; reflexivity|].
    eapply MR_seq; [apply (mrel_star_chr_build _ _ _ _ _ 2); [lia|]|].
    { intros j Hj. replace j with 1 by lia. eexists; split; reflexivity. }
    eapply MR_seq; [econstructor; reflexivity|].
    eapply MR_seq; [apply MR_group; econstructor; [reflexivity|]|].
    { destruct Hm as [-> | ->]; reflexivity. }
    eapply MR_seq; [econstructor; reflexivity|].
    eapply MR_seq; [apply (mrel_star_chr_build _ _ _ _ _ 6); [lia|]|].
    { intros j Hj. replace j with 5 by lia. eexists; split; reflexivity. }
    eapply MR_seq; [apply MR_group; apply (mrel_star_chr_build _ _ _ _ _ (length H)); [lia|]|].
    { intros j Hj. rewrite HRj by lia. destruct (nth_error R (j - 6)) as [a|] eqn:Ea.
      - exists a. split; [reflexivity|]. apply negb_true_iff. eapply no_line_term_nth; eassumption.
      - apply nth_error_None in Ea. lia. }
    apply MR_eol. }
  destruct (re_match_complete H CHECKBOX 0 _ _ ltac:(lia) Hb) as (cb & Ecb & _).
  exists cb. split; [exact Ecb|].
  destruct (re_match_sound _ _ _ Ecb) as (_ & Rm & _).
  destruct cb as [st en cs]; simpl in Rm.
  unfold CHECKBOX in Rm; simpl in Rm.
  apply mrel_seq_inv in Rm as (p0 & c0 & R0 & Rm). apply mrel_bol_inv in R0 as (-> & -> & ->).
  apply mrel_seq_inv in Rm as (a & c1 & R1 & Rm). apply mrel_group_inv in R1 as (c1' & R1 & ->).
  apply mrel_star_chr_inv in R1 as (-> & _ & W1).
  apply mrel_seq_inv in Rm as (a1 & c2 & R2 & Rm). apply mrel_chr_inv in R2 as (-> & -> & x & Hx & Fx).
  apply Ascii.eqb_eq in Fx. subst x.
  assert (a = 0) as ->.
  { destruct a as [|a]; [reflexivity|]. destruct (W1 0 ltac:(lia)) as (w & Hw & Fw).
    simpl in Hw. injection Hw as <-. discriminate. }
  apply mrel_seq_inv in Rm as (b & c3 & R3 & Rm). apply mrel_star_chr_inv in R3 as (-> & Hb1 & W3).
  apply mrel_seq_inv in Rm as (b1 & c4 & R4 & Rm). apply mrel_chr_inv in R4 as (-> & -> & x & Hx2 & Fx).
  apply Ascii.eqb_eq in Fx. subst x.
  assert (b = 2) as ->.
  { destruct b as [|[|[|b]]]; try reflexivity; try lia.
    - simpl in Hx2. discriminate.
    - destruct (W3 2 ltac:(lia)) as (w & Hw & Fw). simpl in Hw. injection Hw as <-. discriminate. }
  apply mrel_seq_inv in Rm as (d & c5 & R5 & Rm). apply mrel_group_inv in R5 as (c5' & R5 & ->).
  apply mrel_chr_inv in R5 as (-> & -> & x & Hx' & _).
  apply mrel_seq_inv in Rm as (d1 & c6 & R6 & Rm). apply mrel_chr_inv in R6 as (-> & -> & _).
  apply mrel_seq_inv in Rm as (e & c7 & R7 & Rm). apply mrel_star_chr_inv in R7 as (-> & He & W7).
  apply mrel_seq_inv in Rm as (f & c8 & R8 & Rm). apply mrel_group_inv in R8 as (c8' & R8 & ->).
  apply mrel_star_chr_inv in R8 as (-> & Hf & _).
  apply mrel_eol_inv in Rm as (-> & _ & ->).
  unfold grp, group; simpl. split; [reflexivity|]. split; [reflexivity|].
  unfold slice. rewrite firstn_all2 by (rewrite length_skipn; lia).
  unfold trim. rewrite <- (drop_ws_skipn H 5 e) by (try lia; exact W7). reflexivity.
Qed.

Lemma id_tail_first (chk ct id tail : str) :
  ends_line tail ->
  exists t post, (L "- " ++ chk ++ L " " ++ (ct ++ L " ^" ++ id)) ++ tail
                 = L "- " ++ chk ++ L " " ++ t ++ L " ^" ++ id ++ post /\ ends_line post.
Proof.
  intros H. exists ct, tail. split; [|exact H]. rewrite <- !app_assoc. reflexivity.
Qed.

(** The first line of a serialized card: checkbox, text, [^id]. *)
Lemma serializeCard_first_line (c : KanbanCard) :
  exists t post, serializeCard c true
    = L "- " ++ (if completed c then L "[x]" else L "[ ]") ++ L " " ++ t ++ L " ^" ++ card_id c ++ post
    /\ ends_line post.
Proof.
  unfold serializeCard. cbv beta iota zeta.
  destruct (truthy_str (content c)) as [s|], (truthy_str (notePath c)) as [q|];
  try (apply id_tail_first; right; eexists; reflexivity);
  match goal with |- context [match ?l with [] => _ | _ :: _ => _ end] => destruct l end;
  try (rewrite <- (app_nil_r (L "- " ++ _)); apply id_tail_first; left; reflexivity);
  apply id_tail_first; right; eexists; reflexivity.
Qed.

Lemma no_line_term_app (s t : str) : no_line_term (s ++ t) = no_line_term s && no_line_term t.
Proof. apply forallb_app. Qed.

Lemma no_line_term_suffix (s t : str) : no_line_term (s ++ t) = true -> no_line_term t = true.
Proof. rewrite no_line_term_app. intros H. apply andb_prop in H. tauto. Qed.

Lemma no_line_term_nl (r : str) : no_line_term (nl :: r) = false.
Proof. reflexivity. Qed.

(** A card written by [serializeCard] with its id, on one line, is parsed
    back by [parseCard] into a card with the same id and the same check
    state. *)
Lemma parseCard_serializeCard now gen lines i b g (c : KanbanCard) :
  card_id c <> [] -> forallb is_idchar (card_id c) = true ->
  no_line_term (serializeCard c true) = true ->
  nth_error lines i = Some (serializeCard c true) ->
  exists c' e g', parseCard now gen lines i b g = (Some c', e, g')
                  /\ card_id c' = card_id c /\ completed c' = completed c.
Proof.
  intros Hne Hid Hnl Hl.
  destruct (serializeCard_first_line c) as (t & post & E & Hp).
  rewrite E in Hnl, Hl.
  assert (post = []) as ->.
  { destruct Hp as [->|[r ->]]; [reflexivity|].
    rewrite !no_line_term_app in Hnl. rewrite (no_line_term_nl r) in Hnl.
    rewrite !andb_false_r in Hnl. discriminate. }
  set (id := card_id c) in *. set (R := t ++ L " ^" ++ id).
  assert (HR : no_line_term R = true).
  { apply (no_line_term_suffix (L "- " ++ (if completed c then L "[x]" else L "[ ]") ++ L " ")).
    rewrite app_nil_r in Hnl. rewrite <- !app_assoc. exact Hnl. }
  set (m := if completed c then "x"%char else " "%char).
  assert (Hline : L "- " ++ (if completed c then L "[x]" else L "[ ]") ++ L " " ++ t ++ L " ^" ++ id ++ []
                  = "-"%char :: " "%char :: "["%char :: m :: "]"%char :: " "%char :: R).
  { unfold m, R. rewrite app_nil_r. destruct (completed c); reflexivity. }
  rewrite Hline in Hl.
  destruct (checkbox_line m R ltac:(unfold m; destruct (completed c); auto) HR)
    as (cb & Ecb & G1 & G2 & G3).
  unfold parseCard. rewrite Hl, Ecb, G2, G3.
  assert (HRc : R = (t ++ [" "%char]) ++ "^"%char :: id) by (unfold R; rewrite <- app_assoc; reflexivity).
  rewrite HRc, (trim_caret_id _ _ Hne Hid).
  destruct (extractId_suffix (drop_ws (t ++ [" "%char])) id (length (drop_ws (t ++ [" "%char]))) Hne Hid
              (le_n _) ltac:(intros j Hj; lia)) as (st & _ & Ex & _).
  rewrite Ex. destruct id as [|x xs] eqn:Eid; [congruence|].
  destruct (parseInlineMetadata (firstn st (drop_ws (t ++ [" "%char])))) as [am md].
  destruct (if truthy (md_get md (L "note")) then _ else _) as [np md'].
  destruct (parseTags am) as [u tg].
  do 3 eexists. split; [reflexivity|]. split; [reflexivity|].
  simpl. unfold m. destruct (completed c); reflexivity.
Qed.

(** ** Lanes *)

Lemma split_on_app (sep : ascii) (H rest : str) :
  forallb (fun a => negb (Ascii.eqb a sep)) H = true ->
  split_on sep (H ++ sep :: rest) = H :: split_on sep rest.
Proof.
  induction H as [|a H IH]; simpl; intros Hf.
  - rewrite Ascii.eqb_refl. reflexivity.
  - apply andb_prop in Hf as [Ha Hf]. apply negb_true_iff in Ha. rewrite Ha, (IH Hf). reflexivity.
Qed.

Lemma no_line_term_no_nl (s : str) : no_line_term s = true -> forallb (fun a => negb (Ascii.eqb a nl)) s = true.
Proof.
  unfold no_line_term. induction s as [|a s IH]; simpl; [reflexivity|]. intros H.
  apply andb_prop in H as [Ha H]. rewrite (IH H), andb_true_r.
  destruct (Ascii.eqb_spec a nl) as [->|]; [discriminate | reflexivity].
Qed.

Lemma idchar_not_line_term a : is_idchar a = true -> is_line_term a = false.
Proof.
  intros H. pose proof (forall_ascii (fun a => negb (is_idchar a) || negb (is_line_term a))
                         ltac:(vm_compute; reflexivity) a) as E.
  cbv beta in E. rewrite H in E. destruct (is_line_term a); [discriminate | reflexivity].
Qed.

Lemma idchars_no_line_term (id : str) : forallb is_idchar id = true -> no_line_term id = true.
Proof.
  unfold no_line_term. intros H. rewrite forallb_forall in H |- *. intros a Ha.
  rewrite (idchar_not_line_term a (H a Ha)). reflexivity.
Qed.

(** A lane header ["## " ++ X] under the lane title pattern. *)
Lemma lane_title_line (X : str) : X <> [] -> no_line_term X = true ->
  let H := "#"%char :: "#"%char :: " "%char :: X in
  exists m, re_match H LANE_TITLE = Some m /\ trim (grp H m 1) = trim X.
Proof.
  intros Hne HX H.
  assert (HXj : forall j, 3 <= j -> nth_error H j = nth_error X (j - 3)).
  { intros j Hj. unfold H. do 3 (destruct j as [|j]; [lia|]). simpl. f_equal. lia. }
  assert (HL : length H = 3 + length X) by reflexivity.
  assert (Hb : mrel H LANE_TITLE 0 [] (length H) [(1, (3, length H))]).
  { unfold LANE_TITLE; simpl.
    eapply MR_seq; [apply MR_bol|].
    eapply MR_seq; [eapply MR_seq; econstructor; reflexivity|].
    eapply MR_seq; [apply (mrel_plus_chr_build _ _ _ _ 3); [lia|]|].
    { intros j Hj. replace j with 2 by lia. eexists; split; reflexivity. }
    eapply MR_seq; [apply MR_group; apply (mrel_plus_chr_build _ _ _ _ (length H))|apply MR_eol].
    - destruct X; [congruence | simpl; lia].
    - intros j Hj. rewrite HXj by lia. destruct (nth_error X (j - 3)) as [a|] eqn:Ea.
      + exists a. split; [reflexivity|]. apply negb_true_iff. eapply no_line_term_nth; eassumption.
      + apply nth_error_None in Ea. lia. }
  destruct (re_match_complete H LANE_TITLE 0 _ _ ltac:(lia) Hb) as (m & Em & _).
  exists m. split; [exact Em|].
  destruct (re_match_sound _ _ _ Em) as (_ & Rm & _).
  destruct m as [st en cs]; simpl in Rm.
  unfold LANE_TITLE in Rm; simpl in Rm.
  apply mrel_seq_inv in Rm as (p0 & c0 & R0 & Rm). apply mrel_bol_inv in R0 as (-> & -> & ->).
  apply mrel_seq_inv in Rm as (p1 & c1 & R1 & Rm). apply mrel_seq_inv in R1 as (p2 & c2 & R2 & R3).
  apply mrel_chr_inv in R2 as (-> & -> & _). apply mrel_chr_inv in R3 as (-> & -> & _).
  apply mrel_seq_inv in Rm as (a & c3 & R4 & Rm). apply mrel_plus_chr_inv in R4 as (-> & Ha & W4).
  apply mrel_seq_inv in Rm as (e & c5 & R5 & Rm). apply mrel_group_inv in R5 as (c6 & R5 & ->).
  apply mrel_plus_chr_inv in R5 as (-> & He & _).
  apply mrel_eol_inv in Rm as (-> & _ & ->).
  unfold grp, group; simpl.
  unfold slice. rewrite firstn_all2 by (rewrite length_skipn; lia).
  unfold trim. rewrite <- (drop_ws_skipn H 2 a) by (try lia; exact W4). reflexivity.
Qed.

(** A lane written by [serializeLane] is parsed back by [parseLane] with the
    same id and title, when the title is trimmed and on one line. *)
Lemma parseLane_serializeLane now gen (lane : KanbanLane) g :
  lane_id lane <> [] -> forallb is_idchar (lane_id lane) = true ->
  no_line_term (lane_title lane) = true -> trim (lane_title lane) = lane_title lane ->
  exists l' g', parseLane now gen (serializeLane lane) g = (Some l', g')
                /\ lane_id l' = lane_id lane /\ lane_title l' = lane_title lane.
Proof.
  intros Hne Hid Hnl Htr.
  set (T := lane_title lane) in *. set (id := lane_id lane) in *.
  set (X := T ++ L " ^" ++ id).
  assert (HX : no_line_term X = true).
  { unfold X. rewrite !no_line_term_app, Hnl, (idchars_no_line_term id Hid). reflexivity. }
  assert (Es : serializeLane lane
               = ("#"%char :: "#"%char :: " "%char :: X)
                 ++ nl :: join [nl] ([] :: map (fun c => serializeCard c true) (cards lane) ++ [[]]))
    by reflexivity.
  unfold parseLane. unfold split_lines. rewrite Es.
  rewrite split_on_app by (apply no_line_term_no_nl; exact HX). simpl hd.
  destruct (lane_title_line X ltac:(unfold X; destruct T; discriminate) HX) as (m & Em & Gm).
  rewrite Em, Gm.
  assert (Ex : extractId (trim X) = (T, Some id)).
  { destruct (trim_fixed T Htr) as [Hh Ht].
    replace X with ((T ++ [" "%char]) ++ "^"%char :: id) by (unfold X; rewrite <- app_assoc; reflexivity).
    rewrite (trim_caret_id _ _ Hne Hid).
    destruct T as [|a T'] eqn:ET.
    - simpl. destruct (extractId_suffix [] id 0 Hne Hid (le_n 0) ltac:(intros j Hj; simpl in Hj; lia))
        as (st & _ & E & _).
      simpl in E. rewrite E. destruct st; reflexivity.
    - rewrite (drop_ws_nonws_hd ((a :: T') ++ [" "%char])) by exact Hh.
      rewrite <- app_assoc. apply (extractId_space_caret (a :: T') id Hne Hid Ht). }
  rewrite Ex. destruct id as [|x xs] eqn:Eid; [congruence|].
  destruct (lane_cards now gen _ _ 1 g) as [cs g2].
  do 2 eexists. split; [reflexivity|]. split; reflexivity.
Qed.

Section Days.
Local Open Scope Z_scope.

Lemma setDate_back t k : setDate t (getDate t - k) = t - k.
Proof. replace (getDate t - k) with (getDate t + - k) by lia. rewrite setDate_shift. lia. Qed.

(** [getNextDayOfWeek from target false] is the first day strictly after
    [from], within a week, that falls on [target]. *)
Lemma getNextDayOfWeek_this (from target : date) : 0 <= target <= 6 ->
  let r := getNextDayOfWeek from target false in
  from < r <= from + 7 /\ getDay r = target /\ (forall k, from < k < r -> getDay k <> target).
Proof.
  intros Ht. unfold getNextDayOfWeek. simpl.
  pose proof (getDay_range from) as Hc. set (cur := getDay from) in *.
  destruct (target - cur <=? 0) eqn:E; simpl.
  - apply Z.leb_le in E. rewrite setDate_shift, getDay_shift. fold cur.
    split; [lia|]. split; [rewrite mod7_high by lia; lia|].
    intros k Hk. replace k with (from + (k - from)) by lia. rewrite getDay_shift. fold cur.
    destruct (Z.ltb_spec (cur + (k - from)) 7).
    + rewrite mod7_low by lia. lia.
    + rewrite mod7_high by lia. lia.
  - apply Z.leb_gt in E. rewrite setDate_shift, getDay_shift. fold cur.
    split; [lia|]. split; [rewrite mod7_low by lia; lia|].
    intros k Hk. replace k with (from + (k - from)) by lia. rewrite getDay_shift. fold cur.
    rewrite mod7_low by lia. lia.
Qed.

(** [getNextDayOfWeek from target true] falls on [target] in the week
    (Sunday to Saturday) after the week of [from]. *)
Lemma getNextDayOfWeek_next_week (from target : date) : 0 <= target <= 6 ->
  let r := getNextDayOfWeek from target true in
  r - getDay r = from - getDay from + 7 /\ getDay r = target.
Proof.
  intros Ht. unfold getNextDayOfWeek. simpl.
  pose proof (getDay_range from) as Hc. set (cur := getDay from) in *.
  replace ((target - cur <=? 0) || (target - cur <? 7)) with true
    by (symmetry; apply orb_true_iff; right; apply Z.ltb_lt; lia).
  rewrite setDate_shift, getDay_shift. fold cur.
  rewrite mod7_high by lia. lia.
Qed.

(** [getLastDayOfWeek from target] is the last day strictly before [from],
    within a week, that falls on [target]. *)
Lemma getLastDayOfWeek_spec (from target : date) : 0 <= target <= 6 ->
  let r := getLastDayOfWeek from target in
  from - 7 <= r < from /\ getDay r = target /\ (forall k, r < k < from -> getDay k <> target).
Proof.
  intros Ht. unfold getLastDayOfWeek. simpl.
  pose proof (getDay_range from) as Hc. set (cur := getDay from) in *.
  destruct (cur - target <=? 0) eqn:E; rewrite setDate_back.
  - apply Z.leb_le in E.
    replace (from - (cur - target + 7)) with (from + (target - cur - 7)) by lia.
    rewrite getDay_shift. fold cur.
    split; [lia|]. split.
    + replace (cur + (target - cur - 7)) with (target + -1 * 7) by lia.
      rewrite Z.mod_add by lia. apply mod7_low. lia.
    + intros k Hk. replace k with (from + (k - from)) by lia. rewrite getDay_shift. fold cur.
      destruct (Z.leb_spec 0 (cur + (k - from))).
      * rewrite mod7_low by lia. lia.
      * replace (cur + (k - from)) with (cur + (k - from) + 7 + -1 * 7) by lia.
        rewrite Z.mod_add by lia. rewrite mod7_low by lia. lia.
  - apply Z.leb_gt in E.
    replace (from - (cur - target)) with (from + (target - cur)) by lia.
    rewrite getDay_shift. fold cur.
    split; [lia|]. split; [rewrite mod7_low by lia; lia|].
    intros k Hk. replace k with (from + (k - from)) by lia. rewrite getDay_shift. fold cur.
    rewrite mod7_low by lia. lia.
Qed.

(** A daily rule moves the date on by its interval (1 when absent or 0). *)
Lemma getNextOccurrence_daily (p : RecurrencePattern) (from : date) :
  frequency p = daily -> getNextOccurrence p from = from + interval_or_1 p.
Proof. intros Hf. unfold getNextOccurrence. rewrite Hf. apply setDate_shift. Qed.

(** A weekly rule without days of the week moves the date on by its
    interval in weeks. *)
Lemma getNextOccurrence_weekly_plain (p : RecurrencePattern) (from : date) :
  frequency p = weekly -> (daysOfWeek p = None \/ daysOfWeek p = Some []) ->
  getNextOccurrence p from = from + 7 * interval_or_1 p.
Proof.
  intros Hf Hd. unfold getNextOccurrence. rewrite Hf.
  destruct Hd as [-> | ->]; apply setDate_shift.
Qed.

End Days.

Section Civil.
Local Open Scope Z_scope.

Lemma civil_ok_era : all_from 400 0 civil_ok = true.
Proof. vm_compute. reflexivity. Qed.

Lemma days_from_civil_period y m d k :
  days_from_civil (y + 400 * k) m d = days_from_civil y m d + 146097 * k.
Proof.
  unfold days_from_civil. cbv zeta.
  set (doy := (153 * (m + (if m >? 2 then -3 else 9)) + 2) / 5 + d - 1).
  destruct (m <=? 2).
  - replace (y + 400 * k - 1) with ((y - 1) + k * 400) by lia. rewrite Z.div_add by lia.
    set (q := (y - 1) / 400).
    replace (y - 1 + k * 400 - (q + k) * 400) with (y - 1 - q * 400) by lia. lia.
  - replace (y + 400 * k) with (y + k * 400) by lia. rewrite Z.div_add by lia.
    set (q := y / 400).
    replace (y + k * 400 - (q + k) * 400) with (y - q * 400) by lia. lia.
Qed.

Lemma civil_from_days_period t k :
  civil_from_days (t + 146097 * k) =
  let '(y, m, d) := civil_from_days t in (y + 400 * k, m, d).
Proof.
  unfold civil_from_days. cbv zeta.
  replace (t + 146097 * k + 719468) with ((t + 719468) + k * 146097) by lia.
  rewrite Z.div_add by lia.
  set (e := (t + 719468) / 146097).
  replace (t + 719468 + k * 146097 - (e + k) * 146097) with (t + 719468 - e * 146097) by lia.
  set (doe := t + 719468 - e * 146097).
  set (yoe := (doe - doe / 1460 + doe / 36524 - doe / 146096) / 365).
  set (doy := doe - (365 * yoe + yoe / 4 - yoe / 100)).
  set (mp := (5 * doy + 2) / 153).
  destruct (mp <? 10); cbv beta iota.
  - destruct (mp + 3 <=? 2); f_equal; try f_equal; lia.
  - destruct (mp - 9 <=? 2); f_equal; try f_equal; lia.
Qed.

(** [civil_from_days] undoes [days_from_civil] on the days 1..28 of any month. *)
Lemma civil_roundtrip y m d : 1 <= m <= 12 -> 1 <= d <= 28 ->
  civil_from_days (days_from_civil y m d) = (y, m, d).
Proof.
  intros Hm Hd.
  pose proof (all_from_spec _ _ _ civil_ok_era (y mod 400)) as E.
  specialize (E ltac:(pose proof (Z.mod_pos_bound y 400 ltac:(lia)); simpl; lia)).
  unfold civil_ok in E. rewrite forallb_forall in E.
  specialize (E m ltac:(apply in_map_iff; exists (Z.to_nat m); split;
                          [apply Z2Nat.id; lia | apply in_seq; lia])).
  rewrite forallb_forall in E.
  specialize (E d ltac:(apply in_map_iff; exists (Z.to_nat d); split;
                          [apply Z2Nat.id; lia | apply in_seq; lia])).
  rewrite (Z.div_mod y 400) at 1 by lia.
  replace (400 * (y / 400) + y mod 400) with (y mod 400 + 400 * (y / 400)) by lia.
  rewrite days_from_civil_period, civil_from_days_period.
  destruct (civil_from_days (days_from_civil (y mod 400) m d)) as [[y' m'] d'].
  apply andb_true_iff in E as [E E3]. apply andb_true_iff in E as [E1 E2].
  apply Z.eqb_eq in E1, E2, E3. subst. f_equal. f_equal. pose proof (Z.div_mod y 400). lia.
Qed.

Lemma getDate_pos t : 1 <= getDate t.
Proof.
  unfold getDate, civil_from_days. cbv zeta.
  set (z' := t + 719468). set (era := z' / 146097). set (doe := z' - era * 146097).
  set (yoe := (doe - doe / 1460 + doe / 36524 - doe / 146096) / 365).
  set (doy := doe - (365 * yoe + yoe / 4 - yoe / 100)).
  set (mp := (5 * doy + 2) / 153).
  assert (H1 : 153 * mp <= 5 * doy + 2) by (apply Z.mul_div_le; lia).
  assert (H2 : (153 * mp + 2) / 5 < doy + 1) by (apply Z.div_lt_upper_bound; lia).
  destruct (mp <? 10); cbv beta iota; lia.
Qed.

(** [t.setMonth(n)] on a day 1..28 keeps the day and lands [n] months after
    January of its year. *)
Lemma setMonth_spec t n : getDate t <= 28 ->
  let r := setMonth t n in
  getDate r = getDate t /\ getMonth r = n mod 12 /\ getFullYear r = getFullYear t + n / 12.
Proof.
  intros Hd. pose proof (getDate_pos t) as Hp.
  unfold setMonth, make_day. rewrite <- days_from_civil_day.
  pose proof (Z.mod_pos_bound n 12 ltac:(lia)).
  set (D := getDate t) in *. set (Y := getFullYear t).
  unfold getDate, getMonth, getFullYear.
  rewrite civil_roundtrip by lia. cbv beta iota. lia.
Qed.

Lemma getMonth_range t : 0 <= getMonth t <= 11.
Proof.
  unfold getMonth. pose proof (civil_from_days_spec t) as H.
  destruct (civil_from_days t) as [[y m] d]. lia.
Qed.

(** [t.setFullYear(n)] on a day 1..28 keeps the month and the day. *)
Lemma setFullYear_spec t n : getDate t <= 28 ->
  let r := setFullYear t n in
  getDate r = getDate t /\ getMonth r = getMonth t /\ getFullYear r = n.
Proof.
  intros Hd. pose proof (getDate_pos t) as Hp. pose proof (getMonth_range t) as Hm.
  unfold setFullYear, make_day. rewrite <- days_from_civil_day.
  rewrite Z.div_small, Z.mod_small by lia. rewrite Z.add_0_r.
  set (D := getDate t) in *. set (M := getMonth t) in *.
  unfold getDate, getMonth, getFullYear.
  rewrite civil_roundtrip by lia. cbv beta iota. lia.
Qed.

(** A monthly rule without a day of the month moves a date on a day 1..28 by
    its interval in months, keeping the day. *)
Lemma getNextOccurrence_monthly (p : RecurrencePattern) (from : date) :
  frequency p = monthly -> (dayOfMonth p = None \/ dayOfMonth p = Some 0) -> getDate from <= 28 ->
  let r := getNextOccurrence p from in
  getDate r = getDate from
  /\ 12 * getFullYear r + getMonth r = 12 * getFullYear from + getMonth from + interval_or_1 p.
Proof.
  intros Hf Hdom Hd.
  assert (Hr : getNextOccurrence p from = setMonth from (getMonth from + interval_or_1 p)).
  { unfold getNextOccurrence. rewrite Hf. destruct Hdom as [-> | ->]; reflexivity. }
  cbv zeta. rewrite Hr.
  destruct (setMonth_spec from (getMonth from + interval_or_1 p) Hd) as (E1 & E2 & E3).
  rewrite E1, E2, E3. split; [reflexivity|].
  pose proof (Z.div_mod (getMonth from + interval_or_1 p) 12). lia.
Qed.

(** A yearly rule moves a date on a day 1..28 by its interval in years,
    keeping the month and the day. *)
Lemma getNextOccurrence_yearly (p : RecurrencePattern) (from : date) :
  frequency p = yearly -> getDate from <= 28 ->
  let r := getNextOccurrence p from in
  getDate r = getDate from /\ getMonth r = getMonth from
  /\ getFullYear r = getFullYear from + interval_or_1 p.
Proof.
  intros Hf Hd. unfold getNextOccurrence. rewrite Hf. apply setFullYear_spec. exact Hd.
Qed.

End Civil.

Lemma str_eqb_spec (s t : str) : str_eqb s t = true <-> s = t.
Proof.
  revert t. induction s as [|a s IH]; intros [|b t]; simpl; try (split; congruence).
  rewrite andb_true_iff, IH, Ascii.eqb_eq. split; [intros [-> ->]; reflexivity | intros [= -> ->]; auto].
Qed.

Lemma to_lower_idem a : to_lower (to_lower a) = to_lower a.
Proof.
  pose proof (forall_ascii (fun a => Ascii.eqb (to_lower (to_lower a)) (to_lower a))
                ltac:(vm_compute; reflexivity) a) as E.
  apply Ascii.eqb_eq in E. exact E.
Qed.

Lemma to_lower_str_idem (s : str) : to_lower_str (to_lower_str s) = to_lower_str s.
Proof. unfold to_lower_str. rewrite map_map. apply map_ext. apply to_lower_idem. Qed.

Lemma md_set_keys md k v x : In x (map fst (md_set md k v)) -> In x (map fst md) \/ x = k.
Proof.
  induction md as [|[k' v'] md IH]; simpl.
  - intros [<-|[]]. right. reflexivity.
  - destruct (str_eqb k' k) eqn:E; simpl.
    + intros [<-|H]; auto.
    + intros [<-|H]; [auto|]. destruct (IH H); auto.
Qed.

Lemma md_set_ok md k v : md_ok md -> to_lower_str k = k ->
  (k = L "progress" -> exists n, v = MNum n) -> (k <> L "progress" -> exists s, v = MStr s) ->
  md_ok (md_set md k v).
Proof.
  intros [Hnd Hall] Hk H1 H2. induction md as [|[k' v'] md IH]; simpl.
  - split; [constructor; [intros []| constructor]|].
    intros k0 v0 [[= <- <-]|[]]. auto.
  - simpl in Hnd. inversion Hnd as [|? ? Hni Hnd']; subst.
    destruct (str_eqb k' k) eqn:E.
    + apply str_eqb_spec in E. subst k'. split; [simpl; constructor; assumption|].
      intros k0 v0 [[= <- <-]|Hin]; [auto|]. apply Hall. right. exact Hin.
    + assert (Hk' : k' <> k) by (intros ->; rewrite (proj2 (str_eqb_spec k k) eq_refl) in E; discriminate).
      destruct (IH Hnd' (fun k0 v0 Hin => Hall k0 v0 (or_intror Hin))) as [Hnd2 Hall2].
      split.
      * simpl. constructor; [|exact Hnd2]. intros Hin. destruct (md_set_keys _ _ _ _ Hin); congruence.
      * intros k0 v0 [[= <- <-]|Hin]; [apply Hall; left; reflexivity | apply Hall2, Hin].
Qed.

(** Dropping properties keeps the keys distinct. *)
Lemma md_filter_keys (keep : str * mval -> bool) (md : metadata_t) :
  NoDup (map fst md) -> NoDup (map fst (filter keep md)).
Proof.
  intros H. induction md as [|[k v] md IH]; cbn [filter]; [exact H|].
  apply NoDup_cons_iff in H as [Hk Hd]. specialize (IH Hd).
  destruct (keep (k, v)); [|exact IH]. cbn [map fst]. apply NoDup_cons; [|exact IH].
  rewrite in_map_iff. intros ([k' v'] & Ek & Hin). cbn [fst] in Ek. subst k'.
  apply filter_In in Hin as [Hin _]. apply Hk. exact (in_map fst _ _ Hin).
Qed.

Lemma md_delete_ok md k : md_ok md -> md_ok (md_delete md k).
Proof.
  intros [Hnd Hall]. split; [apply md_filter_keys, Hnd|].
  intros k0 v0 Hin. apply filter_In in Hin as [Hin _]. apply Hall, Hin.
Qed.

Lemma progress_lower : to_lower_str (L "progress") = L "progress".
Proof. reflexivity. Qed.

Lemma metadata_step_ok text m md : md_ok md ->
  md_ok (if str_eqb (to_lower_str (grp text m 1)) (L "progress") then
           match parse_int (replace_first (trim (grp text m 2)) (L "%") []) with
           | Some n => md_set md (to_lower_str (grp text m 1)) (MNum n)
           | None => md_set md (to_lower_str (grp text m 1)) (MNum 0)
           end
         else md_set md (to_lower_str (grp text m 1)) (MStr (trim (grp text m 2)))).
Proof.
  intros Hmd. destruct (str_eqb (to_lower_str (grp text m 1)) (L "progress")) eqn:E.
  - apply str_eqb_spec in E. rewrite E.
    destruct (parse_int _); (apply md_set_ok; [exact Hmd | reflexivity | eauto | congruence]).
  - apply md_set_ok; [exact Hmd | apply to_lower_str_idem | | eauto].
    intros E'. rewrite E' in E. discriminate.
Qed.

Lemma parseInlineMetadata_ok text : md_ok (snd (parseInlineMetadata text)).
Proof.
  unfold parseInlineMetadata.
  match goal with |- context [fold_left ?f ?l ?a] =>
    assert (Hf : forall l' a', md_ok (snd a') -> md_ok (snd (fold_left f l' a'))) end.
  { induction l' as [|m l' IH]; intros [ct md] Hmd; simpl; [exact Hmd|].
    apply IH. exact (metadata_step_ok text m md Hmd). }
  destruct (fold_left _ _ _) as [ct md] eqn:E.
  assert (Hmd : md_ok md).
  { change md with (snd (ct, md)). rewrite <- E. apply Hf.
    split; [constructor | intros k v []]. }
  assert (Hmd' : forall ct' md', (ct', md') =
      match re_match ct PROGRESS_BARE with
      | Some m => match md_get md (L "progress") with
                  | None => (trim (replace_first ct (group0 ct m) []),
                             md_set md (L "progress") (MNum (int_group ct m)))
                  | Some _ => (ct, md) end
      | None => (ct, md) end -> md_ok md').
  { intros ct' md' Heq. destruct (re_match ct PROGRESS_BARE); [destruct (md_get md _)|];
    injection Heq as -> ->; try exact Hmd.
    apply md_set_ok; [exact Hmd | reflexivity | eauto | intros Hn; exfalso; apply Hn; reflexivity]. }
  match goal with |- context [let '(_, _) := ?t in match re_match _ PROJECT_BARE with _ => _ end] =>
    destruct t as [ct2 md2] eqn:E2 end.
  specialize (Hmd' ct2 md2 eq_refl).
  destruct (re_match ct2 PROJECT_BARE); [destruct (negb _)|]; simpl; try exact Hmd'.
  apply md_set_ok; [exact Hmd' | reflexivity | discriminate | eauto].
Qed.

Lemma md_get_in md k v : NoDup (map fst md) -> In (k, v) md -> md_get md k = Some v.
Proof.
  unfold md_get. induction md as [|[k' v'] md IH]; simpl; [intros _ []|].
  intros Hnd Hin. inversion Hnd as [|? ? Hni Hnd']; subst.
  destruct Hin as [[= -> ->]|Hin].
  - rewrite (proj2 (str_eqb_spec k k) eq_refl). reflexivity.
  - destruct (str_eqb k' k) eqn:E.
    + apply str_eqb_spec in E. subst k'. exfalso. apply Hni. apply (in_map fst _ _ Hin).
    + apply IH; assumption.
Qed.

(** The metadata of a parsed card has distinct lower-case keys, a number
    under [progress], strings elsewhere, and an empty [note] if any. *)
Lemma parseCard_metadata now gen lines i b g c e g' :
  parseCard now gen lines i b g = (Some c, e, g') ->
  md_ok (metadata c) /\ (forall v, In (L "note", v) (metadata c) -> v = MStr []).
Proof.
  unfold parseCard.
  destruct (nth_error lines i) as [line|]; [|discriminate].
  destruct (re_match line CHECKBOX) as [cb|]; [|discriminate].
  destruct (extractId (trim (grp line cb 3))) as [tw eid].
  pose proof (parseInlineMetadata_ok tw) as Hok.
  destruct (parseInlineMetadata tw) as [am md]. simpl in Hok.
  destruct (truthy (md_get md (L "note"))) eqn:Et.
  - destruct (parseTags am) as [u tg].
    match goal with |- context [match ?t with (_, _) => _ end] => destruct t as [cid g2] end.
    intros [= <- _ _]. simpl. split; [apply md_delete_ok, Hok|].
    intros v Hin. unfold md_delete in Hin. apply filter_In in Hin as [_ Hn].
    simpl in Hn. discriminate.
  - destruct (parseTags am) as [u tg].
    match goal with |- context [match ?t with (_, _) => _ end] => destruct t as [cid g2] end.
    intros [= <- _ _]. simpl. split; [exact Hok|].
    intros v Hin. destruct Hok as [Hnd Hall].
    rewrite (md_get_in md (L "note") v Hnd Hin) in Et.
    destruct (Hall _ _ Hin) as (_ & _ & Hs). destruct (Hs ltac:(discriminate)) as [s ->].
    destruct s; [reflexivity | discriminate].
Qed.

Section Exact.
Variable inp : str.

Lemma mt_seq_eq r1 r2 p cs k : mt inp (RSeq r1 r2) p cs k = mt inp r1 p cs (fun p1 cs1 => mt inp r2 p1 cs1 k).
Proof. reflexivity. Qed.

Lemma mt_group_eq n r1 p cs k : mt inp (RGroup n r1) p cs k = mt inp r1 p cs (fun p1 cs1 => k p1 ((n, (p, p1)) :: cs1)).
Proof. reflexivity. Qed.

Lemma mt_alt_l r1 r2 p cs k m : mt inp r1 p cs k = Some m -> mt inp (RAlt r1 r2) p cs k = Some m.
Proof. intros H. simpl. rewrite H. reflexivity. Qed.

Lemma mt_chr_ok f p cs k a : nth_error inp p = Some a -> f a = true -> mt inp (RChr f) p cs k = k (S p) cs.
Proof. intros H F. simpl. unfold char_at. rewrite H, F. reflexivity. Qed.

Lemma mt_chr_fail f p cs k : (forall a, nth_error inp p = Some a -> f a = false) -> mt inp (RChr f) p cs k = None.
Proof.
  intros H. simpl. unfold char_at. destruct (nth_error inp p) as [a|] eqn:E; [|reflexivity].
  rewrite (H a eq_refl). reflexivity.
Qed.

Lemma skipn_cons_inv (l : str) p a t : skipn p l = a :: t -> nth_error l p = Some a /\ skipn (S p) l = t.
Proof.
  revert l. induction p as [|p IH]; intros [|b l] H; simpl in *; try discriminate.
  - injection H as -> ->. auto.
  - apply IH. exact H.
Qed.

Lemma mt_chrs_ok (s : list ascii) : forall p cs k rest, s <> [] -> skipn p inp = s ++ rest ->
  mt inp (seqs (map chr s)) p cs k = k (p + length s) cs.
Proof.
  induction s as [|a s IH]; intros p cs k rest Hne H; [congruence|].
  simpl in H. apply skipn_cons_inv in H as [Ha Hr].
  destruct s as [|b s].
  - simpl. unfold char_at. rewrite Ha, Ascii.eqb_refl. f_equal. lia.
  - change (seqs (map chr (a :: b :: s))) with (RSeq (chr a) (seqs (map chr (b :: s)))).
    rewrite mt_seq_eq. rewrite (mt_chr_ok _ _ _ _ a Ha (Ascii.eqb_refl a)).
    rewrite (IH (S p) cs k rest ltac:(discriminate) Hr). f_equal. simpl. lia.
Qed.

Lemma mt_lit_ok (s : string) p cs k rest : L s <> [] -> skipn p inp = L s ++ rest ->
  mt inp (lit s) p cs k = k (p + length (L s)) cs.
Proof. apply mt_chrs_ok. Qed.

Lemma all_chars_bound p q f : p < q -> all_chars inp p q f -> q <= length inp.
Proof.
  intros Hlt H. destruct (H (q - 1) ltac:(lia)) as (a & Ha & _).
  assert (q - 1 < length inp) by (apply nth_error_Some; congruence). lia.
Qed.

(** A greedy star of a character class stops where the class does. *)
Lemma mt_star_max f p q cs k m : p <= q -> all_chars inp p q f ->
  (forall a, nth_error inp q = Some a -> f a = false) -> k q cs = Some m ->
  mt inp (RStar true (RChr f)) p cs k = Some m.
Proof.
  intros Hle W Hq Hk. rewrite mt_star.
  assert (Hfuel : q - p < S (length inp - p)).
  { destruct (Nat.eq_dec p q) as [->|Hne]; [lia|]. pose proof (all_chars_bound p q f ltac:(lia) W). lia. }
  revert Hfuel. generalize (S (length inp - p)) as fuel. intros fuel.
  assert (Hgen : forall fuel x, p <= x <= q -> q - x < fuel -> star_loop inp true (RChr f) k fuel x cs = Some m).
  { induction fuel0 as [|fl IH]; intros x Hx Hf; [lia|]. simpl.
    destruct (Nat.eq_dec x q) as [->|Hne].
    - unfold char_at. destruct (nth_error inp q) as [a|] eqn:E; [rewrite (Hq a eq_refl)|]; exact Hk.
    - destruct (W x ltac:(lia)) as (a & Ha & Fa).
      unfold char_at. rewrite Ha, Fa.
      replace (x <? S x) with true by (symmetry; apply Nat.ltb_lt; lia).
      rewrite (IH (S x)) by lia. reflexivity. }
  intros Hfuel. apply Hgen; lia.
Qed.

(** A lazy star of a character class stops at the first place where the rest matches. *)
Lemma mt_lazy_first f p q cs k m : p <= q -> all_chars inp p q f ->
  (forall j, p <= j < q -> k j cs = None) -> k q cs = Some m ->
  mt inp (RStar false (RChr f)) p cs k = Some m.
Proof.
  intros Hle W Hj Hk. rewrite mt_star.
  assert (Hfuel : q - p < S (length inp - p)).
  { destruct (Nat.eq_dec p q) as [->|Hne]; [lia|]. pose proof (all_chars_bound p q f ltac:(lia) W). lia. }
  revert Hfuel. generalize (S (length inp - p)) as fuel. intros fuel.
  assert (Hgen : forall fuel x, p <= x <= q -> q - x < fuel -> star_loop inp false (RChr f) k fuel x cs = Some m).
  { induction fuel0 as [|fl IH]; intros x Hx Hf; [lia|]. simpl.
    destruct (Nat.eq_dec x q) as [->|Hne].
    - rewrite Hk. reflexivity.
    - rewrite (Hj x ltac:(lia)).
      destruct (W x ltac:(lia)) as (a & Ha & Fa).
      unfold char_at. rewrite Ha, Fa.
      replace (x <? S x) with true by (symmetry; apply Nat.ltb_lt; lia).
      apply IH; lia. }
  intros Hfuel. apply Hgen; lia.
Qed.

Lemma mt_none_no_mrel r p cs k : (forall q cs', mrel inp r p cs q cs' -> k q cs' = None) -> mt inp r p cs k = None.
Proof.
  intros H. destruct (mt inp r p cs k) as [res|] eqn:E; [|reflexivity].
  destruct (mt_sound inp r p cs k res E) as (q & cs' & R & Hk). rewrite (H q cs' R) in Hk. discriminate.
Qed.

Lemma search_from_skip r i fuel : mt inp r i [] (k_final i) = None ->
  search_from inp r i (S fuel) = search_from inp r (S i) fuel.
Proof. intros H. simpl. rewrite H. reflexivity. Qed.

Lemma search_from_hit r i fuel m : mt inp r i [] (k_final i) = Some m -> search_from inp r i (S fuel) = Some m.
Proof. intros H. simpl. rewrite H. reflexivity. Qed.

End Exact.

Lemma skipn_app_len (l1 l2 : str) n : skipn (length l1 + n) (l1 ++ l2) = skipn n l2.
Proof. rewrite skipn_app, skipn_all2 by lia. simpl. f_equal. lia. Qed.

(** Settings written by [serializeSettings] are read back by [parseSettings]
    when the JSON encoder writes one object without backquotes and the
    decoder inverts it. *)
Lemma parseSettings_serializeSettings (json_parse : str -> option BoardSettings)
  (json_stringify : BoardSettings -> str) (s : BoardSettings) (B : str) :
  s <> [] -> json_stringify s = "{"%char :: B ++ ["}"%char] ->
  (forall a, In a B -> a <> "`"%char) ->
  json_parse (json_stringify s) = Some s ->
  parseSettings json_parse (serializeSettings json_stringify s) = s.
Proof.
  intros Hne HJ HB Hp.
  set (J := json_stringify s) in *.
  assert (EX : serializeSettings json_stringify s = settings_head ++ J ++ settings_tail).
  { destruct s as [|e s']; [congruence|]. unfold serializeSettings, settings_head, settings_tail.
    rewrite <- !app_assoc. reflexivity. }
  rewrite EX. set (X := settings_head ++ J ++ settings_tail).
  set (a := 28 + length J).
  assert (HLX : length X = a + 8) by (unfold X, a; rewrite !length_app; reflexivity).
  assert (HJl : 2 <= length J) by (rewrite HJ; simpl; rewrite length_app; simpl; lia).
  assert (HXm : forall j, 28 <= j < a -> nth_error X j = nth_error J (j - 28)).
  { intros j Hj. unfold X. rewrite (nth_app_r settings_head _ j) by (simpl; lia).
    change (length settings_head) with 28. rewrite nth_app_l by (unfold a in Hj; lia). reflexivity. }
  assert (HXr : forall j, a <= j -> nth_error X j = nth_error settings_tail (j - a)).
  { intros j Hj. unfold X. rewrite (nth_app_r settings_head _ j) by (simpl; unfold a in Hj; lia).
    change (length settings_head) with 28. rewrite nth_app_r by (unfold a in Hj; lia).
    f_equal. unfold a. lia. }
  assert (Hsk : forall n, skipn (a + n) X = skipn n settings_tail).
  { intros n. unfold X, a. rewrite app_assoc. replace (28 + length J + n) with (length (settings_head ++ J) + n)
      by (rewrite length_app; reflexivity). apply skipn_app_len. }
  assert (HnoB : forall j, 28 <= j < a -> nth_error X j <> Some "`"%char).
  { intros j Hj E. rewrite HXm in E by lia. apply nth_error_In in E. rewrite HJ in E.
    destruct E as [E|E]; [discriminate|]. apply in_app_or in E as [E|[E|[]]]; [|discriminate].
    exact (HB _ E eq_refl). }
  assert (Hlast : nth_error X (a - 1) = Some "}"%char).
  { rewrite HXm by lia. rewrite HJ. replace (a - 1 - 28) with (S (length B)) by (unfold a; rewrite HJ; simpl; rewrite length_app; simpl; lia).
    simpl. rewrite nth_error_app2 by lia. rewrite Nat.sub_diag. reflexivity. }
  set (M := {| m_start := 1; m_end := a + 7; m_caps := [(1, (28, a))] |}).
  assert (Hm : re_match X SETTINGS_JSON = Some M).
  { unfold re_match, re_exec. rewrite HLX. simpl (a + 8 <? 0).
    replace (S (a + 8 - 0)) with (S (S (a + 7))) by lia.
    rewrite search_from_skip by (vm_compute; reflexivity).
    apply search_from_hit.
    unfold SETTINGS_JSON. cbn [seqs].
    rewrite mt_seq_eq, (mt_lit_ok X "%% kanban:settings" 1 [] _ (skipn 19 X)) by (discriminate || reflexivity).
    cbv beta. replace (1 + length (L "%% kanban:settings")) with 19 by reflexivity.
    rewrite mt_seq_eq. apply (mt_star_max X is_ws 19 20); [lia | | |].
    { intros j Hj. replace j with 19 by lia. eexists; split; reflexivity. }
    { intros c Hc. vm_compute in Hc. injection Hc as <-. reflexivity. }
    cbv beta.
    rewrite mt_seq_eq, (mt_lit_ok X "```" 20 [] _ (skipn 23 X)) by (discriminate || reflexivity).
    cbv beta. replace (20 + length (L "```")) with 23 by reflexivity.
    rewrite mt_seq_eq. apply mt_alt_l.
    rewrite (mt_lit_ok X "json" 23 [] _ (skipn 27 X)) by (discriminate || reflexivity).
    cbv beta. replace (23 + length (L "json")) with 27 by reflexivity.
    rewrite mt_seq_eq. apply (mt_star_max X is_ws 27 28); [lia | | |].
    { intros j Hj. replace j with 27 by lia. eexists; split; reflexivity. }
    { intros c Hc. rewrite HXm in Hc by lia. rewrite HJ in Hc. injection Hc as <-. reflexivity. }
    cbv beta.
    rewrite mt_seq_eq, mt_group_eq. apply (mt_lazy_first X _ 28 a); [lia | | |].
    - intros j Hj. destruct (nth_error X j) as [c|] eqn:E; [exists c; split; reflexivity|].
      apply nth_error_None in E. lia.
    - intros j Hj. cbv beta. apply mt_none_no_mrel. intros q cs' R.
      apply mrel_seq_inv in R as (j1 & c1 & R1 & R).
      apply mrel_star_chr_inv in R1 as (-> & Hj1 & W1).
      apply mrel_seq_inv in R as (j2 & c2 & R2 & _). unfold lit in R2. simpl in R2.
      apply mrel_seq_inv in R2 as (j3 & c3 & R3 & _). apply mrel_chr_inv in R3 as (-> & -> & x & Hx & Fx).
      apply Ascii.eqb_eq in Fx. subst x.
      exfalso. destruct (Nat.lt_ge_cases j1 a) as [Hlt|Hge].
      + exact (HnoB j1 ltac:(lia) Hx).
      + destruct (W1 (a - 1) ltac:(lia)) as (w & Hw & Fw). rewrite Hlast in Hw. injection Hw as <-.
        discriminate.
    - cbv beta.
      rewrite mt_seq_eq. apply (mt_star_max X is_ws a (a + 1)); [lia | | |].
      { intros j Hj. replace j with a by lia. rewrite HXr by lia. rewrite Nat.sub_diag. eexists; split; reflexivity. }
      { intros c Hc. rewrite HXr in Hc by lia. replace (a + 1 - a) with 1 in Hc by lia. injection Hc as <-. reflexivity. }
      cbv beta.
      rewrite mt_seq_eq, (mt_lit_ok X "```" (a + 1) _ _ (skipn (a + 4) X)).
      2: discriminate.
      2: rewrite !Hsk; reflexivity.
      cbv beta. replace (a + 1 + length (L "```")) with (a + 4) by (simpl; lia).
      rewrite mt_seq_eq. apply (mt_star_max X is_ws (a + 4) (a + 5)); [lia | | |].
      { intros j Hj. replace j with (a + 4) by lia. rewrite HXr by lia. replace (a + 4 - a) with 4 by lia.
        eexists; split; reflexivity. }
      { intros c Hc. rewrite HXr in Hc by lia. replace (a + 5 - a) with 5 in Hc by lia. injection Hc as <-. reflexivity. }
      cbv beta.
      rewrite (mt_lit_ok X "%%" (a + 5) _ _ (skipn (a + 7) X)).
      2: discriminate.
      2: rewrite !Hsk; reflexivity.
      unfold k_final. f_equal. unfold M. f_equal. simpl. lia. }
  unfold parseSettings. rewrite Hm.
  assert (Hg : grp X M 1 = J).
  { unfold grp, group. simpl. unfold slice.
    replace (a - 28) with (length J) by (unfold a; lia).
    change 28 with (length settings_head + 0). unfold X. rewrite skipn_app_len. simpl.
    rewrite firstn_app, firstn_all, Nat.sub_diag. simpl. apply app_nil_r. }
  rewrite Hg. fold J in Hp. rewrite Hp. reflexivity.
Qed.

Lemma match_all_from_in (inp : str) r i fuel m : In m (match_all_from inp r i fuel) ->
  exists i', re_exec inp r i' = Some m.
Proof.
  revert i. induction fuel as [|f IH]; intros i H; simpl in H; [contradiction|].
  destruct (re_exec inp r i) as [m'|] eqn:E; [|contradiction].
  destruct H as [<-|H]; [eauto|]. eapply IH. exact H.
Qed.

(** Every tag [parseTags] returns is a non-empty run of word characters,
    dashes and slashes that follows a [#] in the text. *)
Lemma parseTags_sound (text tag : str) : In tag (snd (parseTags text)) ->
  tag <> [] /\ forallb is_tagchar tag = true /\
  exists pre post, text = pre ++ "#"%char :: tag ++ post.
Proof.
  simpl. intros H. apply in_map_iff in H as (m & <- & Hm).
  apply match_all_from_in in Hm as (i & Hm).
  destruct (re_exec_sound _ _ _ _ Hm) as (_ & R & _).
  destruct m as [st en cs]; simpl in R. unfold group0; simpl.
  unfold TAG in R; simpl in R.
  apply mrel_seq_inv in R as (a1 & c1 & R1 & R). apply mrel_chr_inv in R1 as (-> & -> & x & Hx & Fx).
  apply Ascii.eqb_eq in Fx. subst x.
  apply mrel_plus_chr_inv in R as (-> & Hlt & W).
  destruct (mrel_mono _ _ _ _ _ _ (mrel_plus_chr_build text _ (S st) [] en Hlt W)) as [_ Hen].
  specialize (Hen Hlt).
  assert (Hsl : slice text st en = "#"%char :: slice text (S st) en).
  { unfold slice. rewrite (skipn_nth text st "#"%char Hx). replace (en - st) with (S (en - S st)) by lia.
    reflexivity. }
  rewrite Hsl. simpl.
  split; [intros E; assert (length (slice text (S st) en) = 0) by (rewrite E; reflexivity);
          rewrite length_slice in H by lia; lia|].
  split; [apply all_chars_forallb; [lia | exact W]|].
  exists (firstn st text), (skipn en text).
  rewrite <- (firstn_skipn st text) at 1. f_equal.
  rewrite (skipn_nth text st "#"%char Hx). f_equal.
  apply skipn_slice. lia.
Qed.

(** ** Prefixes *)

Lemma nth_error_firstn_lt (l : str) n j : j < n -> nth_error (firstn n l) j = nth_error l j.
Proof. intros H. rewrite nth_error_firstn. replace (j <? n) with true by (symmetry; apply Nat.ltb_lt; lia). reflexivity. Qed.

Lemma mrel_firstn (inp : str) n r p cs q cs' : mrel inp r p cs q cs' -> q < n -> mrel (firstn n inp) r p cs q cs'.
Proof.
  induction 1 as [p cs | f p cs a Ha Hf | r1 r2 p cs p1 cs1 q cs2 R1 IH1 R2 IH2
                 | r1 r2 p cs q cs' R IH | r1 r2 p cs q cs' R IH | g r1 p cs
                 | g r1 p cs p1 cs1 q cs2 R1 IH1 Hp R2 IH2 | k r1 p cs q cs1 R IH
                 | cs | cs | p cs Hb | p cs Hb | p cs Hb]; intros Hn.
  - constructor.
  - econstructor; [rewrite nth_error_firstn_lt by lia; exact Ha | exact Hf].
  - pose proof (mrel_mono _ _ _ _ _ _ R2). econstructor; [apply IH1; lia | apply IH2; lia].
  - apply MR_altl, IH, Hn.
  - apply MR_altr, IH, Hn.
  - constructor.
  - pose proof (mrel_mono _ _ _ _ _ _ R2). eapply MR_starS; [apply IH1; lia | exact Hp | apply IH2; lia].
  - constructor. apply IH, Hn.
  - constructor.
  - rewrite firstn_all2 by lia. constructor.
  - constructor. destruct (p =? 0) eqn:E; [reflexivity|]. simpl in *. apply Nat.eqb_neq in E.
    unfold term_at, char_at in *. rewrite nth_error_firstn_lt by lia. exact Hb.
  - destruct (p =? length inp) eqn:E.
    + apply Nat.eqb_eq in E. subst p. rewrite firstn_all2 by lia. constructor. rewrite Nat.eqb_refl. reflexivity.
    + constructor. simpl in Hb. apply orb_true_intro. right.
      unfold term_at, char_at in *. rewrite nth_error_firstn_lt by lia. exact Hb.
  - constructor. unfold word_at, char_at in *. rewrite !nth_error_firstn_lt by lia. exact Hb.
Qed.

(** ** [includes] *)

Lemma starts_with_app (s t K : str) : starts_with s K = true -> starts_with (s ++ t) K = true.
Proof.
  revert s. induction K as [|k K IH]; intros [|a s] H; simpl in *; try discriminate.
  - destruct t; reflexivity.
  - reflexivity.
  - apply andb_prop in H as [-> H]. apply IH, H.
Qed.

Lemma starts_with_self (K t : str) : starts_with (K ++ t) K = true.
Proof. induction K as [|k K IH]; simpl; [destruct t; reflexivity|]. rewrite Ascii.eqb_refl. exact IH. Qed.

Lemma index_of_from_some_shift (s K : str) i j : index_of_from s K i <> None -> index_of_from s K j <> None.
Proof.
  revert i j. induction s as [|a s IH]; intros i j H; cbn [index_of_from] in *.
  - destruct (starts_with [] K); [intros E; discriminate E | exact H].
  - destruct (starts_with (a :: s) K); [intros E; discriminate E|]. eapply IH. exact H.
Qed.

Lemma index_of_from_app (s t K : str) i : index_of_from s K i <> None -> index_of_from (s ++ t) K i <> None.
Proof.
  revert i. induction s as [|a s IH]; intros i H.
  - cbn [index_of_from] in H. destruct (starts_with [] K) eqn:E; [|contradiction].
    pose proof (starts_with_app [] t K E) as E'. cbn [app] in E' |- *.
    destruct t as [|b t]; cbn [index_of_from]; rewrite E'; intros Ed; discriminate Ed.
  - change (a :: s ++ t) with ((a :: s) ++ t). cbn [index_of_from] in H.
    destruct (starts_with (a :: s) K) eqn:E.
    + pose proof (starts_with_app (a :: s) t K E) as E'. cbn [app] in E' |- *.
      cbn [index_of_from]. rewrite E'. intros Ed; discriminate Ed.
    + cbn [index_of_from app]. destruct (starts_with (a :: s ++ t) K); [intros Ed; discriminate Ed | apply IH, H].
Qed.

Lemma index_of_from_prefix (P s K : str) i : index_of_from s K 0 <> None -> index_of_from (P ++ s) K i <> None.
Proof.
  revert i. induction P as [|a P IH]; intros i H; cbn [index_of_from app].
  - eapply index_of_from_some_shift. exact H.
  - destruct (starts_with (a :: P ++ s) K); [intros Ed; discriminate Ed | apply IH, H].
Qed.

Lemma includes_mid (P K Q : str) : includes (P ++ K ++ Q) K = true.
Proof.
  unfold includes, index_of.
  destruct (index_of_from (P ++ K ++ Q) K 0) eqn:E; [reflexivity|].
  exfalso. refine (index_of_from_prefix P (K ++ Q) K 0 _ E).
  destruct K as [|k K']; simpl; [destruct Q; intros Ed; discriminate Ed|].
  rewrite Ascii.eqb_refl, starts_with_self. intros Ed; discriminate Ed.
Qed.

Lemma includes_app_r (s t K : str) : includes s K = true -> includes (s ++ t) K = true.
Proof.
  unfold includes, index_of. intros H.
  destruct (index_of_from (s ++ t) K 0) eqn:E; [reflexivity|].
  exfalso. refine (index_of_from_app s t K 0 _ E). destruct (index_of_from s K 0); [intros Ed; discriminate Ed | discriminate H].
Qed.

(** ** Frontmatter *)

(** [extractFrontmatter] splits the document: frontmatter and rest put
    together give it back. *)
Lemma extractFrontmatter_split (c : str) :
  fst (extractFrontmatter c) ++ snd (extractFrontmatter c) = c.
Proof.
  unfold extractFrontmatter. destruct (re_match c FRONTMATTER) as [m|] eqn:Em; [|reflexivity].
  simpl. destruct (re_match_sound _ _ _ Em) as (_ & R & _).
  destruct m as [st en cs]; simpl in R. unfold FRONTMATTER in R. cbn [seqs] in R.
  apply mrel_seq_inv in R as (p1 & c1 & R1 & R). apply mrel_bol_inv in R1 as (-> & -> & ->).
  apply mrel_group_inv in R as (c2 & R & ->).
  pose proof (mrel_mono _ _ _ _ _ _ R) as [_ Hen].
  unfold grp, group. simpl. unfold slice. rewrite Nat.sub_0_r. simpl.
  rewrite length_firstn. destruct (Nat.eq_dec en 0) as [->|Hne]; [reflexivity|].
  replace (Nat.min en (length c)) with en by lia. apply firstn_skipn.
Qed.

Lemma frontmatter_opens (c : str) : fst (extractFrontmatter c) = [] \/
  exists q cs, mrel (fst (extractFrontmatter c)) FRONTMATTER_OPEN 0 [] q cs.
Proof.
  unfold extractFrontmatter. destruct (re_match c FRONTMATTER) as [m|] eqn:Em; [|left; reflexivity].
  right. simpl. destruct (re_match_sound _ _ _ Em) as (_ & R & _).
  destruct m as [st en cs]; simpl in R. unfold FRONTMATTER in R. cbn [seqs] in R.
  apply mrel_seq_inv in R as (p1 & c1 & R1 & R). apply mrel_bol_inv in R1 as (-> & -> & ->).
  apply mrel_group_inv in R as (c2 & R & ->).
  unfold grp, group. simpl. unfold slice. rewrite Nat.sub_0_r. simpl.
  apply mrel_seq_inv in R as (p1 & c1 & R1 & R).
  apply mrel_seq_inv in R as (p2 & c3 & R2 & R).
  apply mrel_seq_inv in R as (p3 & c4 & R3 & R).
  apply mrel_seq_inv in R as (p4 & c5 & R4 & R).
  apply mrel_seq_inv in R as (p5 & c6 & R5 & R6).
  unfold chr in R5. apply mrel_chr_inv in R5 as (-> & -> & _).
  pose proof (mrel_mono _ _ _ _ _ _ R4) as [Hp4 _].
  pose proof (mrel_mono _ _ _ _ _ _ R6) as [Hp6 _].
  assert (Hq : p3 < en) by lia.
  exists p3, ((1, (0, p3)) :: c4). unfold FRONTMATTER_OPEN. cbn [seqs].
  change p3 with (0 + p3) at 1. eapply MR_seq; [apply MR_bol|]. apply MR_group. simpl.
  eapply MR_seq; [apply mrel_firstn; [exact R1 | pose proof (mrel_mono _ _ _ _ _ _ R2); pose proof (mrel_mono _ _ _ _ _ _ R3); lia]|].
  eapply MR_seq; [apply mrel_firstn; [exact R2 | pose proof (mrel_mono _ _ _ _ _ _ R3); lia]|].
  apply mrel_firstn; [exact R3 | exact Hq].
Qed.

Lemma ensureKanbanFrontmatter_cons (fm : str) : fm <> [] ->
  ensureKanbanFrontmatter fm =
  if negb (includes fm FRONTMATTER_KEY) then
    re_replace fm FRONTMATTER_OPEN (fun m => grp fm m 1 ++ FRONTMATTER_KEY ++ L ": basic" ++ [nl])
  else fm.
Proof. destruct fm; [congruence | reflexivity]. Qed.

Lemma ensureKanbanFrontmatter_has_key (fm : str) :
  includes fm FRONTMATTER_KEY = true -> ensureKanbanFrontmatter fm = fm.
Proof.
  intros H. destruct fm as [|x fm']; [discriminate H|].
  rewrite ensureKanbanFrontmatter_cons by discriminate. rewrite H. reflexivity.
Qed.

Lemma ensureKanbanFrontmatter_replace_key (fm : str) m :
  re_match fm FRONTMATTER_OPEN = Some m ->
  includes (re_replace fm FRONTMATTER_OPEN (fun m => grp fm m 1 ++ FRONTMATTER_KEY ++ L ": basic" ++ [nl]))
    FRONTMATTER_KEY = true.
Proof.
  intros Em. unfold re_replace. rewrite Em.
  replace (firstn (m_start m) fm ++ (grp fm m 1 ++ FRONTMATTER_KEY ++ L ": basic" ++ [nl]) ++ skipn (m_end m) fm)
    with ((firstn (m_start m) fm ++ grp fm m 1) ++ FRONTMATTER_KEY ++ (L ": basic" ++ [nl] ++ skipn (m_end m) fm))
    by (rewrite <- !app_assoc; reflexivity).
  apply includes_mid.
Qed.

Lemma ensureKanbanFrontmatter_open_key (fm : str) q cs :
  mrel fm FRONTMATTER_OPEN 0 [] q cs -> includes (ensureKanbanFrontmatter fm) FRONTMATTER_KEY = true.
Proof.
  intros R. destruct fm as [|x fm']; [reflexivity|].
  rewrite ensureKanbanFrontmatter_cons by discriminate.
  destruct (includes (x :: fm') FRONTMATTER_KEY) eqn:Ei; [exact Ei|]. simpl negb.
  destruct (re_match_complete _ _ _ _ _ (Nat.le_0_l _) R) as (m & Em & _).
  exact (ensureKanbanFrontmatter_replace_key _ _ Em).
Qed.

(** Applying [ensureKanbanFrontmatter] twice is applying it once. *)
Lemma ensureKanbanFrontmatter_idem (fm : str) :
  ensureKanbanFrontmatter (ensureKanbanFrontmatter fm) = ensureKanbanFrontmatter fm.
Proof.
  destruct fm as [|x fm']; [reflexivity|].
  set (F := x :: fm'). rewrite (ensureKanbanFrontmatter_cons F) by discriminate.
  destruct (includes F FRONTMATTER_KEY) eqn:Ei; simpl negb.
  - apply ensureKanbanFrontmatter_has_key, Ei.
  - destruct (re_match F FRONTMATTER_OPEN) as [m|] eqn:Em.
    + apply ensureKanbanFrontmatter_has_key. exact (ensureKanbanFrontmatter_replace_key _ _ Em).
    + unfold re_replace at 1 2. rewrite Em.
      rewrite (ensureKanbanFrontmatter_cons F) by discriminate. rewrite Ei. simpl negb.
      unfold re_replace. rewrite Em. reflexivity.
Qed.

(** A non-empty frontmatter that does not open with [---] is written as it is,
    without the [kanban-plugin] key. *)
Lemma ensureKanbanFrontmatter_unopened (fm : str) :
  fm <> [] -> starts_with fm (L "---") = false -> ensureKanbanFrontmatter fm = fm.
Proof.
  intros Hne Hs. rewrite ensureKanbanFrontmatter_cons by exact Hne.
  destruct (includes fm FRONTMATTER_KEY); [reflexivity|]. simpl negb.
  unfold re_replace. destruct (re_match fm FRONTMATTER_OPEN) as [m|] eqn:Em; [|reflexivity].
  exfalso. destruct (re_match_sound _ _ _ Em) as (_ & R & _).
  destruct m as [st en cs]; simpl in R. unfold FRONTMATTER_OPEN in R. cbn [seqs] in R.
  apply mrel_seq_inv in R as (p1 & c1 & R1 & R). apply mrel_bol_inv in R1 as (-> & -> & ->).
  apply mrel_group_inv in R as (c2 & R & _).
  apply mrel_seq_inv in R as (p1 & c1 & R1 & _). unfold lit in R1. simpl in R1.
  apply mrel_seq_inv in R1 as (p2 & c3 & R2 & R1). apply mrel_chr_inv in R2 as (-> & -> & a1 & H1 & F1).
  apply mrel_seq_inv in R1 as (p3 & c4 & R3 & R1). apply mrel_chr_inv in R3 as (-> & -> & a2 & H2 & F2).
  apply mrel_chr_inv in R1 as (-> & -> & a3 & H3 & F3).
  apply Ascii.eqb_eq in F1, F2, F3. subst a1 a2 a3.
  destruct fm as [|b0 [|b1 [|b2 rest]]]; simpl in H1, H2, H3; try discriminate.
  injection H1 as ->. injection H2 as ->. injection H3 as ->. destruct rest; discriminate Hs.
Qed.

Lemma parseKanbanBoard_frontmatter now gen json_parse (markdown : str) :
  frontmatter (parseKanbanBoard now gen json_parse markdown) = fst (extractFrontmatter markdown).
Proof.
  unfold parseKanbanBoard. destruct (extractFrontmatter markdown) as [fm body].
  match goal with |- context [lane_sections ?a ?b ?c ?d ?e ?f] =>
    destruct (lane_sections a b c d e f) as [[[x y] z] w] end.
  reflexivity.
Qed.

(** Saving a parsed board always writes the [kanban-plugin] key. *)
Lemma serialize_parsed_has_key now gen json_parse json_stringify (markdown : str) :
  includes (serializeKanbanBoard json_stringify (parseKanbanBoard now gen json_parse markdown))
    FRONTMATTER_KEY = true.
Proof.
  assert (Hk : includes (ensureKanbanFrontmatter (frontmatter (parseKanbanBoard now gen json_parse markdown)))
                 FRONTMATTER_KEY = true).
  { rewrite parseKanbanBoard_frontmatter.
    destruct (frontmatter_opens markdown) as [E | (q & cs & R)].
    - rewrite E. reflexivity.
    - exact (ensureKanbanFrontmatter_open_key _ _ _ R). }
  unfold serializeKanbanBoard. cbv zeta.
  match goal with |- context [join [nl] ([?x] ++ ?rest)] => destruct rest as [|y ys] end.
  - exact Hk.
  - cbn [app join]. apply includes_app_r, Hk.
Qed.

Lemma all_chars_seg (l P X Q : str) f p q :
  l = P ++ X ++ Q -> p = length P -> q = length P + length X -> forallb f X = true -> all_chars l p q f.
Proof.
  intros -> -> -> H j Hj. rewrite nth_app_r by lia. rewrite nth_app_l by lia.
  apply (forallb_all_chars X f H). lia.
Qed.

Lemma nth_mid (l P Q : str) a p : l = P ++ a :: Q -> p = length P -> nth_error l p = Some a.
Proof. intros -> ->. rewrite nth_app_r, Nat.sub_diag by lia. reflexivity. Qed.

Lemma ws_split_unique (w w' s s' : str) a a' :
  forallb is_ws w = true -> forallb is_ws w' = true -> is_ws a = false -> is_ws a' = false ->
  w ++ a :: s = w' ++ a' :: s' -> w = w' /\ a = a' /\ s = s'.
Proof.
  revert w'. induction w as [|b w IH]; intros [|b' w'] H H' Ha Ha' E; simpl in *.
  - injection E as -> ->. auto.
  - injection E as -> _. apply andb_prop in H' as [H' _]. congruence.
  - injection E as -> _. apply andb_prop in H as [H _]. congruence.
  - injection E as -> E. apply andb_prop in H as [_ H]. apply andb_prop in H' as [_ H'].
    destruct (IH w' H H' Ha Ha' E) as (-> & -> & ->). auto.
Qed.

Lemma subtask_shape_unique l w1 w2 c u v w1' w2' c' u' v' :
  subtask_shape l w1 w2 c u v -> subtask_shape l w1' w2' c' u' v' ->
  w1 = w1' /\ w2 = w2' /\ c = c' /\ u ++ v = u' ++ v'.
Proof.
  intros (-> & H1 & H2 & _) (E & H1' & H2' & _).
  destruct (ws_split_unique _ _ _ _ "-"%char "-"%char H1 H1' eq_refl eq_refl E) as (-> & _ & E2).
  destruct (ws_split_unique _ _ _ _ "["%char "["%char H2 H2' eq_refl eq_refl E2) as (-> & _ & E3).
  injection E3 as -> E4. auto.
Qed.

Lemma subtask_item_sound l m : re_match l SUBTASK_ITEM = Some m ->
  exists w1 w2 c u v, subtask_shape l w1 w2 c u v /\ grp l m 1 = [c] /\ grp l m 2 = v.
Proof.
  intros Em. destruct (re_match_sound _ _ _ Em) as (_ & R & _).
  destruct m as [st en cs]; simpl in R. unfold SUBTASK_ITEM in R. cbn [seqs] in R.
  apply mrel_seq_inv in R as (p0 & c0 & R0 & R). apply mrel_bol_inv in R0 as (-> & -> & ->).
  apply mrel_seq_inv in R as (a & c1 & R1 & R). apply mrel_star_chr_inv in R1 as (-> & _ & W1).
  apply mrel_seq_inv in R as (a1 & c2 & R2 & R). apply mrel_chr_inv in R2 as (-> & -> & x1 & Hd & F1).
  apply mrel_seq_inv in R as (b & c3 & R3 & R). apply mrel_star_chr_inv in R3 as (-> & Hab & W2).
  apply mrel_seq_inv in R as (b1 & c4 & R4 & R). apply mrel_chr_inv in R4 as (-> & -> & x2 & Hlb & F2).
  apply mrel_seq_inv in R as (b2 & c5 & R5 & R). apply mrel_group_inv in R5 as (c6 & R5 & ->).
  apply mrel_chr_inv in R5 as (-> & -> & c & Hc & Fc).
  apply mrel_seq_inv in R as (b3 & c7 & R7 & R). apply mrel_chr_inv in R7 as (-> & -> & x3 & Hrb & F3).
  apply mrel_seq_inv in R as (d & c8 & R8 & R). apply mrel_star_chr_inv in R8 as (-> & Hbd & W3).
  apply mrel_seq_inv in R as (e & c9 & R9 & R). apply mrel_group_inv in R9 as (c10 & R9 & ->).
  apply mrel_star_chr_inv in R9 as (-> & Hde & W4).
  apply mrel_eol_inv in R as (-> & -> & ->).
  apply Ascii.eqb_eq in F1, F2, F3. subst x1 x2 x3.
  exists (slice l 0 a), (slice l (S a) b), c, (slice l (S (S (S b))) d), (slice l d (length l)).
  split; [|split; unfold grp, group; simpl; [|reflexivity]].
  - split; [|split; [|split; [|split; [exact Fc|split]]]].
    + transitivity (skipn 0 l); [reflexivity|].
      rewrite (skipn_slice l 0 a) by lia. f_equal.
      rewrite (skipn_nth l a _ Hd). f_equal.
      rewrite (skipn_slice l (S a) b) by lia. f_equal.
      rewrite (skipn_nth l b _ Hlb). f_equal.
      rewrite (skipn_nth l (S b) _ Hc). f_equal.
      rewrite (skipn_nth l (S (S b)) _ Hrb). f_equal.
      rewrite (skipn_slice l (S (S (S b))) d) by lia. f_equal.
      rewrite (skipn_slice l d (length l)) by lia. rewrite skipn_length_all, app_nil_r. reflexivity.
    + apply all_chars_forallb; [pose proof (mrel_mono _ _ _ _ _ _ (mrel_star_chr_build l true _ d [] _ Hde W4)); lia | exact W1].
    + apply all_chars_forallb; [lia | exact W2].
    + apply all_chars_forallb; [lia | exact W3].
    + apply all_chars_forallb; [lia | exact W4].
  - unfold slice. replace (S (S b) - S b) with 1 by lia. rewrite (skipn_nth l (S b) _ Hc). reflexivity.
Qed.

Lemma firstn_app_len (P Q : str) n : n = length P -> firstn n (P ++ Q) = P.
Proof. intros ->. rewrite firstn_app, firstn_all, Nat.sub_diag. simpl. apply app_nil_r. Qed.

Lemma subtask_toggle_sound l m : re_match l SUBTASK_TOGGLE = Some m ->
  exists w1 w2 c u v, subtask_shape l w1 w2 c u v
  /\ grp l m 1 = w1 ++ "-"%char :: w2 ++ ["["%char] /\ grp l m 2 = [c]
  /\ grp l m 3 = "]"%char :: u ++ v.
Proof.
  intros Em. destruct (re_match_sound _ _ _ Em) as (_ & R & _).
  destruct m as [st en cs]; simpl in R. unfold SUBTASK_TOGGLE in R. cbn [seqs] in R.
  apply mrel_seq_inv in R as (p0 & c0 & R0 & R). apply mrel_bol_inv in R0 as (-> & -> & ->).
  apply mrel_seq_inv in R as (b1 & c1 & R1 & R). apply mrel_group_inv in R1 as (c2 & R1 & ->).
  apply mrel_seq_inv in R1 as (a & c3 & R3 & R1). apply mrel_star_chr_inv in R3 as (-> & _ & W1).
  apply mrel_seq_inv in R1 as (a1 & c4 & R4 & R1). apply mrel_chr_inv in R4 as (-> & -> & x1 & Hd & F1).
  apply mrel_seq_inv in R1 as (b & c5 & R5 & R1). apply mrel_star_chr_inv in R5 as (-> & Hab & W2).
  apply mrel_chr_inv in R1 as (-> & -> & x2 & Hlb & F2).
  apply mrel_seq_inv in R as (b2 & c6 & R6 & R). apply mrel_group_inv in R6 as (c7 & R6 & ->).
  apply mrel_chr_inv in R6 as (-> & -> & c & Hc & Fc).
  apply mrel_seq_inv in R as (e & c8 & R8 & R). apply mrel_group_inv in R8 as (c9 & R8 & ->).
  apply mrel_seq_inv in R8 as (b3 & c10 & R10 & R8). apply mrel_chr_inv in R10 as (-> & -> & x3 & Hrb & F3).
  apply mrel_seq_inv in R8 as (d & c11 & R11 & R8). apply mrel_star_chr_inv in R11 as (-> & Hbd & W3).
  apply mrel_star_chr_inv in R8 as (-> & Hde & W4).
  apply mrel_eol_inv in R as (-> & -> & ->).
  apply Ascii.eqb_eq in F1, F2, F3. subst x1 x2 x3.
  assert (Hlen : S (S (S b)) <= length l) by (pose proof (mrel_mono _ _ _ _ _ _ (mrel_star_chr_build l true _ d [] _ Hde W4)); lia).
  assert (Hs3 : skipn (S (S b)) l = "]"%char :: slice l (S (S (S b))) d ++ slice l d (length l)).
  { rewrite (skipn_nth l (S (S b)) _ Hrb). f_equal.
    rewrite (skipn_slice l (S (S (S b))) d) by lia. f_equal.
    rewrite (skipn_slice l d (length l)) by lia. rewrite skipn_length_all, app_nil_r. reflexivity. }
  set (P := slice l 0 a ++ "-"%char :: slice l (S a) b ++ ["["%char]).
  assert (HP : length P = S b).
  { unfold P. rewrite !length_app. simpl. rewrite length_app, !length_slice by lia. simpl. lia. }
  assert (El : l = P ++ c :: skipn (S (S b)) l).
  { unfold P. rewrite <- !app_assoc. cbn [app]. rewrite <- !app_assoc. cbn [app].
    transitivity (skipn 0 l); [reflexivity|].
    rewrite (skipn_slice l 0 a) by lia. f_equal.
    rewrite (skipn_nth l a _ Hd). f_equal.
    rewrite (skipn_slice l (S a) b) by lia. f_equal.
    rewrite (skipn_nth l b _ Hlb). f_equal. apply (skipn_nth l (S b) _ Hc). }
  exists (slice l 0 a), (slice l (S a) b), c, (slice l (S (S (S b))) d), (slice l d (length l)).
  split; [|split; [|split]]; unfold grp, group; cbn -[slice].
  - split; [|split; [|split; [|split; [exact Fc|split]]]].
    + rewrite El at 1. rewrite Hs3. unfold P. rewrite <- ?app_assoc. cbn [app]. rewrite <- ?app_assoc. reflexivity.
    + apply all_chars_forallb; [lia | exact W1].
    + apply all_chars_forallb; [lia | exact W2].
    + apply all_chars_forallb; [lia | exact W3].
    + apply all_chars_forallb; [lia | exact W4].
  - unfold slice. rewrite Nat.sub_0_r. change (skipn 0 l) with l. rewrite El at 1. rewrite <- HP. apply firstn_app_len. reflexivity.
  - unfold slice. replace (S (S b) - S b) with 1 by lia. rewrite (skipn_nth l (S b) _ Hc). reflexivity.
  - unfold slice at 1. rewrite Hs3. apply firstn_all2. cbn [length]. rewrite length_app, !length_slice by lia. lia.
Qed.

Lemma subtask_shape_mrel l w1 w2 c u v : subtask_shape l w1 w2 c u v ->
  (exists q cs, mrel l SUBTASK_ITEM 0 [] q cs) /\ (exists q cs, mrel l SUBTASK_TOGGLE 0 [] q cs).
Proof.
  intros (El & H1 & H2 & Hbox & Hu & Hv).
  set (n1 := length w1). set (p2 := S n1 + length w2). set (pu := S (S (S p2))). set (pv := pu + length u).
  assert (Hlen : length l = pv + length v).
  { rewrite El. rewrite length_app. simpl. rewrite length_app. simpl. rewrite length_app. unfold pv, pu, p2, n1. lia. }
  assert (Hw1 : all_chars l 0 n1 is_ws) by (apply (all_chars_seg l [] w1 ("-"%char :: w2 ++ "["%char :: c :: "]"%char :: u ++ v)); auto).
  assert (Hd : nth_error l n1 = Some "-"%char) by (apply (nth_mid l w1 (w2 ++ "["%char :: c :: "]"%char :: u ++ v)); auto).
  assert (Hw2 : all_chars l (S n1) p2 is_ws).
  { apply (all_chars_seg l (w1 ++ ["-"%char]) w2 ("["%char :: c :: "]"%char :: u ++ v)); auto.
    - rewrite El. app_norm.
    - rewrite length_app. simpl. unfold n1. lia.
    - rewrite length_app. simpl. unfold p2, n1. lia. }
  assert (Hlb : nth_error l p2 = Some "["%char).
  { apply (nth_mid l (w1 ++ "-"%char :: w2) (c :: "]"%char :: u ++ v)).
    - rewrite El. app_norm.
    - rewrite length_app. simpl. unfold p2, n1. lia. }
  assert (Hc : nth_error l (S p2) = Some c).
  { apply (nth_mid l (w1 ++ "-"%char :: w2 ++ ["["%char]) ("]"%char :: u ++ v)).
    - rewrite El. app_norm.
    - rewrite length_app. simpl. rewrite length_app. simpl. unfold p2, n1. lia. }
  assert (Hrb : nth_error l (S (S p2)) = Some "]"%char).
  { apply (nth_mid l (w1 ++ "-"%char :: w2 ++ ["["%char; c]) (u ++ v)).
    - rewrite El. app_norm.
    - rewrite length_app. simpl. rewrite length_app. simpl. unfold p2, n1. lia. }
  assert (Hwu : all_chars l pu pv is_ws).
  { apply (all_chars_seg l (w1 ++ "-"%char :: w2 ++ ["["%char; c; "]"%char]) u v); auto.
    - rewrite El. app_norm.
    - rewrite length_app. simpl. rewrite length_app. simpl. unfold pu, p2, n1. lia.
    - rewrite length_app. simpl. rewrite length_app. simpl. unfold pv, pu, p2, n1. lia. }
  assert (Hwv : all_chars l pv (length l) (fun a => negb (is_line_term a))).
  { apply (all_chars_seg l (w1 ++ "-"%char :: w2 ++ ["["%char; c; "]"%char] ++ u) v []); auto.
    - rewrite El. app_norm.
    - rewrite length_app. simpl. rewrite !length_app. simpl. unfold pv, pu, p2, n1. lia.
    - rewrite Hlen. rewrite length_app. simpl. rewrite !length_app. simpl. unfold pv, pu, p2, n1. lia.
  }
  split.
  - exists (length l), [(2, (pv, length l)); (1, (S p2, S (S p2)))].
    unfold SUBTASK_ITEM. cbn [seqs].
    eapply MR_seq; [apply MR_bol|].
    eapply MR_seq; [apply (mrel_star_chr_build l true is_ws 0 [] n1); [lia | exact Hw1]|].
    eapply MR_seq; [apply (MR_chr l _ n1 [] _ Hd); reflexivity|].
    eapply MR_seq; [apply (mrel_star_chr_build l true is_ws (S n1) [] p2); [unfold p2; lia | exact Hw2]|].
    eapply MR_seq; [apply (MR_chr l _ p2 [] _ Hlb); reflexivity|].
    eapply MR_seq; [apply MR_group; apply (MR_chr l _ (S p2) [] _ Hc); exact Hbox|].
    eapply MR_seq; [apply (MR_chr l _ (S (S p2)) _ _ Hrb); reflexivity|].
    eapply MR_seq; [apply (mrel_star_chr_build l true is_ws pu _ pv); [unfold pv; lia | exact Hwu]|].
    eapply MR_seq; [apply MR_group; apply (mrel_star_chr_build l true _ pv _ (length l)); [lia | exact Hwv]|].
    apply MR_eol.
  - exists (length l), [(3, (S (S p2), length l)); (2, (S p2, S (S p2))); (1, (0, S p2))].
    unfold SUBTASK_TOGGLE. cbn [seqs].
    eapply MR_seq; [apply MR_bol|].
    eapply MR_seq.
    { apply MR_group.
      eapply MR_seq; [apply (mrel_star_chr_build l true is_ws 0 [] n1); [lia | exact Hw1]|].
      eapply MR_seq; [apply (MR_chr l _ n1 [] _ Hd); reflexivity|].
      eapply MR_seq; [apply (mrel_star_chr_build l true is_ws (S n1) [] p2); [unfold p2; lia | exact Hw2]|].
      apply (MR_chr l _ p2 [] _ Hlb); reflexivity. }
    eapply MR_seq; [apply MR_group; apply (MR_chr l _ (S p2) _ _ Hc); exact Hbox|].
    eapply MR_seq.
    { apply MR_group.
      eapply MR_seq; [apply (MR_chr l _ (S (S p2)) _ _ Hrb); reflexivity|].
      eapply MR_seq; [apply (mrel_star_chr_build l true is_ws pu _ pv); [unfold pv; lia | exact Hwu]|].
      apply (mrel_star_chr_build l true _ pv _ (length l)); [lia | exact Hwv]. }
    apply MR_eol.
Qed.

Lemma trim_ws_app (u v : str) : forallb is_ws u = true -> trim (u ++ v) = trim v.
Proof. intros H. unfold trim. rewrite drop_ws_ws_app by exact H. reflexivity. Qed.

Lemma subtask_item_some l w1 w2 c u v : subtask_shape l w1 w2 c u v ->
  exists m, re_match l SUBTASK_ITEM = Some m.
Proof.
  intros Hs. destruct (subtask_shape_mrel _ _ _ _ _ _ Hs) as [(q & cs & R) _].
  destruct (re_match_complete _ _ _ _ _ (Nat.le_0_l _) R) as (m & Em & _). eauto.
Qed.

Lemma subtask_toggle_some l w1 w2 c u v : subtask_shape l w1 w2 c u v ->
  exists m, re_match l SUBTASK_TOGGLE = Some m.
Proof.
  intros Hs. destruct (subtask_shape_mrel _ _ _ _ _ _ Hs) as [_ (q & cs & R)].
  destruct (re_match_complete _ _ _ _ _ (Nat.le_0_l _) R) as (m & Em & _). eauto.
Qed.

Lemma subtask_item_groups l w1 w2 c u v m : subtask_shape l w1 w2 c u v ->
  re_match l SUBTASK_ITEM = Some m -> grp l m 1 = [c] /\ trim (grp l m 2) = trim (u ++ v).
Proof.
  intros Hs Em. destruct (subtask_item_sound _ _ Em) as (w1' & w2' & c' & u' & v' & Hs' & G1 & G2).
  destruct (subtask_shape_unique _ _ _ _ _ _ _ _ _ _ _ Hs Hs') as (_ & _ & <- & Euv).
  split; [exact G1|]. rewrite G2, Euv. destruct Hs' as (_ & _ & _ & _ & Hu' & _).
  symmetry. apply trim_ws_app, Hu'.
Qed.

Lemma subtask_toggle_none_item l : re_match l SUBTASK_TOGGLE = None -> re_match l SUBTASK_ITEM = None.
Proof.
  intros Et. destruct (re_match l SUBTASK_ITEM) as [m|] eqn:Ei; [|reflexivity].
  destruct (subtask_item_sound _ _ Ei) as (w1 & w2 & c & u & v & Hs & _).
  destruct (subtask_toggle_some _ _ _ _ _ _ Hs) as (m' & Em'). congruence.
Qed.

Lemma subtask_item_none_toggle l : re_match l SUBTASK_ITEM = None -> re_match l SUBTASK_TOGGLE = None.
Proof.
  intros Ei. destruct (re_match l SUBTASK_TOGGLE) as [m|] eqn:Et; [|reflexivity].
  destruct (subtask_toggle_sound _ _ Et) as (w1 & w2 & c & u & v & Hs & _).
  destruct (subtask_item_some _ _ _ _ _ _ Hs) as (m' & Em'). congruence.
Qed.

Lemma to_lower_box_x (x : ascii) : (x = "x"%char \/ x = " "%char) ->
  str_eqb (to_lower_str [x]) (L "x") = Ascii.eqb x "x"%char.
Proof. intros [-> | ->]; reflexivity. Qed.

(** The line the toggle writes keeps the text and carries the new mark. *)
Lemma toggled_line (l : str) (m : mres) (b : bool) : re_match l SUBTASK_TOGGLE = Some m ->
  exists mi mN, re_match l SUBTASK_ITEM = Some mi
  /\ re_match (grp l m 1 ++ [if b then "x"%char else " "%char] ++ grp l m 3) SUBTASK_ITEM = Some mN
  /\ trim (grp (grp l m 1 ++ [if b then "x"%char else " "%char] ++ grp l m 3) mN 2) = trim (grp l mi 2)
  /\ str_eqb (to_lower_str (grp (grp l m 1 ++ [if b then "x"%char else " "%char] ++ grp l m 3) mN 1)) (L "x") = b.
Proof.
  intros Et. destruct (subtask_toggle_sound _ _ Et) as (w1 & w2 & c & u & v & Hs & G1 & _ & G3).
  set (x := if b then "x"%char else " "%char).
  set (N := grp l m 1 ++ [x] ++ grp l m 3).
  assert (HsN : subtask_shape N w1 w2 x u v).
  { destruct Hs as (_ & H1 & H2 & _ & Hu & Hv). unfold N. rewrite G1, G3.
    split; [app_norm|]. split; [exact H1|]. split; [exact H2|]. split; [unfold x; destruct b; reflexivity|].
    split; [exact Hu | exact Hv]. }
  destruct (subtask_item_some _ _ _ _ _ _ Hs) as (mi & Ei).
  destruct (subtask_item_some _ _ _ _ _ _ HsN) as (mN & EN).
  exists mi, mN. split; [exact Ei|]. split; [exact EN|].
  destruct (subtask_item_groups _ _ _ _ _ _ _ HsN EN) as (GN1 & GN2).
  destruct (subtask_item_groups _ _ _ _ _ _ _ Hs Ei) as (_ & GL2).
  split; [rewrite GN2, GL2; reflexivity|].
  rewrite GN1. unfold x. destruct b; reflexivity.
Qed.

Lemma parse_update_lines gen (ls : list str) (idx : Z) (cnt : nat) (b : bool) (g : nat) :
  parse_subtask_lines gen (update_subtask_lines ls idx cnt b) g =
  let '(subs, g') := parse_subtask_lines gen ls g in (set_completed_at subs (idx - Z.of_nat cnt) b, g').
Proof.
  revert cnt g. induction ls as [|l ls IH]; intros cnt g; [reflexivity|].
  cbn [update_subtask_lines]. destruct (re_match l SUBTASK_TOGGLE) as [m|] eqn:Et.
  - destruct (toggled_line l m b Et) as (mi & mN & Ei & EN & Gt & Gc).
    destruct (Z.eqb (Z.of_nat cnt) idx) eqn:Ez.
    + apply Z.eqb_eq in Ez. cbn [parse_subtask_lines]. rewrite EN, Ei.
      destruct (parse_subtask_lines gen ls (S g)) as [subs g'].
      cbn [set_completed_at]. replace (idx - Z.of_nat cnt =? 0)%Z with true by (symmetry; apply Z.eqb_eq; lia).
      rewrite Gt, Gc. reflexivity.
    + apply Z.eqb_neq in Ez. cbn [parse_subtask_lines]. rewrite Ei. rewrite IH.
      destruct (parse_subtask_lines gen ls (S g)) as [subs g'].
      cbn [set_completed_at]. replace (idx - Z.of_nat cnt =? 0)%Z with false by (symmetry; apply Z.eqb_neq; lia).
      do 3 f_equal. lia.
  - cbn [parse_subtask_lines]. rewrite (subtask_toggle_none_item l Et). apply IH.
Qed.

(** ** Lines *)

Lemma split_on_nonempty sep (s : str) : split_on sep s <> [].
Proof.
  destruct s as [|a s]; simpl; [discriminate|].
  destruct (Ascii.eqb a sep); [discriminate|]. destruct (split_on sep s); discriminate.
Qed.

Lemma split_on_nosep sep (x : str) : no_sep sep x = true -> split_on sep x = [x].
Proof.
  unfold no_sep. induction x as [|a x IH]; simpl; [reflexivity|]. intros H.
  apply andb_prop in H as [Ha H]. apply negb_true_iff in Ha. rewrite Ha, (IH H). reflexivity.
Qed.

Lemma split_on_elems sep (s : str) : forall x, In x (split_on sep s) -> no_sep sep x = true.
Proof.
  induction s as [|a s IH]; simpl; intros x Hx.
  - destruct Hx as [<-|[]]. reflexivity.
  - destruct (Ascii.eqb a sep) eqn:E.
    + destruct Hx as [<-|Hx]; [reflexivity | apply IH, Hx].
    + destruct (split_on sep s) as [|w ws] eqn:Es.
      * destruct Hx as [<-|[]]. unfold no_sep. simpl. rewrite E. reflexivity.
      * destruct Hx as [<-|Hx]; [|apply IH; right; exact Hx].
        unfold no_sep. simpl. rewrite E. apply IH. left. reflexivity.
Qed.

Lemma split_on_chars sep (s : str) : forall x a, In x (split_on sep s) -> In a x -> In a s.
Proof.
  induction s as [|b s IH]; simpl; intros x a Hx Ha.
  - destruct Hx as [<-|[]]. destruct Ha.
  - destruct (Ascii.eqb b sep).
    + destruct Hx as [<-|Hx]; [destruct Ha | right; eapply IH; eauto].
    + destruct (split_on sep s) as [|w ws] eqn:Es.
      * destruct Hx as [<-|[]]. destruct Ha as [<-|[]]. left. reflexivity.
      * destruct Hx as [<-|Hx].
        -- destruct Ha as [<-|Ha]; [left; reflexivity | right; eapply IH; [left; reflexivity | exact Ha]].
        -- right. eapply IH; [right; exact Hx | exact Ha].
Qed.

Lemma join_cons (x : str) xs sep : xs <> [] -> join sep (x :: xs) = x ++ sep ++ join sep xs.
Proof. destruct xs; [congruence | reflexivity]. Qed.

Lemma join_split sep (s : str) : join [sep] (split_on sep s) = s.
Proof.
  induction s as [|a s IH]; [reflexivity|]. cbn [split_on].
  destruct (Ascii.eqb a sep) eqn:E.
  - apply Ascii.eqb_eq in E. subst a. rewrite join_cons by apply split_on_nonempty. rewrite IH. reflexivity.
  - destruct (split_on sep s) as [|w ws] eqn:Es; [exfalso; exact (split_on_nonempty sep s Es)|].
    destruct ws as [|y ys]; simpl in *; rewrite IH; reflexivity.
Qed.

Lemma split_join sep (L0 : list str) : L0 <> [] -> (forall x, In x L0 -> no_sep sep x = true) ->
  split_on sep (join [sep] L0) = L0.
Proof.
  induction L0 as [|x xs IH]; intros Hne H; [congruence|].
  destruct xs as [|y ys].
  - apply split_on_nosep, H. left. reflexivity.
  - rewrite join_cons by discriminate. cbn [app]. rewrite split_on_app by (apply H; left; reflexivity).
    f_equal. apply IH; [discriminate|]. intros z Hz. apply H. right. exact Hz.
Qed.

Lemma split_on_app_sep sep (s t : str) : split_on sep (s ++ sep :: t) = split_on sep s ++ split_on sep t.
Proof.
  induction s as [|a s IH]; simpl.
  - rewrite Ascii.eqb_refl. reflexivity.
  - destruct (Ascii.eqb a sep); [rewrite IH; reflexivity|]. rewrite IH.
    destruct (split_on sep s) as [|w ws] eqn:Es; [exfalso; exact (split_on_nonempty sep s Es)|]. reflexivity.
Qed.

Lemma toggled_line_chars (l : str) (m : mres) (x : ascii) : re_match l SUBTASK_TOGGLE = Some m ->
  forall a, In a (grp l m 1 ++ [x] ++ grp l m 3) -> a = x \/ In a l.
Proof.
  intros Et a Ha. destruct (subtask_toggle_sound _ _ Et) as (w1 & w2 & c & u & v & Hs & G1 & _ & G3).
  destruct Hs as (El & _). rewrite G1, G3 in Ha. rewrite El.
  repeat (rewrite in_app_iff in * || simpl in * ). intuition.
Qed.

Lemma update_lines_elems sep (ls : list str) idx cnt (b : bool) :
  Ascii.eqb "x"%char sep = false -> Ascii.eqb " "%char sep = false ->
  (forall x, In x ls -> no_sep sep x = true) ->
  forall y, In y (update_subtask_lines ls idx cnt b) -> no_sep sep y = true.
Proof.
  intros Hx Hsp. revert cnt. induction ls as [|l ls IH]; intros cnt H y Hy; [destruct Hy|].
  cbn [update_subtask_lines] in Hy. destruct (re_match l SUBTASK_TOGGLE) as [m|] eqn:Et.
  - destruct (Z.eqb (Z.of_nat cnt) idx).
    + destruct Hy as [<-|Hy]; [|apply H; right; exact Hy].
      unfold no_sep. apply forallb_forall. intros a Ha.
      destruct (toggled_line_chars l m _ Et a Ha) as [->|Hal].
      * destruct b; cbv beta iota; [rewrite Hx | rewrite Hsp]; reflexivity.
      * pose proof (H l (or_introl eq_refl)) as Hl. unfold no_sep in Hl. rewrite forallb_forall in Hl.
        apply Hl, Hal.
    + destruct Hy as [<-|Hy]; [apply H; left; reflexivity|].
      apply (IH (S cnt)); [intros z Hz; apply H; right; exact Hz | exact Hy].
  - destruct Hy as [<-|Hy]; [apply H; left; reflexivity|].
    apply (IH cnt); [intros z Hz; apply H; right; exact Hz | exact Hy].
Qed.

Lemma update_lines_length (ls : list str) idx cnt (b : bool) :
  length (update_subtask_lines ls idx cnt b) = length ls.
Proof.
  revert cnt. induction ls as [|l ls IH]; intros cnt; [reflexivity|]. cbn [update_subtask_lines].
  destruct (re_match l SUBTASK_TOGGLE); [destruct (Z.eqb (Z.of_nat cnt) idx)|]; simpl; rewrite ?IH; reflexivity.
Qed.

Lemma update_lines_out_of_range gen (ls : list str) idx cnt (b : bool) g :
  (idx < Z.of_nat cnt \/ Z.of_nat cnt + Z.of_nat (length (fst (parse_subtask_lines gen ls g))) <= idx)%Z ->
  update_subtask_lines ls idx cnt b = ls.
Proof.
  revert cnt g. induction ls as [|l ls IH]; intros cnt g H; [reflexivity|].
  cbn [update_subtask_lines]. cbn [parse_subtask_lines] in H.
  destruct (re_match l SUBTASK_TOGGLE) as [m|] eqn:Et.
  - destruct (toggled_line l m b Et) as (mi & _ & Ei & _). rewrite Ei in H.
    pose proof (IH (S cnt) (S g)) as IH'.
    destruct (parse_subtask_lines gen ls (S g)) as [subs g'] eqn:Ep. cbn [fst length] in H, IH'.
    replace (Z.eqb (Z.of_nat cnt) idx) with false by (symmetry; apply Z.eqb_neq; lia).
    f_equal. apply IH'. lia.
  - rewrite (subtask_toggle_none_item l Et) in H. f_equal. apply (IH cnt g). exact H.
Qed.

Lemma no_sep_nl_no_line_term (s : str) : no_line_term s = true -> no_sep nl s = true.
Proof. apply no_line_term_no_nl. Qed.

(** [parseSubtasksFromContent] after [updateSubtaskInContent]: the same
    subtasks, with the [subtaskIndex]-th one (if any) marked as asked. *)
Lemma parse_after_update gen (content : str) (subtaskIndex : Z) (completed : bool) (g : nat) :
  parseSubtasksFromContent gen (updateSubtaskInContent content subtaskIndex completed) g =
  let '(subs, g') := parseSubtasksFromContent gen content g in
  (set_completed_at subs subtaskIndex completed, g').
Proof.
  unfold parseSubtasksFromContent, updateSubtaskInContent, split_lines.
  rewrite split_join.
  - rewrite parse_update_lines. rewrite Z.sub_0_r. reflexivity.
  - intros E. apply (f_equal (@length str)) in E. rewrite update_lines_length in E.
    destruct (split_on nl content) eqn:Es; [exact (split_on_nonempty nl content Es) | discriminate].
  - apply update_lines_elems; [reflexivity | reflexivity | apply split_on_elems].
Qed.

(** An index that names no subtask leaves the content as it is. *)
Lemma update_out_of_range gen (content : str) (subtaskIndex : Z) (completed : bool) (g : nat) :
  (subtaskIndex < 0 \/ Z.of_nat (length (fst (parseSubtasksFromContent gen content g))) <= subtaskIndex)%Z ->
  updateSubtaskInContent content subtaskIndex completed = content.
Proof.
  intros H. unfold updateSubtaskInContent.
  rewrite (update_lines_out_of_range gen _ _ _ _ g) by (unfold parseSubtasksFromContent in H; lia).
  apply join_split.
Qed.

Lemma parse_lines_app gen (L1 L2 : list str) g :
  parse_subtask_lines gen (L1 ++ L2) g =
  let '(s1, g1) := parse_subtask_lines gen L1 g in
  let '(s2, g2) := parse_subtask_lines gen L2 g1 in (s1 ++ s2, g2).
Proof.
  revert g. induction L1 as [|l L1 IH]; intros g; simpl.
  - destruct (parse_subtask_lines gen L2 g); reflexivity.
  - destruct (re_match l SUBTASK_ITEM); [|apply IH].
    rewrite IH. destruct (parse_subtask_lines gen L1 (S g)) as [s1 g1].
    destruct (parse_subtask_lines gen L2 g1) as [s2 g2]. reflexivity.
Qed.

Lemma parse_lines_blank gen (ls : list str) g :
  (forall x, In x ls -> forallb is_ws x = true) -> parse_subtask_lines gen ls g = ([], g).
Proof.
  induction ls as [|l ls IH]; intros H; [reflexivity|]. cbn [parse_subtask_lines].
  destruct (re_match l SUBTASK_ITEM) as [m|] eqn:Ei.
  - exfalso. destruct (subtask_item_sound _ _ Ei) as (w1 & w2 & c & u & v & (El & _) & _).
    pose proof (H l (or_introl eq_refl)) as Hl. rewrite forallb_forall in Hl.
    assert (Hin : In "-"%char l) by (rewrite El; apply in_or_app; right; left; reflexivity).
    specialize (Hl _ Hin). discriminate Hl.
  - apply IH. intros x Hx. apply H. right. exact Hx.
Qed.

Lemma drop_ws_nil (s : str) : drop_ws s = [] -> forallb is_ws s = true.
Proof.
  induction s as [|a s IH]; simpl; [reflexivity|].
  destruct (is_ws a); [exact IH | discriminate].
Qed.

Lemma drop_ws_cons (s r : str) a : drop_ws s = a :: r -> is_ws a = false.
Proof.
  induction s as [|b s IH]; simpl; [discriminate|].
  destruct (is_ws b) eqn:E; [exact IH | congruence].
Qed.

Lemma trim_nil (s : str) : trim s = [] -> forallb is_ws s = true.
Proof.
  unfold trim. intros E. apply (f_equal (@rev ascii)) in E. rewrite rev_involutive in E. simpl in E.
  apply drop_ws_nil in E.
  destruct (drop_ws s) as [|a r] eqn:Ed; [apply drop_ws_nil, Ed|].
  exfalso. rewrite forallb_forall in E.
  assert (Ea : is_ws a = true) by (apply E; simpl; apply in_or_app; right; left; reflexivity).
  rewrite (drop_ws_cons s r a Ed) in Ea. discriminate Ea.
Qed.

Lemma new_subtask_line gen (t : str) g : no_line_term t = true ->
  parse_subtask_lines gen (split_lines ([tab] ++ L "- [ ] " ++ t)) g =
  ([{| st_id := gen g; st_text := trim t; st_completed := false |}], S g).
Proof.
  intros Ht. set (N := [tab] ++ L "- [ ] " ++ t).
  assert (Hs : subtask_shape N [tab] [" "%char] " "%char [" "%char] t).
  { split; [reflexivity|]. split; [reflexivity|]. split; [reflexivity|]. split; [reflexivity|].
    split; [reflexivity | exact Ht]. }
  unfold split_lines. rewrite split_on_nosep.
  - destruct (subtask_item_some _ _ _ _ _ _ Hs) as (m & Em).
    destruct (subtask_item_groups _ _ _ _ _ _ _ Hs Em) as (G1 & G2).
    cbn [parse_subtask_lines]. rewrite Em. rewrite G1, G2.
    rewrite (trim_ws_app [" "%char] t eq_refl). reflexivity.
  - unfold N, no_sep. rewrite forallb_app. simpl. exact (no_sep_nl_no_line_term t Ht).
Qed.

Lemma re_match_empty_item : re_match [] SUBTASK_ITEM = None.
Proof. vm_compute. reflexivity. Qed.

(** [parseSubtasksFromContent] after [addSubtaskToContent]: the subtasks
    already there, then an open one with the trimmed text. *)
Lemma parse_after_add gen (content : option str) (subtaskText : str) (g : nat) :
  no_line_term subtaskText = true ->
  parseSubtasksFromContent gen (addSubtaskToContent content subtaskText) g =
  let '(subs, g') := parseSubtasksFromContent gen (match content with Some c => c | None => [] end) g in
  (subs ++ [{| st_id := gen g'; st_text := trim subtaskText; st_completed := false |}], S g').
Proof.
  intros Ht. unfold parseSubtasksFromContent.
  assert (H0 : parse_subtask_lines gen (split_lines []) g = ([], g))
    by (cbn [split_lines split_on parse_subtask_lines]; rewrite re_match_empty_item; reflexivity).
  destruct content as [[|a s]|]; unfold addSubtaskToContent.
  - rewrite H0. apply new_subtask_line, Ht.
  - destruct (str_eqb (trim (a :: s)) []) eqn:Eb.
    + apply str_eqb_spec, trim_nil in Eb.
      rewrite (parse_lines_blank gen (split_lines (a :: s)) g).
      * apply new_subtask_line, Ht.
      * intros x Hx. apply forallb_forall. intros c Hc. rewrite forallb_forall in Eb.
        apply Eb. exact (split_on_chars nl _ x c Hx Hc).
    + unfold split_lines. cbn [app]. rewrite app_comm_cons, split_on_app_sep, parse_lines_app.
      destruct (parse_subtask_lines gen (split_on nl (a :: s)) g) as [subs g'].
      pose proof (new_subtask_line gen subtaskText g' Ht) as HN. unfold split_lines in HN. cbn [app] in HN. rewrite HN. reflexivity.
  - rewrite H0. apply new_subtask_line, Ht.
Qed.

(** ** Content blocks of checklist cards *)

(** The checklist-line patterns [CHECKBOX] and [SUBTASK_LINE] differ only in
    the pattern [r1] of their indent group. *)
(** A match of a checklist-line pattern splits the line into its parts. *)
Lemma checkline_sound (r1 : re) l m :
  (forall p cs q cs', mrel l r1 p cs q cs' -> cs' = cs /\ p <= q /\ all_chars l p q is_ws) ->
  re_match l (seqs [RBol; RGroup 1 r1; chr "-"; star Rws; chr "["; RGroup 2 (Rin " xX"); chr "]";
                    star Rws; RGroup 3 (star Rdot); REol]) = Some m ->
  exists w1 w2 c u v, subtask_shape l w1 w2 c u v /\ mrel l r1 0 [] (length w1) []
  /\ grp l m 1 = w1 /\ grp l m 2 = [c] /\ grp l m 3 = v.
Proof.
  intros Hr1 Em. destruct (re_match_sound _ _ _ Em) as (_ & R & _).
  destruct m as [st en cs]; simpl in R. cbn [seqs] in R.
  apply mrel_seq_inv in R as (p0 & c0 & R0 & R). apply mrel_bol_inv in R0 as (-> & -> & ->).
  apply mrel_seq_inv in R as (a & c1 & R1 & R). apply mrel_group_inv in R1 as (c1' & R1 & ->).
  pose proof R1 as R1'. apply Hr1 in R1 as (-> & _ & W1).
  apply mrel_seq_inv in R as (a1 & c2 & R2 & R). apply mrel_chr_inv in R2 as (-> & -> & x1 & Hd & F1).
  apply mrel_seq_inv in R as (b & c3 & R3 & R). apply mrel_star_chr_inv in R3 as (-> & Hab & W2).
  apply mrel_seq_inv in R as (b1 & c4 & R4 & R). apply mrel_chr_inv in R4 as (-> & -> & x2 & Hlb & F2).
  apply mrel_seq_inv in R as (b2 & c5 & R5 & R). apply mrel_group_inv in R5 as (c6 & R5 & ->).
  apply mrel_chr_inv in R5 as (-> & -> & c & Hc & Fc).
  apply mrel_seq_inv in R as (b3 & c7 & R7 & R). apply mrel_chr_inv in R7 as (-> & -> & x3 & Hrb & F3).
  apply mrel_seq_inv in R as (d & c8 & R8 & R). apply mrel_star_chr_inv in R8 as (-> & Hbd & W3).
  apply mrel_seq_inv in R as (e & c9 & R9 & R). apply mrel_group_inv in R9 as (c10 & R9 & ->).
  apply mrel_star_chr_inv in R9 as (-> & Hde & W4).
  apply mrel_eol_inv in R as (-> & -> & ->).
  apply Ascii.eqb_eq in F1, F2, F3. subst x1 x2 x3.
  assert (Hlen : S (S (S b)) <= length l)
    by (pose proof (mrel_mono _ _ _ _ _ _ (mrel_star_chr_build l true _ d [] _ Hde W4)); lia).
  assert (Ha : length (slice l 0 a) = a) by (rewrite length_slice; lia).
  exists (slice l 0 a), (slice l (S a) b), c, (slice l (S (S (S b))) d), (slice l d (length l)).
  split; [|split; [rewrite Ha; exact R1'|split; [|split]]]; unfold grp, group; cbn -[slice].
  - split; [|split; [|split; [|split; [exact Fc|split]]]].
    + transitivity (skipn 0 l); [reflexivity|].
      rewrite (skipn_slice l 0 a) by lia. f_equal.
      rewrite (skipn_nth l a _ Hd). f_equal.
      rewrite (skipn_slice l (S a) b) by lia. f_equal.
      rewrite (skipn_nth l b _ Hlb). f_equal.
      rewrite (skipn_nth l (S b) _ Hc). f_equal.
      rewrite (skipn_nth l (S (S b)) _ Hrb). f_equal.
      rewrite (skipn_slice l (S (S (S b))) d) by lia. f_equal.
      rewrite (skipn_slice l d (length l)) by lia. rewrite skipn_length_all, app_nil_r. reflexivity.
    + apply all_chars_forallb; [lia | exact W1].
    + apply all_chars_forallb; [lia | exact W2].
    + apply all_chars_forallb; [lia | exact W3].
    + apply all_chars_forallb; [lia | exact W4].
  - reflexivity.
  - unfold slice. replace (S (S b) - S b) with 1 by lia. rewrite (skipn_nth l (S b) _ Hc). reflexivity.
  - reflexivity.
Qed.

(** A checklist line has a path through a checklist-line pattern whose indent group accepts its indent. *)
Lemma checkline_mrel (r1 : re) l w1 w2 c u v : subtask_shape l w1 w2 c u v ->
  mrel l r1 0 [] (length w1) [] ->
  exists q cs, mrel l (seqs [RBol; RGroup 1 r1; chr "-"; star Rws; chr "["; RGroup 2 (Rin " xX"); chr "]";
                            star Rws; RGroup 3 (star Rdot); REol]) 0 [] q cs.
Proof.
  intros (El & H1 & H2 & Hbox & Hu & Hv) R1.
  set (n1 := length w1). set (p2 := S n1 + length w2). set (pu := S (S (S p2))). set (pv := pu + length u).
  assert (Hlen : length l = pv + length v).
  { rewrite El. rewrite length_app. simpl. rewrite length_app. simpl. rewrite length_app. unfold pv, pu, p2, n1. lia. }
  assert (Hd : nth_error l n1 = Some "-"%char) by (apply (nth_mid l w1 (w2 ++ "["%char :: c :: "]"%char :: u ++ v)); auto).
  assert (Hw2 : all_chars l (S n1) p2 is_ws).
  { apply (all_chars_seg l (w1 ++ ["-"%char]) w2 ("["%char :: c :: "]"%char :: u ++ v)); auto.
    - rewrite El. app_norm.
    - rewrite length_app. simpl. unfold n1. lia.
    - rewrite length_app. simpl. unfold p2, n1. lia. }
  assert (Hlb : nth_error l p2 = Some "["%char).
  { apply (nth_mid l (w1 ++ "-"%char :: w2) (c :: "]"%char :: u ++ v)).
    - rewrite El. app_norm.
    - rewrite length_app. simpl. unfold p2, n1. lia. }
  assert (Hc : nth_error l (S p2) = Some c).
  { apply (nth_mid l (w1 ++ "-"%char :: w2 ++ ["["%char]) ("]"%char :: u ++ v)).
    - rewrite El. app_norm.
    - rewrite length_app. simpl. rewrite length_app. simpl. unfold p2, n1. lia. }
  assert (Hrb : nth_error l (S (S p2)) = Some "]"%char).
  { apply (nth_mid l (w1 ++ "-"%char :: w2 ++ ["["%char; c]) (u ++ v)).
    - rewrite El. app_norm.
    - rewrite length_app. simpl. rewrite length_app. simpl. unfold p2, n1. lia. }
  assert (Hwu : all_chars l pu pv is_ws).
  { apply (all_chars_seg l (w1 ++ "-"%char :: w2 ++ ["["%char; c; "]"%char]) u v); auto.
    - rewrite El. app_norm.
    - rewrite length_app. simpl. rewrite length_app. simpl. unfold pu, p2, n1. lia.
    - rewrite length_app. simpl. rewrite length_app. simpl. unfold pv, pu, p2, n1. lia. }
  assert (Hwv : all_chars l pv (length l) (fun a => negb (is_line_term a))).
  { apply (all_chars_seg l (w1 ++ "-"%char :: w2 ++ ["["%char; c; "]"%char] ++ u) v []); auto.
    - rewrite El. app_norm.
    - rewrite length_app. simpl. rewrite !length_app. simpl. unfold pv, pu, p2, n1. lia.
    - rewrite Hlen. rewrite length_app. simpl. rewrite !length_app. simpl. unfold pv, pu, p2, n1. lia. }
  exists (length l), [(3, (pv, length l)); (2, (S p2, S (S p2))); (1, (0, n1))].
  cbn [seqs].
  eapply MR_seq; [apply MR_bol|].
  eapply MR_seq; [apply MR_group; exact R1|].
  eapply MR_seq; [apply (MR_chr l _ n1 _ _ Hd); reflexivity|].
  eapply MR_seq; [apply (mrel_star_chr_build l true is_ws (S n1) _ p2); [unfold p2; lia | exact Hw2]|].
  eapply MR_seq; [apply (MR_chr l _ p2 _ _ Hlb); reflexivity|].
  eapply MR_seq; [apply MR_group; apply (MR_chr l _ (S p2) _ _ Hc); exact Hbox|].
  eapply MR_seq; [apply (MR_chr l _ (S (S p2)) _ _ Hrb); reflexivity|].
  eapply MR_seq; [apply (mrel_star_chr_build l true is_ws pu _ pv); [unfold pv; lia | exact Hwu]|].
  eapply MR_seq; [apply MR_group; apply (mrel_star_chr_build l true _ pv _ (length l)); [lia | exact Hwv]|].
  apply MR_eol.
Qed.

Lemma shape_lead_ws l w1 w2 c u v : subtask_shape l w1 w2 c u v -> all_chars l 0 (length w1) is_ws.
Proof.
  intros (El & H1 & _).
  apply (all_chars_seg l [] w1 ("-"%char :: w2 ++ "["%char :: c :: "]"%char :: u ++ v)); auto.
Qed.

(** On a checklist line, [CHECKBOX] matches with the indent, the box and the text. *)
Lemma checkbox_groups l w1 w2 c u v : subtask_shape l w1 w2 c u v ->
  exists m, re_match l CHECKBOX = Some m
  /\ grp l m 1 = w1 /\ grp l m 2 = [c] /\ trim (grp l m 3) = trim v.
Proof.
  intros Hs.
  assert (Hr1 : forall p cs q cs', mrel l (star Rws) p cs q cs' -> cs' = cs /\ p <= q /\ all_chars l p q is_ws)
    by (intros p cs q cs' R; exact (mrel_star_chr_inv l true is_ws p cs q cs' R)).
  destruct (checkline_mrel (star Rws) l w1 w2 c u v Hs) as (q & cs & R).
  { apply mrel_star_chr_build; [lia | exact (shape_lead_ws _ _ _ _ _ _ Hs)]. }
  destruct (re_match_complete _ _ _ _ _ (Nat.le_0_l _) R) as (m & Em & _).
  exists m. split; [exact Em|].
  destruct (checkline_sound _ _ _ Hr1 Em) as (w1' & w2' & c' & u' & v' & Hs' & _ & G1 & G2 & G3).
  destruct (subtask_shape_unique _ _ _ _ _ _ _ _ _ _ _ Hs Hs') as (<- & _ & <- & Euv).
  split; [exact G1|]. split; [exact G2|]. rewrite G3.
  destruct Hs as (_ & _ & _ & _ & Hu & _). destruct Hs' as (_ & _ & _ & _ & Hu' & _).
  rewrite <- (trim_ws_app u' v' Hu'), <- Euv. apply trim_ws_app, Hu.
Qed.

(** On an indented checklist line, [SUBTASK_LINE] matches with the indent, the box and the text. *)
Lemma subtask_line_groups l w1 w2 c u v : subtask_shape l w1 w2 c u v -> w1 <> [] ->
  exists m, re_match l SUBTASK_LINE = Some m
  /\ grp l m 1 = w1 /\ grp l m 2 = [c] /\ trim (grp l m 3) = trim v.
Proof.
  intros Hs Hne.
  assert (Hr1 : forall p cs q cs', mrel l (plus Rws) p cs q cs' -> cs' = cs /\ p <= q /\ all_chars l p q is_ws).
  { intros p cs q cs' R. destruct (mrel_plus_chr_inv l is_ws p cs q cs' R) as (-> & Hlt & W). auto with arith. }
  destruct (checkline_mrel (plus Rws) l w1 w2 c u v Hs) as (q & cs & R).
  { apply mrel_plus_chr_build; [destruct w1; [congruence | simpl; lia] | exact (shape_lead_ws _ _ _ _ _ _ Hs)]. }
  destruct (re_match_complete _ _ _ _ _ (Nat.le_0_l _) R) as (m & Em & _).
  exists m. split; [exact Em|].
  destruct (checkline_sound _ _ _ Hr1 Em) as (w1' & w2' & c' & u' & v' & Hs' & _ & G1 & G2 & G3).
  destruct (subtask_shape_unique _ _ _ _ _ _ _ _ _ _ _ Hs Hs') as (<- & _ & <- & Euv).
  split; [exact G1|]. split; [exact G2|]. rewrite G3.
  destruct Hs as (_ & _ & _ & _ & Hu & _). destruct Hs' as (_ & _ & _ & _ & Hu' & _).
  rewrite <- (trim_ws_app u' v' Hu'), <- Euv. apply trim_ws_app, Hu.
Qed.

(** A checklist line without indent does not match [SUBTASK_LINE]. *)
Lemma subtask_line_flat l w2 c u v : subtask_shape l [] w2 c u v -> re_match l SUBTASK_LINE = None.
Proof.
  intros Hs. destruct (re_match l SUBTASK_LINE) as [m|] eqn:Em; [|reflexivity].
  assert (Hr1 : forall p cs q cs', mrel l (plus Rws) p cs q cs' -> cs' = cs /\ p <= q /\ all_chars l p q is_ws).
  { intros p cs q cs' R. destruct (mrel_plus_chr_inv l is_ws p cs q cs' R) as (-> & Hlt & W). auto with arith. }
  destruct (checkline_sound _ _ _ Hr1 Em) as (w1' & w2' & c' & u' & v' & Hs' & R1 & _).
  destruct (subtask_shape_unique _ _ _ _ _ _ _ _ _ _ _ Hs Hs') as (<- & _).
  apply mrel_plus_chr_inv in R1 as (_ & Hlt & _). simpl in Hlt. lia.
Qed.

(** A checklist line is not a note line. *)
Lemma note_line_shape_none l w1 w2 c u v : subtask_shape l w1 w2 c u v -> re_match l NOTE_LINE = None.
Proof.
  intros Hs. destruct (re_match l NOTE_LINE) as [m|] eqn:Em; [|reflexivity]. exfalso.
  destruct (re_match_sound _ _ _ Em) as (_ & R & _).
  destruct m as [st en cs]; simpl in R. unfold NOTE_LINE in R. cbn [seqs] in R.
  apply mrel_seq_inv in R as (p0 & c0 & R0 & R). apply mrel_bol_inv in R0 as (-> & -> & ->).
  apply mrel_seq_inv in R as (a & c1 & R1 & R). apply mrel_star_chr_inv in R1 as (-> & _ & W1).
  apply mrel_seq_inv in R as (a1 & c2 & R2 & _). apply mrel_chr_inv in R2 as (_ & _ & x & Hx & Fx).
  apply Ascii.eqb_eq in Fx. subst x.
  pose proof (shape_lead_ws _ _ _ _ _ _ Hs) as W0.
  destruct Hs as (El & _).
  assert (Hd : nth_error l (length w1) = Some "-"%char)
    by (apply (nth_mid l w1 (w2 ++ "["%char :: c :: "]"%char :: u ++ v)); auto).
  destruct (Nat.lt_trichotomy a (length w1)) as [Hlt | [-> | Hgt]].
  - destruct (W0 a ltac:(lia)) as (b & Hb & Fb). rewrite Hx in Hb. injection Hb as <-. discriminate Fb.
  - rewrite Hx in Hd. discriminate Hd.
  - destruct (W1 (length w1) ltac:(lia)) as (b & Hb & Fb). rewrite Hd in Hb. injection Hb as <-. discriminate Fb.
Qed.

(** The indent of a line is its run of leading whitespace. *)
Lemma indent_of_ws (w s : str) a : forallb is_ws w = true -> is_ws a = false ->
  indent_of (w ++ a :: s) = length w.
Proof.
  intros Hw Ha. set (l := w ++ a :: s).
  assert (W : all_chars l 0 (length w) is_ws) by (apply (all_chars_seg l [] w (a :: s)); auto).
  assert (Hq : forall b, nth_error l (length w) = Some b -> is_ws b = false).
  { intros b Hb. rewrite (nth_mid l w s a (length w) eq_refl eq_refl) in Hb. congruence. }
  assert (E : re_match l INDENT = Some {| m_start := 0; m_end := length w; m_caps := [(1, (0, length w))] |}).
  { unfold re_match, re_exec. cbn [Nat.ltb Nat.leb]. apply search_from_hit.
    unfold INDENT. cbn [seqs]. rewrite mt_seq_eq.
    change (mt l RBol 0 [] ?k) with (k 0 []). cbv beta. rewrite mt_group_eq.
    apply (mt_star_max l is_ws 0 (length w)); [lia | exact W | exact Hq | reflexivity]. }
  unfold indent_of. rewrite E. unfold grp, group. cbn -[slice]. unfold slice. rewrite Nat.sub_0_r.
  change (skipn 0 l) with l. unfold l. rewrite firstn_app_len by reflexivity. reflexivity.
Qed.

Lemma is_blank_false (l : str) a : In a l -> is_ws a = false -> is_blank l = false.
Proof.
  intros Hin Ha. unfold is_blank. destruct (trim l) as [|b r] eqn:Et; [|reflexivity].
  apply trim_nil in Et. rewrite forallb_forall in Et. rewrite (Et a Hin) in Ha. discriminate.
Qed.

Lemma shape_not_blank l w1 w2 c u v : subtask_shape l w1 w2 c u v -> is_blank l = false.
Proof.
  intros (El & _). apply (is_blank_false l "-"%char); [|reflexivity].
  rewrite El. apply in_or_app. right. left. reflexivity.
Qed.

Lemma shape_indent l w1 w2 c u v : subtask_shape l w1 w2 c u v -> indent_of l = length w1.
Proof. intros (El & H1 & _). rewrite El. apply indent_of_ws; [exact H1 | reflexivity]. Qed.

(** The line index of the content loop is only recorded as [endIndex]. *)
Lemma scan_content_shift (gen : nat -> str) ci k i rest ns cl sb e e1 gi : e1 = k + e ->
  scan_content gen ci (k + i) rest
    {| sc_notes := ns; sc_contentLines := cl; sc_subtasks := sb; sc_endIndex := e1; sc_gid := gi |}
  = let r := scan_content gen ci i rest
               {| sc_notes := ns; sc_contentLines := cl; sc_subtasks := sb; sc_endIndex := e; sc_gid := gi |} in
    {| sc_notes := sc_notes r; sc_contentLines := sc_contentLines r; sc_subtasks := sc_subtasks r;
       sc_endIndex := k + sc_endIndex r; sc_gid := sc_gid r |}.
Proof.
  intros ->. revert i ns cl sb e gi. induction rest as [|l rest IH]; intros i ns cl sb e gi; [reflexivity|].
  cbn [scan_content]. replace (S (k + i)) with (k + S i) by lia.
  destruct (is_blank l); [destruct (lookahead ci rest); [apply IH; lia | reflexivity]|].
  destruct (re_match l NOTE_LINE); [apply IH; lia|].
  destruct (re_match l SUBTASK_LINE).
  - destruct (ci <? _); [apply IH; lia|]. destruct (ci <? indent_of l); [apply IH; lia | reflexivity].
  - destruct (ci <? indent_of l); [apply IH; lia | reflexivity].
Qed.

(** [parseCard] reads only the lines from [startIndex] on. *)
Lemma parseCard_local now gen (pre rest : list str) pnd g :
  parseCard now gen (pre ++ rest) (length pre) pnd g =
  let '(oc, e, g') := parseCard now gen rest 0 pnd g in (oc, length pre + e, g').
Proof.
  unfold parseCard.
  replace (nth_error (pre ++ rest) (length pre)) with (nth_error rest 0)
    by (rewrite nth_error_app2, Nat.sub_diag by lia; reflexivity).
  replace (skipn (S (length pre)) (pre ++ rest)) with (skipn 1 rest)
    by (rewrite skipn_app, (skipn_all2 pre) by lia; cbn [app]; f_equal; lia).
  destruct rest as [|line rest]; cbn [nth_error]; [rewrite Nat.add_0_r; reflexivity|].
  destruct (re_match line CHECKBOX) as [cb|]; [|rewrite Nat.add_0_r; reflexivity].
  replace (S (length pre)) with (length pre + 1) by lia.
  rewrite (scan_content_shift gen _ (length pre) 1 rest [] [] [] 0 (length pre) g) by lia. cbv zeta.
  destruct (extractId _) as [tw eid]. destruct (parseInlineMetadata tw) as [am md].
  destruct (if truthy _ then _ else _) as [np md']. destruct (parseTags am) as [x tg].
  destruct eid as [[|a id]|]; reflexivity.
Qed.

(** One step of the content loop on a checklist line indented deeper than the card. *)
Lemma scan_subtask_step (gen : nat -> str) ci i s rest st w1 w2 c u v :
  subtask_shape s w1 w2 c u v -> ci < length w1 ->
  scan_content gen ci i (s :: rest) st =
  scan_content gen ci (S i) rest
    {| sc_notes := sc_notes st; sc_contentLines := sc_contentLines st ++ [s];
       sc_subtasks := sc_subtasks st ++
         [{| st_id := gen (sc_gid st); st_text := trim v;
             st_completed := str_eqb (to_lower_str [c]) (L "x") |}];
       sc_endIndex := i; sc_gid := S (sc_gid st) |}.
Proof.
  intros Hs Hlt.
  destruct (subtask_line_groups s w1 w2 c u v Hs) as (m & Em & G1 & G2 & G3);
    [destruct w1; [simpl in Hlt; lia | discriminate]|].
  cbn [scan_content]. rewrite (shape_not_blank _ _ _ _ _ _ Hs), (note_line_shape_none _ _ _ _ _ _ Hs), Em.
  rewrite G1, G2, G3. replace (ci <? length w1) with true by (symmetry; apply Nat.ltb_lt, Hlt).
  reflexivity.
Qed.

(** A checklist line indented no deeper than the card ends the content block. *)
Lemma scan_stop_step (gen : nat -> str) ci i s rest st w1 w2 c u v :
  subtask_shape s w1 w2 c u v -> length w1 <= ci -> scan_content gen ci i (s :: rest) st = st.
Proof.
  intros Hs Hle.
  cbn [scan_content]. rewrite (shape_not_blank _ _ _ _ _ _ Hs), (note_line_shape_none _ _ _ _ _ _ Hs).
  rewrite (shape_indent _ _ _ _ _ _ Hs). replace (ci <? length w1) with false by (symmetry; apply Nat.ltb_ge, Hle).
  destruct (re_match s SUBTASK_LINE) as [m|] eqn:Em; [|reflexivity].
  destruct w1 as [|a w1']; [rewrite (subtask_line_flat _ _ _ _ _ Hs) in Em; discriminate Em|].
  destruct (subtask_line_groups _ _ _ _ _ _ Hs ltac:(discriminate)) as (m' & Em' & G1 & _).
  rewrite Em in Em'. injection Em' as <-. rewrite G1.
  replace (ci <? length (a :: w1')) with false by (symmetry; apply Nat.ltb_ge, Hle). reflexivity.
Qed.

(** A blank line accepted by the lookahead joins the block as an empty line. *)
Lemma scan_blank_step (gen : nat -> str) ci i b rest st :
  is_blank b = true -> lookahead ci rest = true ->
  scan_content gen ci i (b :: rest) st =
  scan_content gen ci (S i) rest
    {| sc_notes := sc_notes st; sc_contentLines := sc_contentLines st ++ [[]];
       sc_subtasks := sc_subtasks st; sc_endIndex := i; sc_gid := sc_gid st |}.
Proof. intros Hb Hl. cbn [scan_content]. rewrite Hb, Hl. reflexivity. Qed.

(** The lookahead accepts a checklist line indented deeper than the card. *)
Lemma lookahead_shape ci s rest w1 w2 c u v :
  subtask_shape s w1 w2 c u v -> ci < length w1 -> lookahead ci (s :: rest) = true.
Proof.
  intros Hs Hlt. cbn [lookahead]. rewrite (shape_not_blank _ _ _ _ _ _ Hs).
  unfold qualifies. rewrite (shape_indent _ _ _ _ _ _ Hs).
  replace (ci <? length w1) with true by (symmetry; apply Nat.ltb_lt, Hlt). reflexivity.
Qed.

(** C8: take a checklist card line indented by [w0], then a subtask line
    indented deeper, a blank line, a second subtask line indented deeper,
    and a checklist line indented no deeper than the card.  The card parsed
    at the first line gets the two subtask lines with the blank line between
    them as its content block, and both subtasks; its block ends at the
    second subtask line, and the card parsed at the next checklist line is
    the one that line and the lines after it give alone.  A blank line
    inside a block joins it exactly when the lookahead accepts the lines
    after it. *)
Lemma blank_line_joins_by_lookahead (now : date) (gen : nat -> str) (pnd : bool) (g : nat)
  (pre post : list str) (card s1 b s2 card2 : str)
  w0 x0 c0 u0 v0 w1 x1 c1 u1 v1 w2 x2 c2 u2 v2 w3 x3 c3 u3 v3
  (Hcard : subtask_shape card w0 x0 c0 u0 v0)
  (Hs1 : subtask_shape s1 w1 x1 c1 u1 v1) (Hi1 : length w0 < length w1)
  (Hb : is_blank b = true)
  (Hs2 : subtask_shape s2 w2 x2 c2 u2 v2) (Hi2 : length w0 < length w2)
  (Hcard2 : subtask_shape card2 w3 x3 c3 u3 v3) (Hi3 : length w3 <= length w0)
  ci i (l : str) rest st (Hblank : is_blank l = true) :
  let lines := pre ++ card :: s1 :: b :: s2 :: card2 :: post in
  (exists c g', parseCard now gen lines (length pre) pnd g = (Some c, length pre + 3, g')
     /\ content c = Some (join [nl] [s1; []; s2])
     /\ subtasks c = Some
          [{| st_id := gen g; st_text := trim v1; st_completed := str_eqb (to_lower_str [c1]) (L "x") |};
           {| st_id := gen (S g); st_text := trim v2; st_completed := str_eqb (to_lower_str [c2]) (L "x") |}]
     /\ parseCard now gen lines (length pre + 4) pnd g' =
        let '(oc, e2, g2) := parseCard now gen (card2 :: post) 0 pnd g' in (oc, length pre + 4 + e2, g2))
  /\ (lookahead ci rest = false -> scan_content gen ci i (l :: rest) st = st)
  /\ (lookahead ci rest = true ->
      exists more, sc_contentLines (scan_content gen ci i (l :: rest) st)
                   = sc_contentLines st ++ [] :: more).
Proof.
  intros lines. split; [|split].
  - assert (Hnext : forall g', parseCard now gen lines (length pre + 4) pnd g' =
              let '(oc, e2, g2) := parseCard now gen (card2 :: post) 0 pnd g' in (oc, length pre + 4 + e2, g2)).
    { intros g'. unfold lines.
      replace (pre ++ card :: s1 :: b :: s2 :: card2 :: post)
        with ((pre ++ [card; s1; b; s2]) ++ card2 :: post) by (rewrite <- app_assoc; reflexivity).
      replace (length pre + 4) with (length (pre ++ [card; s1; b; s2])) by (rewrite length_app; reflexivity).
      apply parseCard_local. }
    unfold lines. rewrite parseCard_local.
    destruct (checkbox_groups _ _ _ _ _ _ Hcard) as (cb & Ecb & G1 & _).
    unfold parseCard. cbn [nth_error skipn]. rewrite Ecb, G1.
    rewrite (scan_subtask_step gen _ 1 s1 _ _ _ _ _ _ _ Hs1 Hi1).
    rewrite (scan_blank_step gen _ 2 b _ _ Hb (lookahead_shape _ _ _ _ _ _ _ _ Hs2 Hi2)).
    rewrite (scan_subtask_step gen _ 3 s2 _ _ _ _ _ _ _ Hs2 Hi2).
    rewrite (scan_stop_step gen _ 4 card2 _ _ _ _ _ _ _ Hcard2 Hi3).
    cbn [sc_notes sc_contentLines sc_subtasks sc_endIndex sc_gid app].
    destruct (extractId _) as [tw eid]. destruct (parseInlineMetadata tw) as [am md].
    destruct (if truthy _ then _ else _) as [np md']. destruct (parseTags am) as [x tg].
    destruct eid as [[|a id]|]; eexists _, _; (split; [reflexivity|]);
      (split; [reflexivity|]); (split; [reflexivity|]); apply Hnext.
  - intros H. simpl. now rewrite Hblank, H.
  - intros H. simpl. rewrite Hblank, H.
    destruct (scan_content_extends gen ci (S i) rest
      {| sc_notes := sc_notes st; sc_contentLines := sc_contentLines st ++ [[]];
         sc_subtasks := sc_subtasks st; sc_endIndex := i; sc_gid := sc_gid st |}) as [more Hm].
    rewrite Hm. simpl. exists more. now rewrite <- app_assoc.
Qed.

Lemma blank_line_joins_by_lookahead_witness :
  let lines := [L "## Todo ^l1"] ++ L "- [ ] Card ^c1" :: (tab :: L "- [ ] sub1") :: []
               :: (tab :: L "- [ ] sub2") :: L "- [ ] Card2 ^c2" :: [] in
  (exists c g', parseCard 0%Z no_ids lines (length [L "## Todo ^l1"]) true 0
                = (Some c, length [L "## Todo ^l1"] + 3, g')
     /\ content c = Some (join [nl] [tab :: L "- [ ] sub1"; []; tab :: L "- [ ] sub2"])
     /\ subtasks c = Some
          [{| st_id := no_ids 0; st_text := trim (L "sub1"); st_completed := str_eqb (to_lower_str [" "%char]) (L "x") |};
           {| st_id := no_ids 1; st_text := trim (L "sub2"); st_completed := str_eqb (to_lower_str [" "%char]) (L "x") |}]
     /\ parseCard 0%Z no_ids lines (length [L "## Todo ^l1"] + 4) true g' =
        let '(oc, e2, g2) := parseCard 0%Z no_ids [L "- [ ] Card2 ^c2"] 0 true g' in
        (oc, length [L "## Todo ^l1"] + 4 + e2, g2))
  /\ (lookahead 0 [tab :: L "- [ ] sub2"] = false ->
      scan_content no_ids 0 3 ([] :: [tab :: L "- [ ] sub2"]) C8_state = C8_state)
  /\ (lookahead 0 [tab :: L "- [ ] sub2"] = true ->
      exists more, sc_contentLines (scan_content no_ids 0 3 ([] :: [tab :: L "- [ ] sub2"]) C8_state)
                   = sc_contentLines C8_state ++ [] :: more).
Proof.
  apply (blank_line_joins_by_lookahead 0%Z no_ids true 0 [L "## Todo ^l1"] []
           (L "- [ ] Card ^c1") (tab :: L "- [ ] sub1") [] (tab :: L "- [ ] sub2") (L "- [ ] Card2 ^c2")
           [] [" "%char] " "%char [" "%char] (L "Card ^c1")
           [tab] [" "%char] " "%char [" "%char] (L "sub1")
           [tab] [" "%char] " "%char [" "%char] (L "sub2")
           [] [" "%char] " "%char [" "%char] (L "Card2 ^c2")).
  all: try (vm_compute; repeat split); try (simpl; lia); reflexivity.
Defined.

(** * Witnesses of the further properties *)

Lemma extractId_sound_witness :
  extractId (L "Task ^abc") = (L "Task", Some (L "abc"))
  /\ L "abc" <> [] /\ forallb is_idchar (L "abc") = true /\
  exists s1 s2, L "Task ^abc" = L "Task" ++ s1 ++ ["^"%char] ++ L "abc" ++ s2
                /\ forallb is_ws s1 = true /\ forallb is_ws s2 = true.
Proof.
  split; [vm_compute; reflexivity|].
  apply extractId_sound. vm_compute. reflexivity.
Defined.

Lemma extractId_marker_witness : extractId (L "Task" ++ L " ^" ++ L "abc") = (L "Task", Some (L "abc")).
Proof.
  apply extractId_marker.
  - discriminate.
  - reflexivity.
  - intros a Ha. vm_compute in Ha. injection Ha as <-. reflexivity.
Defined.

Lemma parseCard_serializeCard_witness :
  exists c' e g', parseCard 0%Z no_ids [serializeCard X_card true] 0 true 0 = (Some c', e, g')
                  /\ card_id c' = card_id X_card /\ completed c' = completed X_card.
Proof.
  apply parseCard_serializeCard.
  - discriminate.
  - reflexivity.
  - vm_compute. reflexivity.
  - reflexivity.
Defined.

Lemma parseLane_serializeLane_witness :
  exists l' g', parseLane 0%Z no_ids (serializeLane X_lane) 0 = (Some l', g')
                /\ lane_id l' = lane_id X_lane /\ lane_title l' = lane_title X_lane.
Proof.
  apply parseLane_serializeLane.
  - discriminate.
  - reflexivity.
  - reflexivity.
  - vm_compute. reflexivity.
Defined.

Lemma getNextDayOfWeek_this_witness :
  let r := getNextDayOfWeek wed_2025_01_15 1 false in
  (wed_2025_01_15 < r <= wed_2025_01_15 + 7)%Z /\ getDay r = 1%Z
  /\ (forall k, (wed_2025_01_15 < k < r)%Z -> getDay k <> 1%Z).
Proof. apply getNextDayOfWeek_this. lia. Defined.

Lemma getNextDayOfWeek_next_week_witness :
  let r := getNextDayOfWeek wed_2025_01_15 1 true in
  (r - getDay r = wed_2025_01_15 - getDay wed_2025_01_15 + 7)%Z /\ getDay r = 1%Z.
Proof. apply getNextDayOfWeek_next_week. lia. Defined.

Lemma getLastDayOfWeek_spec_witness :
  let r := getLastDayOfWeek wed_2025_01_15 5 in
  (wed_2025_01_15 - 7 <= r < wed_2025_01_15)%Z /\ getDay r = 5%Z
  /\ (forall k, (r < k < wed_2025_01_15)%Z -> getDay k <> 5%Z).
Proof. apply getLastDayOfWeek_spec. lia. Defined.

Lemma getNextOccurrence_daily_witness :
  getNextOccurrence (mk_rule daily (Some 3%Z) None (L "every 3 days")) wed_2025_01_15
  = (wed_2025_01_15 + 3)%Z.
Proof. apply getNextOccurrence_daily. reflexivity. Defined.

Lemma getNextOccurrence_weekly_plain_witness :
  getNextOccurrence (mk_rule weekly (Some 2%Z) None (L "every 2 weeks")) wed_2025_01_15
  = (wed_2025_01_15 + 7 * 2)%Z.
Proof. apply getNextOccurrence_weekly_plain; [reflexivity | left; reflexivity]. Defined.

Lemma getNextOccurrence_monthly_witness :
  let r := getNextOccurrence (mk_rule monthly (Some 13%Z) None (L "every 13 months")) wed_2025_01_15 in
  getDate r = getDate wed_2025_01_15
  /\ (12 * getFullYear r + getMonth r = 12 * getFullYear wed_2025_01_15 + getMonth wed_2025_01_15 + 13)%Z.
Proof.
  apply (getNextOccurrence_monthly (mk_rule monthly (Some 13%Z) None (L "every 13 months"))).
  - reflexivity.
  - left. reflexivity.
  - vm_compute. discriminate.
Defined.

Lemma getNextOccurrence_yearly_witness :
  let r := getNextOccurrence (mk_rule yearly None None (L "every year")) wed_2025_01_15 in
  getDate r = getDate wed_2025_01_15 /\ getMonth r = getMonth wed_2025_01_15
  /\ getFullYear r = (getFullYear wed_2025_01_15 + 1)%Z.
Proof.
  apply (getNextOccurrence_yearly (mk_rule yearly None None (L "every year"))).
  - reflexivity.
  - vm_compute. discriminate.
Defined.

Lemma parseCard_metadata_witness :
  exists c e g', parseCard 0%Z no_ids [C7_line] 0 true 0 = (Some c, e, g')
  /\ md_ok (metadata c) /\ (forall v, In (L "note", v) (metadata c) -> v = MStr []).
Proof.
  destruct (parseCard 0%Z no_ids [C7_line] 0 true 0) as [[[c|] e] g'] eqn:E;
    [| vm_compute in E; discriminate E].
  exists c, e, g'. split; [reflexivity|].
  exact (parseCard_metadata 0%Z no_ids [C7_line] 0 true 0 c e g' E).
Defined.

Lemma parseSettings_serializeSettings_witness :
  parseSettings (fun _ => Some X_settings) (serializeSettings (fun _ => L "{a}") X_settings) = X_settings.
Proof.
  apply (parseSettings_serializeSettings _ _ X_settings (L "a")).
  - discriminate.
  - reflexivity.
  - intros a [<- | []]. discriminate.
  - reflexivity.
Defined.

Lemma parseTags_sound_witness :
  L "milk" <> [] /\ forallb is_tagchar (L "milk") = true /\
  exists pre post, L "buy #milk now" = pre ++ "#"%char :: L "milk" ++ post.
Proof. apply parseTags_sound. vm_compute. left. reflexivity. Defined.

Lemma ensureKanbanFrontmatter_unopened_witness : ensureKanbanFrontmatter (L "title: x") = L "title: x".
Proof. apply ensureKanbanFrontmatter_unopened; [discriminate | reflexivity]. Defined.

Lemma update_out_of_range_witness : updateSubtaskInContent X_subtasks 5 true = X_subtasks.
Proof. apply (update_out_of_range X_gen X_subtasks 5 true 0). right. vm_compute. discriminate. Defined.

Lemma parse_after_add_witness :
  parseSubtasksFromContent X_gen (addSubtaskToContent (Some X_subtasks) (L " three ")) 0 =
  let '(subs, g') := parseSubtasksFromContent X_gen X_subtasks 0 in
  (subs ++ [{| st_id := X_gen g'; st_text := L "three"; st_completed := false |}], S g').
Proof. apply parse_after_add. reflexivity. Defined.
